(** * SpectralToolkit: certificate tools, shallow embedding and checked properties

    The development follows these tools of the repository:

    - [tools/uniform_rollup_cert.py] and [tools/rollup_uniform.py]
      (certificate rollup algebra, tolerant field lookup),
    - [tools/rolling_T_uniform_cert_v3.py] (adaptive margin verifier,
      certificate writer),
    - [tools/subspace_psd_cholesky.py] (pivoted Cholesky PSD certifier),
    - [tools/band_cert.py] (interval bound oracle, certificate writer),
    - [tools/analytic_bounds.py] (certificate writer).

    Numbers.  The tools compute with mpmath's [mpf], a binary floating
    point type whose precision is set from [--dps].  The embedding keeps
    the value of every [mpf] as an exact rational: the rounding that
    mpmath applies at the working precision, and the rounding of
    [mp.nstr] to [dps] digits, are not represented, and the special
    values [inf]/[nan] appear only where the code itself creates them
    ([mp.inf] as the initial running minimum).  A decimal string in a
    certificate is represented by the rational it denotes.  The interval
    oracle of [band_cert.py] uses [exp] and is embedded over the real
    numbers, again without outward rounding.

    Python values.  JSON documents are the values [json.load] builds;
    a dict is an association list in insertion order, looked up by its
    first matching key.  A Python exception that ends the process is the
    [Exit1] outcome.  [json.dumps] and [hashlib.sha256] are embedded in
    full, so that digests can be computed. *)

From Stdlib Require Import Reals Lra.
From Stdlib Require Import ZArith QArith Qabs Qminmax Qfield Qpower Qreals.
From Stdlib Require Import List String Ascii Bool Lia Lqa.
From Stdlib Require Import DecimalString.
Import ListNotations.

Set Implicit Arguments.
Set Warnings "-register-all".
Set Warnings "-notation-overridden,-ambiguous-paths".

Local Open Scope string_scope.
Local Open Scope Z_scope.

(** ** Python values and mpmath numerals *)

Module Py.

(** What [json.load] returns.  [JFloat] carries the text [str] gives for
    the Python float, which is all the tools ever ask of it. *)
Inductive json : Type :=
| JNull
| JBool (b : bool)
| JInt (z : Z)
| JFloat (repr : string)
| JStr (s : string)
| JList (l : list json)
| JDict (d : list (string * json)).

(** [k in d] and [d[k]] on a dict. *)
Fixpoint dict_get (k : string) (d : list (string * json)) : option json :=
  match d with
  | [] => None
  | (k', v) :: rest => if String.eqb k k' then Some v else dict_get k rest
  end.

(** [d.pop(k, None)]: the entry leaves, the order of the others stays. *)
Fixpoint dict_pop (k : string) (d : list (string * json)) : list (string * json) :=
  match d with
  | [] => []
  | (k', v) :: rest =>
      if String.eqb k k' then dict_pop k rest else (k', v) :: dict_pop k rest
  end.

(** [d[k] = v]: an existing key keeps its place, a new key goes last. *)
Fixpoint dict_set (k : string) (v : json) (d : list (string * json))
  : list (string * json) :=
  match d with
  | [] => [(k, v)]
  | (k', v') :: rest =>
      if String.eqb k k' then (k, v) :: rest else (k', v') :: dict_set k v rest
  end.

(** [if "meta" not in payload or not isinstance(payload["meta"], dict):
    payload["meta"] = {}] *)
Definition ensure_meta (payload : list (string * json)) : list (string * json) :=
  match dict_get "meta" payload with
  | Some (JDict _) => payload
  | _ => dict_set "meta" (JDict []) payload
  end.

(** [payload["meta"][k] = v] for a payload whose [meta] is a dict. *)
Definition set_meta (k : string) (v : json) (payload : list (string * json))
  : list (string * json) :=
  match dict_get "meta" payload with
  | Some (JDict meta) => dict_set "meta" (JDict (dict_set k v meta)) payload
  | _ => payload
  end.

(** [meta = obj.get("meta"); if isinstance(meta, dict): meta.pop(k, None)] *)
Definition pop_meta (k : string) (obj : list (string * json))
  : list (string * json) :=
  match dict_get "meta" obj with
  | Some (JDict meta) => dict_set "meta" (JDict (dict_pop k meta)) obj
  | _ => obj
  end.

(** Process outcomes: a value, or an exception that reaches the top level
    and ends the process with a nonzero exit status. *)
Inductive outcome (A : Type) : Type :=
| Ok (a : A)
| Exit1 (msg : string).
Arguments Ok {A} a.
Arguments Exit1 {A} msg.

Definition bind {A B} (m : outcome A) (k : A -> outcome B) : outcome B :=
  match m with
  | Ok a => k a
  | Exit1 msg => Exit1 msg
  end.

Definition nonzero_exit {A} (m : outcome A) : Prop :=
  exists msg, m = Exit1 msg.

(** [str.lower()] on the ASCII letters. *)
Definition lower_ascii (c : ascii) : ascii :=
  let n := nat_of_ascii c in
  if (65 <=? n)%nat && (n <=? 90)%nat then ascii_of_nat (n + 32) else c.

Fixpoint lower (s : string) : string :=
  match s with
  | EmptyString => EmptyString
  | String c s' => String (lower_ascii c) (lower s')
  end.

(** [str(v)].  The text of a list or dict is kept schematic: the tools
    pass it to [mp.mpf] only, which rejects it whatever its content. *)
Definition str (v : json) : string :=
  match v with
  | JNull => "None"
  | JBool true => "True"
  | JBool false => "False"
  | JInt z => NilZero.string_of_int (Z.to_int z)
  | JFloat r => r
  | JStr s => s
  | JList _ => "[...]"
  | JDict _ => "{...}"
  end.

End Py.

(** [mp.mpf] applied to a string: plain decimal numerals
    [sign digits . digits e sign digits]; every other text raises
    [ValueError]. *)
Module Mpf.

(** A finite value or [mp.inf], the start value of a running minimum. *)
Inductive ext : Type :=
| Fin (q : Q)
| Inf.

(** [x < y] on finite values. *)
Definition Qlt_bool (x y : Q) : bool := negb (Qle_bool y x).

Definition digit_of (c : ascii) : option Z :=
  let n := nat_of_ascii c in
  if (48 <=? n)%nat && (n <=? 57)%nat then Some (Z.of_nat (n - 48)) else None.

(** Reads a run of digits: value so far, count of digits, and the rest. *)
Fixpoint digits (s : string) (acc : Z) (cnt : nat) : Z * nat * string :=
  match s with
  | EmptyString => (acc, cnt, s)
  | String c s' =>
      match digit_of c with
      | Some d => digits s' (10 * acc + d) (S cnt)
      | None => (acc, cnt, s)
      end
  end.

Definition sign_of (s : string) : bool * string :=
  match s with
  | String "-" s' => (true, s')
  | String "+" s' => (false, s')
  | _ => (false, s)
  end.

Definition pow10 (e : Z) : Q :=
  if (0 <=? e)%Z then inject_Z (10 ^ e) else 1 / inject_Z (10 ^ (- e)).

Definition exponent_of (s : string) : option Z :=
  match s with
  | EmptyString => Some 0%Z
  | String c s' =>
      if (Ascii.eqb c "e" || Ascii.eqb c "E")%bool then
        let '(neg, s1) := sign_of s' in
        match digits s1 0 0 with
        | (_, O, _) => None
        | (v, S _, EmptyString) => Some (if neg then (- v)%Z else v)
        | _ => None
        end
      else None
  end.

Definition of_string (s : string) : option Q :=
  let '(neg, s0) := sign_of s in
  let '(ip, ni, s1) := digits s0 0 0 in
  let '(fp, nf, s2) :=
    match s1 with
    | String "." s1' => digits s1' 0 0
    | _ => (0%Z, O, s1)
    end in
  match (ni + nf)%nat with
  | O => None
  | S _ =>
      match exponent_of s2 with
      | None => None
      | Some e =>
          let man := (ip * 10 ^ Z.of_nat nf + fp)%Z in
          let v := (inject_Z man * pow10 (e - Z.of_nat nf))%Q in
          Some (Qred (if neg then - v else v))
      end
  end.

End Mpf.

(** ** [json.dumps] and [hashlib.sha256] *)

Module Json.
Import Py.

Definition quote : ascii := ascii_of_nat 34.
Definition newline : ascii := ascii_of_nat 10.

Definition hex_digit (n : nat) : ascii :=
  if (n <? 10)%nat then ascii_of_nat (48 + n) else ascii_of_nat (87 + n).

(** One character of a string under [ensure_ascii=False]: the quote,
    the backslash and the control characters are escaped. *)
Definition escape_char (c : ascii) : string :=
  let n := nat_of_ascii c in
  if (n =? 34)%nat then String "\" (String quote EmptyString)
  else if (n =? 92)%nat then "\\"
  else if (n =? 10)%nat then "\n"
  else if (n =? 13)%nat then "\r"
  else if (n =? 9)%nat then "\t"
  else if (n =? 8)%nat then "\b"
  else if (n =? 12)%nat then "\f"
  else if (n <? 32)%nat then
    "\u00" ++ String (hex_digit (n / 16)) (String (hex_digit (n mod 16)) EmptyString)
  else String c EmptyString.

Fixpoint escape (s : string) : string :=
  match s with
  | EmptyString => EmptyString
  | String c s' => escape_char c ++ escape s'
  end.

Definition encode_str (s : string) : string :=
  String quote (escape s ++ String quote EmptyString).

(** [sorted(dct.items())]: insertion sort on the keys. *)
Fixpoint insert_item (kv : string * string) (l : list (string * string))
  : list (string * string) :=
  match l with
  | [] => [kv]
  | kv' :: rest =>
      if String.leb (fst kv) (fst kv') then kv :: l
      else kv' :: insert_item kv rest
  end.

Fixpoint sort_items (l : list (string * string)) : list (string * string) :=
  match l with
  | [] => []
  | kv :: rest => insert_item kv (sort_items rest)
  end.

Fixpoint join (sep : string) (l : list string) : string :=
  match l with
  | [] => EmptyString
  | [x] => x
  | x :: rest => x ++ sep ++ join sep rest
  end.

Fixpoint spaces (n : nat) : string :=
  match n with
  | O => EmptyString
  | S k => String " " (spaces k)
  end.

(** The options the tools pass: [sort_keys], [indent] ([None] or a
    width) and the key separator (a colon and a blank with an indent, a
    bare colon with compact separators). *)
Record options : Type := Options {
  sort_keys : bool;
  indent : option nat;
  key_separator : string
}.

Definition newline_indent (o : options) (level : nat) : string :=
  match indent o with
  | Some w => String newline (spaces (w * level))
  | None => EmptyString
  end.

Fixpoint encode (o : options) (level : nat) (j : json) : string :=
  match j with
  | JNull => "null"
  | JBool true => "true"
  | JBool false => "false"
  | JInt z => NilZero.string_of_int (Z.to_int z)
  | JFloat r => r
  | JStr s => encode_str s
  | JList [] => "[]"
  | JList l =>
      "[" ++ newline_indent o (S level)
          ++ join ("," ++ newline_indent o (S level))
                  (map (fun x => encode o (S level) x) l)
          ++ newline_indent o level ++ "]"
  | JDict [] => "{}"
  | JDict d =>
      let items :=
        map (fun kv => match kv with (k, v) => (k, encode o (S level) v) end) d in
      let items := if sort_keys o then sort_items items else items in
      "{" ++ newline_indent o (S level)
          ++ join ("," ++ newline_indent o (S level))
                  (map (fun kv => encode_str (fst kv) ++ key_separator o ++ snd kv) items)
          ++ newline_indent o level ++ "}"
  end.

Definition dumps (o : options) (j : json) : string := encode o 0 j.

(** [sort_keys=True, ensure_ascii=False], compact separators. *)
Definition compact_sorted : options :=
  {| sort_keys := true; indent := None; key_separator := ":" |}.

(** [sort_keys=True, ensure_ascii=False, indent=2]. *)
Definition indent2_sorted : options :=
  {| sort_keys := true; indent := Some 2%nat; key_separator := ": " |}.

(** [indent=2, ensure_ascii=False]. *)
Definition indent2 : options :=
  {| sort_keys := false; indent := Some 2%nat; key_separator := ": " |}.

End Json.

(** SHA-256 (FIPS 180-4) on byte strings; [hexdigest] gives the 64
    lowercase hexadecimal digits. *)
Module Sha256.

Definition mask (x : Z) : Z := x mod 2 ^ 32.
Definition add32 (x y : Z) : Z := mask (x + y).
Definition rotr (k x : Z) : Z :=
  Z.lor (Z.shiftr x k) (mask (Z.shiftl x (32 - k))).
Definition not32 (x : Z) : Z := 2 ^ 32 - 1 - x.

Definition Ch (x y z : Z) : Z := Z.lxor (Z.land x y) (Z.land (not32 x) z).
Definition Maj (x y z : Z) : Z :=
  Z.lxor (Z.lxor (Z.land x y) (Z.land x z)) (Z.land y z).
Definition Sigma0 (x : Z) : Z := Z.lxor (Z.lxor (rotr 2 x) (rotr 13 x)) (rotr 22 x).
Definition Sigma1 (x : Z) : Z := Z.lxor (Z.lxor (rotr 6 x) (rotr 11 x)) (rotr 25 x).
Definition sigma0 (x : Z) : Z := Z.lxor (Z.lxor (rotr 7 x) (rotr 18 x)) (Z.shiftr x 3).
Definition sigma1 (x : Z) : Z := Z.lxor (Z.lxor (rotr 17 x) (rotr 19 x)) (Z.shiftr x 10).

(** The constants are the leading fractional bits of square and cube
    roots of the first primes. *)
Definition is_prime (p : nat) : bool :=
  forallb (fun d => negb (p mod d =? 0)%nat) (seq 2 (p - 2)).

Definition primes64 : list Z := Eval vm_compute in
  map Z.of_nat (filter is_prime (seq 2 310)).

(** Largest [r] with [r ^ 3 <= x], for [x < 2 ^ 108]. *)
Definition cube_root (x : Z) : Z :=
  fold_left (fun r b => let r' := r + 2 ^ Z.of_nat b in
                        if r' * r' * r' <=? x then r' else r)
            (rev (seq 0 36)) 0.

Definition K : list Z := Eval vm_compute in
  map (fun p => mask (cube_root (p * 2 ^ 96))) primes64.

Definition H0 : list Z := Eval vm_compute in
  map (fun p => mask (Z.sqrt (p * 2 ^ 64))) (firstn 8 primes64).

Definition bytes_of (s : string) : list Z :=
  map (fun c => Z.of_nat (nat_of_ascii c)) (list_ascii_of_string s).

(** Big-endian bytes of [x], [k] of them. *)
Fixpoint be_bytes (k : nat) (x : Z) : list Z :=
  match k with
  | O => []
  | S k' => (Z.shiftr x (8 * Z.of_nat k')) mod 256 :: be_bytes k' x
  end.

Definition pad (msg : list Z) : list Z :=
  let len := List.length msg in
  let zeros := ((64 - (len + 9) mod 64) mod 64)%nat in
  (msg ++ [128] ++ repeat 0 zeros ++ be_bytes 8 (8 * Z.of_nat len))%list.

Fixpoint words (k : nat) (bs : list Z) : list Z :=
  match k, bs with
  | S k', b0 :: b1 :: b2 :: b3 :: rest =>
      (b0 * 2 ^ 24 + b1 * 2 ^ 16 + b2 * 2 ^ 8 + b3) :: words k' rest
  | _, _ => []
  end.

(** The message schedule, newest word first while it is built. *)
Fixpoint extend (k : nat) (rev_w : list Z) : list Z :=
  match k with
  | O => rev_w
  | S k' =>
      let w := add32 (add32 (sigma1 (nth 1 rev_w 0)) (nth 6 rev_w 0))
                     (add32 (sigma0 (nth 14 rev_w 0)) (nth 15 rev_w 0)) in
      extend k' (w :: rev_w)
  end.

Definition schedule (block : list Z) : list Z :=
  rev (extend 48 (rev (words 16 block))).

Definition round (s : list Z) (kw : Z * Z) : list Z :=
  match s with
  | [a; b; c; d; e; f; g; h] =>
      let t1 := add32 (add32 (add32 h (Sigma1 e)) (add32 (Ch e f g) (fst kw))) (snd kw) in
      let t2 := add32 (Sigma0 a) (Maj a b c) in
      [add32 t1 t2; a; b; c; add32 d t1; e; f; g]
  | _ => s
  end.

Definition compress (h : list Z) (block : list Z) : list Z :=
  let s := fold_left round (combine K (schedule block)) h in
  map (fun p => add32 (fst p) (snd p)) (combine h s).

Fixpoint blocks (k : nat) (bs : list Z) (h : list Z) : list Z :=
  match k with
  | O => h
  | S k' => blocks k' (skipn 64 bs) (compress h (firstn 64 bs))
  end.

Definition digest (msg : list Z) : list Z :=
  let p := pad msg in
  blocks (List.length p / 64) p H0.

Definition hex_of_word (x : Z) : string :=
  string_of_list_ascii
    (map (fun i => Json.hex_digit (Z.to_nat ((Z.shiftr x (4 * Z.of_nat i)) mod 16)))
         (rev (seq 0 8))).

(** [hashlib.sha256(blob).hexdigest()] *)
Definition hexdigest (blob : string) : string :=
  String.concat EmptyString (map hex_of_word (digest (bytes_of blob))).

End Sha256.

(** ** tools/uniform_rollup_cert.py *)

Module UniformRollupCert.
Import Py.

Fixpoint dig (obj : json) (path : list string) : option json :=
  match path with
  | [] => Some obj
  | k :: rest =>
      match obj with
      | JDict d =>
          match dict_get k d with
          | Some o => dig o rest
          | None => None
          end
      | _ => None
      end
  end.

(** [v] is [None], the empty string or the string [null]: the values
    that [coalesce] skips. *)
Definition is_blank (v : json) : bool :=
  match v with
  | JNull => true
  | JStr s => (String.eqb s EmptyString || String.eqb s "null")%bool
  | _ => false
  end.

Fixpoint coalesce (obj : json) (paths : list (list string)) (default : string)
  : string :=
  match paths with
  | [] => default
  | p :: ps =>
      match dig obj p with
      | Some v => if is_blank v then coalesce obj ps default else str v
      | None => coalesce obj ps default
      end
  end.

(** [mp.nstr(mp.mpf(str(x)), n=mp.dps, strip_zeros=False)]: the numeral
    is read and written back; what is kept is the value it denotes. *)
Definition mp_str (x : string) : outcome Q :=
  match Mpf.of_string x with
  | Some q => Ok q
  | None => Exit1 "could not convert string to mpf"
  end.

Definition must (file : option json) (what : string) : outcome json :=
  match file with
  | Some j => Ok j
  | None => Exit1 ("Missing " ++ what)
  end.

Definition band_margin_paths : list (list string) :=
  [ ["numbers"; "band_margin_lo"];
    ["band_cert"; "band_margin"; "lo"];
    ["band_cert"; "band_margin_lo"];
    ["numbers"; "band_margin"];
    ["band_margin"; "lo"];
    ["band_margin_lo"] ].

Definition read_band_margin (band_json : json) : string :=
  coalesce band_json band_margin_paths "0".

Definition prime_block_cap_paths : list (list string) :=
  [ ["prime_block_norm"; "used_operator_norm"];
    ["used_operator_norm"];
    ["operator_norm_cap"; "hi"];
    ["operator_norm_cap"];
    ["cap"] ].

Definition read_prime_block_cap (pblk_json : json) : string :=
  coalesce pblk_json prime_block_cap_paths "0".

Definition prime_tail_norm_paths : list (list string) :=
  [ ["prime_tail"; "env_T0_hi"];
    ["prime_tail_envelope"; "env_T0_hi"];
    ["numbers"; "prime_tail_norm"];
    ["env_T0_hi"];
    ["prime_tail_norm"] ].

Definition read_prime_tail_norm (pt_json : json) : string :=
  coalesce pt_json prime_tail_norm_paths "0".

Definition gamma_env_T0_paths : list (list string) :=
  [ ["gamma_tails"; "gamma_env_at_T0"];
    ["gamma_tail"; "env_at_T0"];
    ["gamma_env_at_T0"];
    ["tails_total"];
    ["numbers"; "gamma_env_at_T0"] ].

Definition read_gamma_env_T0 (ga_json : json) : string :=
  coalesce ga_json gamma_env_T0_paths "0".

Definition grid_error_norm_paths : list (list string) :=
  [ ["grid_error_bound"; "bound_hi"];
    ["grid_error_norm"];
    ["numbers"; "grid_error_norm"];
    ["hi"];
    ["lo"] ].

(** The argument is [None] when [grid_error_bound.json] does not exist. *)
Definition read_grid_error_norm (grid_json : option json) : string :=
  match grid_json with
  | Some (JDict d) => coalesce (JDict d) grid_error_norm_paths "0"
  | _ => "0"
  end.

Definition psd_paths : list (list string) :=
  [ ["PSD_verified"]; ["bochner_psd"; "PSD_verified"]; ["weil_psd"; "PSD_verified"] ].

(** The loop of [read_psd_pass] over the alias tuple. *)
Fixpoint psd_scan (weil_json : json) (paths : list (list string)) : bool :=
  match paths with
  | [] => true
  | p :: ps =>
      match dig weil_json p with
      | Some (JBool v) => v
      | Some (JStr v) =>
          if (String.eqb (lower v) "true" || String.eqb (lower v) "false")%bool
          then String.eqb (lower v) "true"
          else psd_scan weil_json ps
      | _ => psd_scan weil_json ps
      end
  end.

Definition read_psd_pass (weil_json : option json) : bool :=
  match weil_json with
  | Some (JDict d) => psd_scan (JDict d) psd_paths
  | _ => true
  end.

(** The files of [--certs-dir]; [None] is a file that does not exist. *)
Record certs_dir : Type := CertsDir {
  band_cert_json : option json;
  prime_block_norm_json : option json;
  prime_tail_envelope_json : option json;
  gamma_tail_json : option json;
  grid_error_bound_json : option json;
  continuum_operator_cert_json : option json;
  weil_explicit_cert_json : option json;
  weil_psd_bochner_json : option json
}.

(** The [uniform_certificate] block of the payload together with the
    top-level [PASS]. *)
Record uniform_certificate : Type := UniformCertificate {
  band_margin : Q;
  gamma_env_at_T0 : Q;
  epsilon_eff : Q;
  prime_block_cap : Q;
  prime_tail_norm : Q;
  grid_error_norm : Q;
  lhs_total : Q;
  PSD_verified : bool;
  PASS : bool
}.

Definition main (dir : certs_dir) : outcome uniform_certificate :=
  bind (must (band_cert_json dir) "band_cert.json") (fun band =>
  bind (must (prime_block_norm_json dir) "prime_block_norm.json") (fun pblk =>
  bind (must (prime_tail_envelope_json dir) "prime_tail_envelope.json") (fun pt =>
  bind (must (gamma_tail_json dir) "gamma_tail.json") (fun ga =>
  let grid := grid_error_bound_json dir in
  let psd := weil_psd_bochner_json dir in
  bind (mp_str (read_band_margin band)) (fun band_margin =>
  bind (mp_str (read_prime_block_cap pblk)) (fun prime_block_cap =>
  bind (mp_str (read_prime_tail_norm pt)) (fun prime_tail_norm =>
  bind (mp_str (read_gamma_env_T0 ga)) (fun gamma_env_T0 =>
  bind (mp_str (read_grid_error_norm grid)) (fun grid_error_norm =>
  let lhs_total_val := (prime_block_cap + prime_tail_norm + grid_error_norm)%Q in
  let epsilon_eff_val := (band_margin - gamma_env_T0)%Q in
  let psd_ok := read_psd_pass psd in
  let PASS := (psd_ok && Qle_bool lhs_total_val epsilon_eff_val)%bool in
  Ok {| band_margin := band_margin;
        gamma_env_at_T0 := gamma_env_T0;
        epsilon_eff := epsilon_eff_val;
        prime_block_cap := prime_block_cap;
        prime_tail_norm := prime_tail_norm;
        grid_error_norm := grid_error_norm;
        lhs_total := lhs_total_val;
        PSD_verified := psd_ok;
        PASS := PASS |}))))))))).

End UniformRollupCert.

(** ** tools/rollup_uniform.py *)

Module RollupUniform.
Import Py.

(** [js[a][b]] inside [try ... except Exception]: any failure of either
    subscript is re-raised as [KeyError msg]. *)
Definition subscript2 (js : json) (a b : string) (msg : string) : outcome json :=
  match js with
  | JDict d =>
      match dict_get a d with
      | Some (JDict d') =>
          match dict_get b d' with
          | Some val => Ok val
          | None => Exit1 msg
          end
      | _ => Exit1 msg
      end
  | _ => Exit1 msg
  end.

Definition mpf_of_str (val : json) : outcome Q :=
  match Mpf.of_string (str val) with
  | Some q => Ok q
  | None => Exit1 "could not convert string to mpf"
  end.

Definition read_gamma_env_T0 (js : json) : outcome Q :=
  bind (subscript2 js "gamma_tail" "env_at_T0"
          "gamma_envelope JSON must contain gamma_tail.env_at_T0") mpf_of_str.

Definition read_prime_env_T0 (js : json) : outcome Q :=
  bind (subscript2 js "prime_tail" "env_T0_hi"
          "prime_envelope JSON must contain prime_tail.env_T0_hi") mpf_of_str.

Definition read_epsilon_eff_lo (js : json) : outcome Q :=
  bind (subscript2 js "explicit_formula" "epsilon_eff_lo"
          "explicit_formula JSON must contain explicit_formula.epsilon_eff_lo")
       mpf_of_str.

Record rollup : Type := Rollup {
  E_T0_lo : Q;
  B_T0_hi : Q;
  PASS : bool
}.

Definition main (gamma_js prime_js expl_js : json) : outcome rollup :=
  bind (read_gamma_env_T0 gamma_js) (fun G =>
  bind (read_prime_env_T0 prime_js) (fun P =>
  bind (read_epsilon_eff_lo expl_js) (fun E =>
  let B_hi := (G + P)%Q in
  let E_lo := E in
  Ok {| E_T0_lo := E_lo; B_T0_hi := B_hi;
        PASS := negb (Qle_bool E_lo B_hi) |}))).

End RollupUniform.

(** ** tools/rolling_T_uniform_cert_v3.py *)

Module RollingT.
Import Py Mpf.

(** [d < g] for a finite [d]. *)
Definition lt_ext (d : Q) (g : ext) : bool :=
  match g with
  | Inf => true
  | Fin q => negb (Qle_bool q d)
  end.

(** [write_json]: the payload as it is written, with the digest of its
    compact sorted serialization, taken without [meta.sha256], stored in
    [meta.sha256].  The file holds this value, printed with [indent=2]
    and sorted keys. *)
Definition write_json (payload : list (string * json)) : list (string * json) :=
  let payload := ensure_meta payload in
  let tmp_obj := pop_meta "sha256" payload in
  let blob := Json.dumps Json.compact_sorted (JDict tmp_obj) in
  let digest := Sha256.hexdigest blob in
  set_meta "sha256" (JStr digest) payload.

(** One entry of the work list: [(a, b, depth)]. *)
Abbreviation interval := (Q * Q * Z)%type.

Record cert_result : Type := CertResult {
  PASS : bool;
  global_min : ext;
  witness : option (Q * Q);
  intervals : Z;
  max_depth : Z;
  argmin_T : Q
}.

(** Local variables of the [while] loop.  [work] is the Python list read
    from its end: its head is [work[-1]], [pop()] takes the head and
    [append] conses. *)
Record loop_state : Type := LoopState {
  work : list interval;
  total : Z;
  depth_max : Z;
  gmin : ext;
  argmin : option Q
}.

(** [x / y] on [mpf]: [ZeroDivisionError] when [y] is zero. *)
Definition mpf_div (x y : Q) : option Q :=
  if Qeq_bool y 0 then None else Some (x / y)%Q.

(** [argmin_T or a]: [None] and a zero [mpf] are both falsy. *)
Definition or_else (t : option Q) (a : Q) : Q :=
  match t with
  | Some v => if Qeq_bool v 0 then a else v
  | None => a
  end.

Section Calculus.

(** [x ** a] for an exponent that is not an integer (mpmath goes through
    [exp] and [log]); [None] when no real [mpf] comes back. *)
Variable real_pow : Q -> Q -> option Q.

(** [x ** a]: an integer exponent is exact repeated multiplication, and a
    negative power of zero is a [ZeroDivisionError]. *)
Definition mpf_pow (x a : Q) : option Q :=
  let a' := Qred a in
  if Pos.eqb (Qden a') 1 then
    let n := Qnum a' in
    if ((n <? 0)%Z && Qeq_bool x 0)%bool then None else Some (Qpower x n)
  else real_pow x a.

Definition compute_delta_lo (T_lo eps_eff_lo grid_hi Cp ap Cg ag : Q) : option Q :=
  match mpf_pow T_lo ap with
  | None => None
  | Some pw =>
      match mpf_div Cp pw with
      | None => None
      | Some pt_hi =>
          match mpf_pow T_lo ag with
          | None => None
          | Some pw' =>
              match mpf_div Cg pw' with
              | None => None
              | Some gt_hi => Some (eps_eff_lo - pt_hi - gt_hi - grid_hi)%Q
              end
          end
      end
  end.

Section AdaptiveCert.

Variables (T0 T1 eps_eff_lo grid_hi Cp ap Cg ag delta_target : Q).
Variables (mesh_initial mesh_max : Z).

(** [xs[i]] of the seed mesh. *)
Definition xs_at (i : Z) : Q :=
  (T0 + (T1 - T0) * (inject_Z i / inject_Z mesh_initial))%Q.

(** The seed work list, in Python order: [(xs[i], xs[i+1], 0)]. *)
Definition seed : list interval :=
  map (fun i => (xs_at (Z.of_nat i), xs_at (Z.of_nat i + 1), 0%Z))
      (seq 0 (Z.to_nat mesh_initial)).

(** The code after the [while] loop. *)
Definition after_loop (st : loop_state) : cert_result :=
  match work st with
  | [] =>
      {| PASS := true; global_min := gmin st; witness := None;
         intervals := total st; max_depth := depth_max st;
         argmin_T := or_else (argmin st) T0 |}
  | (a, b, _) :: _ =>
      {| PASS := false; global_min := gmin st; witness := Some (a, b);
         intervals := total st; max_depth := depth_max st;
         argmin_T := or_else (argmin st) a |}
  end.

(** The [while work and total < mesh_max] loop; [None] is an exception
    raised by [compute_delta_lo].  Every pass through the body raises
    [total], so [mesh_max - total] passes always suffice. *)
Fixpoint while_loop (fuel : nat) (st : loop_state) : option cert_result :=
  match fuel with
  | O => Some (after_loop st)
  | S fuel' =>
      match work st with
      | [] => Some (after_loop st)
      | (a, b, depth) :: rest =>
          if (total st <? mesh_max)%Z then
            match compute_delta_lo a eps_eff_lo grid_hi Cp ap Cg ag with
            | None => None
            | Some d_lo =>
                let upd := lt_ext d_lo (gmin st) in
                let global_min' := if upd then Fin d_lo else gmin st in
                let argmin' := if upd then Some a else argmin st in
                let total' := (total st + 1)%Z in
                let max_depth' := Z.max (depth_max st) depth in
                if Qle_bool delta_target d_lo then
                  while_loop fuel'
                    {| work := rest; total := total'; depth_max := max_depth';
                       gmin := global_min'; argmin := argmin' |}
                else if (mesh_max <=? total')%Z then
                  Some {| PASS := false; global_min := global_min';
                          witness := Some (a, b); intervals := total';
                          max_depth := max_depth';
                          argmin_T := or_else argmin' a |}
                else
                  let mid := ((a + b) / 2)%Q in
                  while_loop fuel'
                    {| work := (a, mid, (depth + 1)%Z) :: (mid, b, (depth + 1)%Z) :: rest;
                       total := total'; depth_max := max_depth';
                       gmin := global_min'; argmin := argmin' |}
            end
          else Some (after_loop st)
      end
  end.

Definition initial_state : loop_state :=
  {| work := rev seed; total := 0; depth_max := 0; gmin := Inf; argmin := None |}.

(** [adaptive_cert]; [None] is an exception: [ZeroDivisionError] from
    [i / mp.mpf(0)] when [mesh_initial = 0], or from [compute_delta_lo]. *)
Definition adaptive_cert : option cert_result :=
  if (mesh_initial =? 0)%Z then None
  else while_loop (Z.to_nat mesh_max) initial_state.

End AdaptiveCert.

(** *** [main] *)

Definition is_space (c : ascii) : bool :=
  let n := nat_of_ascii c in
  ((n =? 32) || ((9 <=? n) && (n <=? 13)))%nat.

Fixpoint lstrip (s : string) : string :=
  match s with
  | String c s' => if is_space c then lstrip s' else s
  | EmptyString => s
  end.

Fixpoint rstrip (s : string) : string :=
  match s with
  | EmptyString => EmptyString
  | String c s' =>
      match rstrip s' with
      | EmptyString => if is_space c then EmptyString else String c EmptyString
      | r => String c r
      end
  end.

Definition strip (s : string) : string := rstrip (lstrip s).

Fixpoint last_char (s : string) : option ascii :=
  match s with
  | EmptyString => None
  | String c EmptyString => Some c
  | String _ s' => last_char s'
  end.

Fixpoint has_comma (s : string) : bool :=
  match s with
  | EmptyString => false
  | String c s' => (Ascii.eqb c "," || has_comma s')%bool
  end.

Definition _looks_interval_str (s : string) : bool :=
  let s := strip s in
  ((5 <=? String.length s)%nat &&
   match s with String c _ => Ascii.eqb c "[" | EmptyString => false end &&
   match last_char s with Some c => Ascii.eqb c "]" | None => false end &&
   has_comma s)%bool.

(** [s.split(",", 1)] for a string that contains a comma. *)
Fixpoint split_comma (s : string) : string * string :=
  match s with
  | EmptyString => (EmptyString, EmptyString)
  | String c s' =>
      if Ascii.eqb c "," then (EmptyString, s')
      else let '(l, r) := split_comma s' in (String c l, r)
  end.

Definition mpf_of (s : string) : outcome Q :=
  match Mpf.of_string s with
  | Some q => Ok q
  | None => Exit1 "could not convert string to mpf"
  end.

Definition _parse_interval_str (s : string) : outcome (Q * Q) :=
  let s := strip s in
  let inner := String.substring 1 (String.length s - 2) s in
  let '(lo, hi) := split_comma inner in
  bind (mpf_of (strip lo)) (fun l =>
  bind (mpf_of (strip hi)) (fun h => Ok (l, h))).

Definition as_mpf_lo (x : json) : outcome Q :=
  match x with
  | JStr s =>
      if _looks_interval_str s
      then bind (_parse_interval_str s) (fun p => Ok (fst p))
      else mpf_of s
  | JDict d =>
      match dict_get "lo" d, dict_get "hi" d with
      | Some lo, Some _ => mpf_of (str lo)
      | _, _ => mpf_of (str x)
      end
  | _ => mpf_of (str x)
  end.

Definition as_mpf_hi (x : json) : outcome Q :=
  match x with
  | JStr s =>
      if _looks_interval_str s
      then bind (_parse_interval_str s) (fun p => Ok (snd p))
      else mpf_of s
  | JDict d =>
      match dict_get "lo" d, dict_get "hi" d with
      | Some _, Some hi => mpf_of (str hi)
      | _, _ => mpf_of (str x)
      end
  | _ => mpf_of (str x)
  end.

(** [b[k]] inside the [try] of [main]. *)
Definition subscript (b : json) (k : string) : outcome json :=
  match b with
  | JDict d =>
      match dict_get k d with
      | Some v => Ok v
      | None => Exit1 "ERROR parsing analytic_bounds.json"
      end
  | _ => Exit1 "ERROR parsing analytic_bounds.json"
  end.

(** One turn of the clamp loop: [tail.get("T0", None)], and an exception
    in [as_mpf_lo] is swallowed. *)
Definition clamp (T0 : Q) (tail : json) : Q :=
  match tail with
  | JDict d =>
      match dict_get "T0" d with
      | None | Some JNull => T0
      | Some t0_req =>
          match as_mpf_lo t0_req with
          | Ok t => if negb (Qle_bool t T0) then t else T0
          | Exit1 _ => T0
          end
      end
  | _ => T0
  end.

(** The command line. *)
Record args : Type := Args {
  arg_T0 : string;
  arg_T1 : string;
  arg_delta_target : string;
  arg_mesh_initial : Z;
  arg_mesh_max : Z
}.

(** The [witness] entry of the payload: the pair that [adaptive_cert]
    returned, or the window that [main] builds around [argmin_T]. *)
Inductive witness_block : Type :=
| Unresolved (T_left T_right : Q)
| ArgminDegenerate (T_left T_right T_star delta_at_T_star : Q).

Record payload : Type := Payload {
  inputs_T0 : Q;
  inputs_T1 : Q;
  inputs_delta_target : Q;
  inputs_mesh_initial : Z;
  inputs_mesh_max : Z;
  mesh_intervals : Z;
  mesh_max_depth : Z;
  result_PASS : bool;
  result_delta_min : ext;
  result_witness : witness_block
}.

Definition of_option {A} (o : option A) (msg : string) : outcome A :=
  match o with
  | Some a => Ok a
  | None => Exit1 msg
  end.

Definition pad_of (argmin_T : Q) : Q :=
  Qmax (Qabs argmin_T * (1 # 1000000000000)) 1.

(** [b = ab.get("bounds", ab)]: the nested or the flat layout. *)
Definition bounds_block (ab : json) : outcome json :=
  match ab with
  | JDict d => Ok (match dict_get "bounds" d with Some b => b | None => ab end)
  | _ => Exit1 "object has no attribute get"
  end.

(** [main]; [ab] is the content of [analytic_bounds.json], [None] when the
    file does not exist. *)
Definition main (a : args) (ab : option json) : outcome payload :=
  bind (mpf_of (arg_T0 a)) (fun T0 =>
  bind (mpf_of (arg_T1 a)) (fun T1 =>
  if negb (negb (Qle_bool T1 T0)) then Exit1 "ERROR: T0 must be < T1" else
  bind (mpf_of (arg_delta_target a)) (fun delta_target =>
  bind (of_option ab "ERROR: missing analytic_bounds.json") (fun ab =>
  bind (bounds_block ab) (fun b =>
  bind (bind (subscript b "eps_eff_lo") as_mpf_lo) (fun eps_eff_lo =>
  bind (bind (subscript b "grid_error_hi") as_mpf_hi) (fun grid_hi =>
  bind (subscript b "prime_tail") (fun pt =>
  bind (subscript b "gamma_tail") (fun gt =>
  bind (bind (subscript pt "C") as_mpf_hi) (fun Cp =>
  bind (bind (subscript pt "a") as_mpf_lo) (fun apow =>
  bind (bind (subscript gt "C") as_mpf_hi) (fun Cg =>
  bind (bind (subscript gt "a") as_mpf_lo) (fun agow =>
  let T0 := clamp (clamp T0 pt) gt in
  bind (of_option
          (adaptive_cert T0 T1 eps_eff_lo grid_hi Cp apow Cg agow delta_target
                         (arg_mesh_initial a) (arg_mesh_max a))
          "ZeroDivisionError") (fun r =>
  bind (match witness r with
        | Some (l, rr) => Ok (Unresolved l rr)
        | None =>
            let pad := pad_of (argmin_T r) in
            bind (of_option
                    (compute_delta_lo (argmin_T r) eps_eff_lo grid_hi Cp apow Cg agow)
                    "ZeroDivisionError") (fun delta_at_T_star =>
            Ok (ArgminDegenerate (argmin_T r - pad) (argmin_T r + pad)
                                 (argmin_T r) delta_at_T_star))
        end) (fun w =>
  Ok {| inputs_T0 := T0; inputs_T1 := T1; inputs_delta_target := delta_target;
        inputs_mesh_initial := arg_mesh_initial a;
        inputs_mesh_max := arg_mesh_max a;
        mesh_intervals := intervals r; mesh_max_depth := max_depth r;
        result_PASS := PASS r; result_delta_min := global_min r;
        result_witness := w |}))))))))))))))).

End Calculus.

End RollingT.

(** ** tools/subspace_psd_cholesky.py *)

Module PsdCholesky.
Import Mpf.

(** [l[i]] (read) and [l[i] = x] (write) on a Python list whose index is
    in range; out of range the read gives the default and the write
    changes nothing, where Python raises [IndexError]. *)
Definition vget (v : list Q) (i : nat) : Q := nth i v 0%Q.

Fixpoint upd {A : Type} (l : list A) (i : nat) (x : A) : list A :=
  match l, i with
  | [], _ => []
  | _ :: t, O => x :: t
  | h :: t, S j => h :: upd t j x
  end.

(** [M[i, j]] on an [mp.matrix], [M[i][j]] on a list of lists. *)
Definition mget (M : list (list Q)) (i j : nat) : Q := vget (nth i M []) j.

Definition mset (M : list (list Q)) (i j : nat) (x : Q) : list (list Q) :=
  upd M i (upd (nth i M []) j x).

(** [l[i], l[j] = l[j], l[i]]. *)
Definition swap {A : Type} (d : A) (l : list A) (i j : nat) : list A :=
  upd (upd l i (nth j l d)) j (nth i l d).

(** [max(range(k, n), key=lambda i: diag[i])]: the first index with the
    largest key. *)
Fixpoint argmax_scan (diag : list Q) (best : nat) (rest : list nat) : nat :=
  match rest with
  | [] => best
  | i :: rest' =>
      if Qlt_bool (vget diag best) (vget diag i)
      then argmax_scan diag i rest'
      else argmax_scan diag best rest'
  end.

Definition argmax (diag : list Q) (k n : nat) : nat :=
  argmax_scan diag k (seq (S k) (n - S k)).

(** Local variables of [pivoted_cholesky_psd]. *)
Record state : Type := State {
  H : list (list Q);
  diag : list Q;
  piv_order : list nat;
  L : list (list Q);
  min_pivot : ext;
  rank : Z
}.

(** One pass of [for k in range(n)] either goes on or leaves the
    function with its result [(success, min_pivot, rank)]. *)
Inductive step_out : Type :=
| Next (st : state)
| Done (res : bool * Q * Z).

Section Factor.

(** [mp.sqrt] on the pivots, which are above [tol]. *)
Variable mp_sqrt : Q -> Q.
Variable n : nat.
Variable tol : Q.

(** The [return] after the loop, also reached by [break]. *)
Definition finish (st : state) : bool * Q * Z :=
  (true, match min_pivot st with Fin q => q | Inf => 0%Q end, rank st).

(** The block under [if p != k]. *)
Definition exchange (k p : nat) (st : state) : state :=
  let diag1 := swap 0%Q (diag st) p k in
  let piv1 := swap O (piv_order st) p k in
  let H1 :=
    fold_left (fun M t =>
                 let hk := mget M k t in
                 let hp := mget M p t in
                 mset (mset M k t hp) p t hk)
              (seq 0 n) (H st) in
  let H2 :=
    fold_left (fun M t =>
                 let hk := mget M t k in
                 let hp := mget M t p in
                 mset (mset M t k hp) t p hk)
              (seq 0 n) H1 in
  let L1 := swap [] (L st) k p in
  {| H := H2; diag := diag1; piv_order := piv1; L := L1;
     min_pivot := min_pivot st; rank := rank st |}.

(** [min(min_pivot, pivot)]. *)
Definition min_ext (m : ext) (pivot : Q) : ext :=
  match m with
  | Inf => Fin pivot
  | Fin q => if Qlt_bool pivot q then Fin pivot else Fin q
  end.

(** The body of [for j in range(k + 1, i + 1)]. *)
Definition update_row (k i : nat) (lij : Q) (L0 : list (list Q))
           (M : list (list Q)) : list (list Q) :=
  fold_left (fun M j =>
               let hij := (mget M i j - lij * mget L0 j k)%Q in
               mset (mset M i j hij) j i hij)
            (seq (S k) (i - k)) M.

(** The body of [for i in range(k + 1, n)] on [(H, diag, L)]. *)
Definition eliminate_row (k : nat)
           (acc : list (list Q) * list Q * list (list Q)) (i : nat)
  : list (list Q) * list Q * list (list Q) :=
  let '(M, dg, L0) := acc in
  let lkk := mget L0 k k in
  let lij := if Qeq_bool lkk 0 then 0%Q else (mget M i k / lkk)%Q in
  let L1 := mset L0 i k lij in
  let dg1 := upd dg i (vget dg i - lij * lij)%Q in
  (update_row k i lij L1 M, dg1, L1).

Definition step (k : nat) (st : state) : step_out :=
  let p := argmax (diag st) k n in
  if Qlt_bool (vget (diag st) p) (- tol) then
    Done (false, vget (diag st) p, rank st)
  else if Qle_bool (vget (diag st) p) tol then
    Done (finish st)
  else
    let st1 := if Nat.eqb p k then st else exchange k p st in
    let pivot := mp_sqrt (vget (diag st1) k) in
    let L1 := mset (L st1) k k pivot in
    let '(H2, diag2, L2) :=
      if (k <? n - 1)%nat
      then fold_left (eliminate_row k) (seq (S k) (n - S k)) (H st1, diag st1, L1)
      else (H st1, diag st1, L1) in
    Next {| H := H2; diag := diag2; piv_order := piv_order st1; L := L2;
            min_pivot := min_ext (min_pivot st1) pivot;
            rank := (rank st1 + 1)%Z |}.

Fixpoint run (ks : list nat) (st : state) : bool * Q * Z :=
  match ks with
  | [] => finish st
  | k :: ks' =>
      match step k st with
      | Next st' => run ks' st'
      | Done res => res
      end
  end.

End Factor.

Definition initial (M : list (list Q)) : state :=
  let n := List.length M in
  {| H := M;
     diag := map (fun i => mget M i i) (seq 0 n);
     piv_order := seq 0 n;
     L := repeat (repeat 0%Q n) n;
     min_pivot := Inf;
     rank := 0 |}.

(** [pivoted_cholesky_psd(H, tol)], with [n = H.rows]. *)
Definition pivoted_cholesky_psd (mp_sqrt : Q -> Q) (M : list (list Q)) (tol : Q)
  : bool * Q * Z :=
  run mp_sqrt (List.length M) tol (seq 0 (List.length M)) (initial M).

(** [adaptive_tol_from_dps(dps, k)]: [10 ** (-(dps - k))]. *)
Definition adaptive_tol_from_dps (dps k : Z) : Q := Mpf.pow10 (- (dps - k)).

(** The Cholesky fallback of [main].  [chol] is what [try_plain_cholesky]
    returned: [Some min_diag] for success.  The result is
    [(pivot_ok, min_pivot, rank, cert_ok)]. *)
Definition fallback (mp_sqrt : Q -> Q) (chol : option Q) (M : list (list Q)) (dps : Z)
  : bool * Q * Z * bool :=
  match chol with
  | Some _ => (false, 0%Q, 0%Z, true)
  | None =>
      let tol := adaptive_tol_from_dps dps 6 in
      let '(pivot_ok, min_pivot, rank) := pivoted_cholesky_psd mp_sqrt M tol in
      (pivot_ok, min_pivot, rank, pivot_ok)
  end.

End PsdCholesky.

(** ** tools/subspace_psd_cholesky.py: the Gram entries *)

Module BochnerGram.
Import Py.
Local Open Scope R_scope.

Record Atom : Type := MkAtom { sigma : R; k0 : R }.

(** The loop [for k in range(1, mgrid - 1)] of [kahan_stream_trap] on
    the running sum [s] and the compensation [c]. *)
Fixpoint kahan_loop (fn : R -> outcome R) (a h : R) (ks : list nat) (s c : R)
  : outcome (R * R) :=
  match ks with
  | [] => Ok (s, c)
  | k :: ks' =>
      let x := a + h * INR k in
      bind (fn x) (fun v =>
      let y := v - c in
      let t := s + y in
      let c' := (t - s) - y in
      kahan_loop fn a h ks' t c')
  end.

Definition kahan_stream_trap (fn : R -> outcome R) (a b : R) (mgrid : Z)
  : outcome R :=
  if (mgrid <? 2)%Z then Exit1 "mgrid must be >= 2"
  else
    let h := (b - a) / IZR (mgrid - 1) in
    bind (fn a) (fun f0 =>
    bind (kahan_loop fn a h (seq 1 (Z.to_nat (mgrid - 2))) 0 0) (fun sc =>
    bind (fn b) (fun fN =>
    Ok (h * (fst sc + (f0 + fN) * (1 / 2)))))).

(** [h_gauss_notch]; the division by [sigma ** 2] raises
    [ZeroDivisionError] when [sigma] is zero. *)
Definition h_gauss_notch (x sigma k0 : R) : outcome R :=
  if Req_dec_T (sigma ^ 2) 0 then Exit1 "ZeroDivisionError"
  else
    let g := exp (- (x ^ 2) / (sigma ^ 2)) in
    let notch := 1 - exp (- (x - k0) ^ 2) in
    Ok (g * notch).

Definition bochner_gram_entry_real (atom_i atom_j : Atom) (A : R) (mgrid : Z)
  : outcome R :=
  let f := fun x =>
    bind (h_gauss_notch x (sigma atom_i) (k0 atom_i)) (fun u =>
    bind (h_gauss_notch x (sigma atom_j) (k0 atom_j)) (fun v =>
    Ok (u * v))) in
  kahan_stream_trap f (- A) A mgrid.

(** The inner loop [for k in k0s] of [make_atoms_gaussian] for one
    [s]: [inl] is the [return atoms] inside the loop, [inr] the list
    when the loop ends. *)
Fixpoint inner_loop (n_atoms : Z) (s : R) (k0s : list R) (atoms : list Atom)
  : list Atom + list Atom :=
  match k0s with
  | [] => inr atoms
  | k :: rest =>
      let atoms' := (atoms ++ [MkAtom s k])%list in
      if (Z.of_nat (List.length atoms') =? n_atoms)%Z then inl atoms'
      else inner_loop n_atoms s rest atoms'
  end.

(** The outer loop [for s in sigmas] and the final [atoms[:n_atoms]]. *)
Fixpoint outer_loop (n_atoms : Z) (sigmas k0s : list R) (atoms : list Atom)
  : list Atom :=
  match sigmas with
  | [] => firstn (Z.to_nat n_atoms) atoms
  | s :: rest =>
      match inner_loop n_atoms s k0s atoms with
      | inl result => result
      | inr atoms' => outer_loop n_atoms rest k0s atoms'
      end
  end.

(** [lo + (hi - lo) * i / max(m - 1, 1)] for [i] in [range(m)]. *)
Definition grid (m : Z) (lo hi : R) : list R :=
  map (fun i => lo + (hi - lo) * IZR (Z.of_nat i) / IZR (Z.max (m - 1) 1))
      (seq 0 (Z.to_nat m)).

(** [make_atoms_gaussian]; [int(mp.floor(mp.sqrt(n_atoms)))] is the
    integer square root, and a negative [n_atoms] has no real one. *)
Definition make_atoms_gaussian (n_atoms : Z) (sigma_min sigma_max k0_min k0_max : R)
  : outcome (list Atom) :=
  if (n_atoms <? 0)%Z then Exit1 "TypeError"
  else
    let m := Z.sqrt n_atoms in
    let m := if (m * m <? n_atoms)%Z then (m + 1)%Z else m in
    Ok (outer_loop n_atoms (grid m sigma_min sigma_max) (grid m k0_min k0_max) []).

End BochnerGram.
(** ** tools/band_cert.py *)

Module BandCert.
Import Py.

(** [write_json]: the digest is taken over the [indent=2] sorted
    serialization of the object as it stands, and stored in
    [meta.sha256]. *)
Definition write_json (obj : list (string * json)) : list (string * json) :=
  let obj := ensure_meta obj in
  let js := Json.dumps Json.indent2_sorted (JDict obj) in
  let sha := Sha256.hexdigest js in
  set_meta "sha256" (JStr sha) obj.

Local Open Scope R_scope.

(** An [iv.mpf] interval [[a, b]] by its two endpoints. *)
Definition ivl : Type := (R * R)%type.

Definition iv_mpf (a b : R) : ivl := (a, b).

(** [I / s] for a number [s > 0]; [make_window] stops on any other
    [sigma] or [k0]. *)
Definition iv_div (I : ivl) (s : R) : ivl := (fst I / s, snd I / s).

(** [I ** 2]: an even power keeps the result non-negative. *)
Definition iv_sqr (I : ivl) : ivl :=
  let (a, b) := I in
  if Rle_dec 0 a then (a * a, b * b)
  else if Rle_dec b 0 then (b * b, a * a)
  else (0, Rmax (a * a) (b * b)).

Definition iv_neg (I : ivl) : ivl := (- snd I, - fst I).

Definition iv_exp (I : ivl) : ivl := (exp (fst I), exp (snd I)).

(** [c - I] for a number [c]. *)
Definition iv_rsub (c : R) (I : ivl) : ivl := (c - snd I, c - fst I).

Definition iv_mul (I J : ivl) : ivl :=
  let (a, b) := I in
  let (c, d) := J in
  (Rmin (Rmin (a * c) (a * d)) (Rmin (b * c) (b * d)),
   Rmax (Rmax (a * c) (a * d)) (Rmax (b * c) (b * d))).

(** [if x < 0: x = 0]. *)
Definition clip (x : R) : R := if Rlt_dec x 0 then 0 else x.

(** The closure [W_abs_iv_on] that [make_window] returns for a window
    with parameters [sigma > 0] and [k0 > 0]. *)
Definition W_abs_iv_on (sigma k0 : R) (a b : R) : R * R :=
  let I := iv_mpf a b in
  let g := iv_exp (iv_neg (iv_sqr (iv_div I sigma))) in
  let n := iv_rsub 1 (iv_exp (iv_neg (iv_sqr (iv_div I k0)))) in
  let w := iv_mul g n in
  (clip (fst w), clip (snd w)).

(** The two pieces [band_min_bounds] pushes for [[a, b]]:
    [push(a, mid)] and [push(mid, b)] with [mid = (a + b) / 2]. *)
Definition split_lo (sigma k0 a b : R) : R :=
  let mid := (a + b) / 2 in
  Rmin (fst (W_abs_iv_on sigma k0 a mid)) (fst (W_abs_iv_on sigma k0 mid b)).

(** *** [band_min_bounds] *)

(** [mp.inf] or a finite value, for the running [best_lo] and [best_hi]. *)
Inductive rext : Type :=
| RFin (x : R)
| RInf.

(** [x < best] for a finite [x]. *)
Definition below (x : R) (best : rext) : bool :=
  match best with
  | RInf => true
  | RFin y => if Rlt_dec x y then true else false
  end.

(** [best_hi - best_lo <= tol]; both are finite once an entry was popped. *)
Definition close_enough (best_hi best_lo : rext) (tol : R) : bool :=
  match best_hi, best_lo with
  | RFin h, RFin l => if Rle_dec (h - l) tol then true else false
  | _, _ => false
  end.

(** A queue entry [(float(lo), a, b, lo, hi)] without its first
    component, which is recomputed from [lo] when entries are compared. *)
Definition entry : Type := (R * R * R * R)%type.

Section Search.

(** The oracle passed to [band_min_bounds]. *)
Variable oracle : R -> R -> R * R.

(** [float(lo)], the leading sort key of a queue entry. *)
Variable to_float : R -> R.

Variable tol : R.
Variable max_parts : Z.

(** Tuple comparison [x < y] on [(float(lo), a, b, lo, hi)]. *)
Definition entry_lt (x y : entry) : bool :=
  let '(a, b, lo, hi) := x in
  let '(a', b', lo', hi') := y in
  let k := [to_float lo; a; b; lo; hi] in
  let k' := [to_float lo'; a'; b'; lo'; hi'] in
  (fix lex (u v : list R) : bool :=
     match u, v with
     | p :: u', q :: v' =>
         if Rlt_dec p q then true
         else if Rlt_dec q p then false
         else lex u' v'
     | _, _ => false
     end) k k'.

(** [heappop]: the least entry and the entries that stay. *)
Fixpoint heappop (pq : list entry) : option (entry * list entry) :=
  match pq with
  | [] => None
  | x :: rest =>
      match heappop rest with
      | None => Some (x, [])
      | Some (m, rest') =>
          if entry_lt m x then Some (m, x :: rest') else Some (x, rest)
      end
  end.

(** [push(a, b)] *)
Definition push (a b : R) (pq : list entry) : list entry :=
  let (lo, hi) := oracle a b in (a, b, lo, hi) :: pq.

Record search_state : Type := SearchState {
  pq : list entry;
  best_lo : rext;
  best_hi : rext;
  parts : Z
}.

(** The [while pq and parts <= max_parts] loop.  A pass either splits,
    which raises [parts], or only removes an entry, so the passes are
    bounded by [3 * (max_parts + 1 - parts) + len(pq)]. *)
Fixpoint search (fuel : nat) (st : search_state) : rext * rext :=
  match fuel with
  | O => (best_lo st, best_hi st)
  | S fuel' =>
      if (parts st <=? max_parts)%Z then
        match heappop (pq st) with
        | None => (best_lo st, best_hi st)
        | Some ((a, b, lo, hi), rest) =>
            let best_lo' := if below lo (best_lo st) then RFin lo else best_lo st in
            let best_hi' := if below hi (best_hi st) then RFin hi else best_hi st in
            let split := if Rle_dec (hi - lo) tol then false else true in
            let mid := (a + b) / 2 in
            let pq' := if split then push mid b (push a mid rest) else rest in
            let parts' := if split then (parts st + 1)%Z else parts st in
            if close_enough best_hi' best_lo' tol then (best_lo', best_hi')
            else search fuel' {| pq := pq'; best_lo := best_lo';
                                 best_hi := best_hi'; parts := parts' |}
        end
      else (best_lo st, best_hi st)
  end.

Definition band_min_bounds (L R : R) : rext * rext :=
  search (Z.to_nat (3 * max_parts + 1))
         {| pq := push L R []; best_lo := RInf; best_hi := RInf; parts := 1 |}.

(** The band loop of [main]: the running minima over the bands, and
    [PASS_bool = bool(glo_lo > 0)]. *)
Definition ext_lt (x y : rext) : bool :=
  match x, y with
  | RFin u, RFin v => if Rlt_dec u v then true else false
  | RFin _, RInf => true
  | RInf, _ => false
  end.

Definition band_margin (bands : list (R * R)) : rext * rext :=
  fold_left (fun acc band =>
               let '(glo_lo, glo_hi) := acc in
               let '(lo, hi) := band_min_bounds (fst band) (snd band) in
               (if ext_lt lo glo_lo then lo else glo_lo,
                if ext_lt hi glo_hi then hi else glo_hi))
            bands (RInf, RInf).

Definition PASS_bool (bands : list (R * R)) : bool :=
  match fst (band_margin bands) with
  | RInf => true
  | RFin x => if Rlt_dec 0 x then true else false
  end.

End Search.

(** *** [make_window], [parse_bands_generic] and [main] *)

(** [fail(msg)]: [sys.exit] with a message, a nonzero exit status. *)
Definition fail {A : Type} (msg : string) : outcome A := Exit1 msg.

(** [to_mpf(x)]: [mp.mpf(str(x))]. *)
Definition to_mpf (x : json) : outcome Q :=
  match Mpf.of_string (str x) with
  | Some q => Ok q
  | None => Exit1 "could not convert string to mpf"
  end.

(** [make_window] up to the closure it returns: the parameters
    [(sigma, k0)] of the window. *)
Definition make_window (window_js : json) : outcome (Q * Q) :=
  match window_js with
  | JDict d =>
      let src := match dict_get "window" d with
                 | Some (JDict w) => w
                 | _ => d
                 end in
      let mode_ok := match dict_get "mode" src with
                     | None => true
                     | Some (JStr m) => String.eqb m "gauss"
                     | Some _ => false
                     end in
      if negb mode_ok then fail "unsupported window mode"
      else
        match dict_get "sigma" src, dict_get "k0" src with
        | Some s, Some k =>
            match to_mpf s, to_mpf k with
            | Ok sigma, Ok k0 =>
                if Qle_bool sigma 0 then fail "window sigma must be > 0"
                else if Qle_bool k0 0 then fail "window k0 must be > 0"
                else Ok (sigma, k0)
            | _, _ => fail "window-config sigma/k0 not numeric"
            end
        | _, _ => fail "window-config must contain sigma and k0"
        end
  | _ => fail "window-config JSON must be an object"
  end.

(** A band [(L, R, label)]. *)
Definition band : Type := (Q * Q * string)%type.

(** One entry of the band list: membership tests, the two conversions
    and the order check; [label_of] gives the label from the entry. *)
Definition read_band (spec : json) (label_of : list (string * json) -> string)
  : outcome band :=
  match spec with
  | JDict d =>
      match dict_get "left" d, dict_get "right" d with
      | Some l, Some r =>
          bind (to_mpf l) (fun L =>
          bind (to_mpf r) (fun R =>
          if Mpf.Qlt_bool L R then Ok (L, R, label_of d)
          else fail "non-increasing interval"))
      | _, _ => fail "missing left or right"
      end
  | _ => fail "missing left or right"
  end.

(** [coerce_list]: the entries in order, with [band_<i>] as the default
    label. *)
Fixpoint coerce_list (i : nat) (obj : list json) : outcome (list band) :=
  match obj with
  | [] => Ok []
  | b :: rest =>
      bind (read_band b (fun d =>
              match dict_get "label" d with
              | Some v => str v
              | None => "band_" ++ str (JInt (Z.of_nat i))
              end)) (fun x =>
      bind (coerce_list (S i) rest) (fun xs => Ok (x :: xs)))
  end.

(** The loop over [obj.items()] of a named layout. *)
Fixpoint named_bands (items : list (string * json)) : outcome (list band) :=
  match items with
  | [] => Ok []
  | (name, spec) :: rest =>
      bind (read_band spec (fun _ => name)) (fun x =>
      bind (named_bands rest) (fun xs => Ok (x :: xs)))
  end.

Definition parse_bands_generic (bands_js : json) : outcome (list band) :=
  match bands_js with
  | JList l => coerce_list 0 l
  | JDict d =>
      match dict_get "bands" d with
      | Some (JList l) => coerce_list 0 l
      | Some (JDict (item :: items)) => named_bands (item :: items)
      | _ =>
          match dict_get "named_grids" d with
          | Some (JDict (item :: items)) => named_bands (item :: items)
          | _ => fail "bands JSON has no recognizable band list"
          end
      end
  | _ => fail "bands JSON has no recognizable band list"
  end.

(** What [main] computes: the global margin, the number of bands and
    the verdict.  [float] is the conversion used for the queue keys. *)
Record band_certificate : Type := BandCertificate {
  band_margin_lo : rext;
  band_margin_hi : rext;
  bands_count : nat;
  PASS : bool
}.

Definition main (float : R -> R) (window_js bands_js : json)
           (arg_tol : string) (arg_max_parts : Z) : outcome band_certificate :=
  bind (make_window window_js) (fun w =>
  bind (parse_bands_generic bands_js) (fun bands =>
  bind (to_mpf (JStr arg_tol)) (fun tol =>
  let oracle := W_abs_iv_on (Q2R (fst w)) (Q2R (snd w)) in
  let ends := map (fun b : band => (Q2R (fst (fst b)), Q2R (snd (fst b)))) bands in
  let glo := band_margin oracle float (Q2R tol) arg_max_parts ends in
  Ok {| band_margin_lo := fst glo;
        band_margin_hi := snd glo;
        bands_count := List.length bands;
        PASS := PASS_bool oracle float (Q2R tol) arg_max_parts ends |}))).

End BandCert.

(** ** tools/analytic_bounds.py *)

Module AnalyticBounds.
Import Py.

(** [write_json_with_sha]: the bytes written and their digest. *)
Definition write_json_with_sha (payload : list (string * json)) : string * string :=
  let raw := Json.dumps Json.indent2 (JDict payload) in
  (raw, Sha256.hexdigest raw).

(** The end of [main]: the payload, whose [meta.sha256] is the empty
    string, is written once to get the digest, the digest is put into
    [meta.sha256], and the payload is written again.  The result is the
    payload of the second write. *)
Definition stamp (payload : list (string * json)) : list (string * json) :=
  let sha := snd (write_json_with_sha payload) in
  set_meta "sha256" (JStr sha) payload.

End AnalyticBounds.

(** * Properties *)

(** ** Rollup algebra ([uniform_rollup_cert.py], [rollup_uniform.py]) *)

Section RollupFacts.
Import Py UniformRollupCert.

(** A path resolves when [dig] finds a value that [coalesce] accepts. *)
Definition resolves (obj : json) (p : list string) : bool :=
  match dig obj p with
  | Some v => negb (is_blank v)
  | None => false
  end.

(** What [read_psd_pass] recognises under one alias. *)
Definition psd_recognised (obj : json) (p : list string) : bool :=
  match dig obj p with
  | Some (JBool _) => true
  | Some (JStr v) => (String.eqb (lower v) "true" || String.eqb (lower v) "false")%bool
  | _ => false
  end.


Lemma psd_scan_unrecognised obj paths :
  (forall p, In p paths -> psd_recognised obj p = false) ->
  psd_scan obj paths = true.
Proof.
  induction paths as [|p ps IH]; intros H; simpl; [reflexivity|].
  assert (Hp := H p (or_introl eq_refl)). unfold psd_recognised in Hp.
  assert (IH' : psd_scan obj ps = true) by (apply IH; intros q Hq; apply H; now right).
  destruct (dig obj p) as [[| b | z | r | s | l | d]|]; try exact IH'; try discriminate.
  now rewrite Hp.
Qed.

Lemma main_PASS_spec dir c :
  main dir = Ok c ->
  PSD_verified c = read_psd_pass (weil_psd_bochner_json dir) /\
  PASS c = (PSD_verified c && Qle_bool (lhs_total c) (epsilon_eff c))%bool /\
  (lhs_total c == prime_block_cap c + prime_tail_norm c + grid_error_norm c)%Q /\
  (epsilon_eff c == band_margin c - gamma_env_at_T0 c)%Q.
Proof.
  unfold main. intros H.
  repeat match type of H with
         | bind ?m _ = Ok _ => destruct m; simpl in H; [|discriminate]
         end.
  inversion H; subst; simpl. repeat split; reflexivity.
Qed.

(** The certificate directory of the worked example: the four required
    certificates in their canonical v2.1 shape, a grid error bound, and
    an optional PSD certificate. *)
Definition example_dir (grid : string) (psd : option json) : certs_dir :=
  {| band_cert_json :=
       Some (JDict [("numbers", JDict [("band_margin_lo", JStr "0.50")])]);
     prime_block_norm_json :=
       Some (JDict [("prime_block_norm", JDict [("used_operator_norm", JStr "0.30")])]);
     prime_tail_envelope_json :=
       Some (JDict [("prime_tail", JDict [("env_T0_hi", JStr "0.05")])]);
     gamma_tail_json :=
       Some (JDict [("gamma_tail", JDict [("env_at_T0", JStr "0.02")])]);
     grid_error_bound_json :=
       Some (JDict [("grid_error_bound", JDict [("bound_hi", JStr grid)])]);
     continuum_operator_cert_json := None;
     weil_explicit_cert_json := None;
     weil_psd_bochner_json := psd |}.

End RollupFacts.
Section C1.
Import Py UniformRollupCert.




End C1.
Section C2.
Import Py UniformRollupCert.






End C2.

Section C8.
Import Py UniformRollupCert.

(** C8.  [read_psd_pass] answers [True] when [weil_psd_bochner.json] is
    absent and when it is present without a boolean (or a ["true"] /
    ["false"] string) under any [PSD_verified] alias; the emitted
    certificate then has [PSD_verified = true], its verdict is decided by
    [lhs_total <= epsilon_eff] alone, and the verdict is PASS in a run
    that has no PSD evidence. *)
Theorem C8_psd_defaults_to_true :
  read_psd_pass None = true /\
  (forall w, (forall p, In p psd_paths -> psd_recognised w p = false) ->
             read_psd_pass (Some w) = true) /\
  (forall dir c,
     main dir = Ok c ->
     (weil_psd_bochner_json dir = None \/
      exists w, weil_psd_bochner_json dir = Some w /\
                forall p, In p psd_paths -> psd_recognised w p = false) ->
     PSD_verified c = true /\
     (PASS c = true <-> (lhs_total c <= epsilon_eff c)%Q)) /\
  (exists c, main (example_dir "0.01" None) = Ok c /\
             PSD_verified c = true /\ PASS c = true) /\
  (exists c, main (example_dir "0.01" (Some (JDict [("PSD_verified", JStr "yes")])))
             = Ok c /\
             PSD_verified c = true /\ PASS c = true).
Proof.
  assert (H2 : forall w, (forall p, In p psd_paths -> psd_recognised w p = false) ->
                         read_psd_pass (Some w) = true).
  { intros w H. unfold read_psd_pass. destruct w; try reflexivity.
    now apply psd_scan_unrecognised. }
  split; [reflexivity|]. split; [exact H2|]. split; [|split].
  - intros dir c Hm Hpsd.
    destruct (main_PASS_spec _ Hm) as (HV & HP & _).
    assert (HT : PSD_verified c = true).
    { rewrite HV. destruct Hpsd as [->|(w & -> & Hw)]; [reflexivity | now apply H2]. }
    split; [exact HT|]. rewrite HP, HT. simpl. apply Qle_bool_iff.
  - eexists. split; [vm_compute; reflexivity|]. split; reflexivity.
  - eexists. split; [vm_compute; reflexivity|]. split; reflexivity.
Qed.

(** C8 at a present certificate whose only field is a string that is
    neither ["true"] nor ["false"]. *)
Lemma C8_psd_defaults_to_true_witness :
  read_psd_pass (Some (JDict [("PSD_verified", JStr "yes")])) = true.
Proof.
  apply (proj1 (proj2 C8_psd_defaults_to_true)).
  intros p Hp. simpl in Hp.
  repeat (destruct Hp as [<-|Hp]; [reflexivity|]). contradiction.
Defined.

End C8.
(** ** Margin verifier ([rolling_T_uniform_cert_v3.py]) *)

(** A power function for runs whose exponents are integers. *)
Definition no_real_pow (x a : Q) : option Q := None.

Section RefinementProtocol.
Import Mpf RollingT.

Variable real_pow : Q -> Q -> option Q.
Variables (T0 T1 eps_eff_lo grid_hi Cp ap Cg ag delta_target : Q).
Variables (mesh_initial mesh_max : Z).

Definition delta_lo (T : Q) : option Q :=
  compute_delta_lo real_pow T eps_eff_lo grid_hi Cp ap Cg ag.

(** The protocol in the words of the specification, without a budget:
    take the next sub-interval from the stack, evaluate the margin at its
    left endpoint; if it meets the target the sub-interval is discarded
    as certified, otherwise it is bisected and both halves are pushed. *)
Definition refine_step (w : list interval) : option (list interval) :=
  match w with
  | [] => Some []
  | (a, b, depth) :: rest =>
      match delta_lo a with
      | None => None
      | Some d =>
          if Qle_bool delta_target d then Some rest
          else Some ((a, ((a + b) / 2)%Q, (depth + 1)%Z)
                       :: (((a + b) / 2)%Q, b, (depth + 1)%Z) :: rest)
      end
  end.

Fixpoint refine (n : nat) (w : list interval) : option (list interval) :=
  match n with
  | O => Some w
  | S k =>
      match refine_step w with
      | Some w' => refine k w'
      | None => None
      end
  end.

(** The work list becomes empty after at most [budget] processed
    sub-intervals. *)
Definition empties_within (budget : Z) (w : list interval) : Prop :=
  exists n, (Z.of_nat n <= budget)%Z /\ refine n w = Some [].

(** Left endpoints of the first [n] processed sub-intervals. *)
Fixpoint sampled (n : nat) (w : list interval) : list Q :=
  match n, w with
  | S k, (a, _, _) :: _ =>
      a :: match refine_step w with
           | Some w' => sampled k w'
           | None => []
           end
  | _, _ => []
  end.

(** [(a, b)] is unresolved after [n] processed sub-intervals: it waits
    on top of the work list, or it was the last one sampled and its
    margin is below the target. *)
Definition unresolved_after (n : nat) (w : list interval) (a b : Q) : Prop :=
  (exists depth rest, refine n w = Some ((a, b, depth) :: rest)) \/
  (exists k depth rest d,
      n = S k /\ refine k w = Some ((a, b, depth) :: rest) /\
      delta_lo a = Some d /\ (d < delta_target)%Q).

(** [m] is the least margin over the sample points [l], attained at [t]
    and nowhere earlier in [l]. *)
Definition least_margin (l : list Q) (m : ext) (t : option Q) : Prop :=
  match m, t with
  | Inf, None => l = []
  | Fin q, Some t =>
      (exists l1 l2, l = (l1 ++ t :: l2)%list /\
                     delta_lo t = Some q /\
                     forall s, In s l1 -> exists d, delta_lo s = Some d /\ (q < d)%Q) /\
      (forall s, In s l -> exists d, delta_lo s = Some d /\ (q <= d)%Q)
  | _, _ => False
  end.

Local Abbreviation loop := (while_loop real_pow T0 eps_eff_lo grid_hi Cp ap Cg ag delta_target mesh_max).

Lemma refine_nil n : refine n [] = Some [].
Proof. induction n; simpl; auto. Qed.

Lemma refine_S_cons n i rest :
  refine (S n) (i :: rest) =
  match refine_step (i :: rest) with Some w' => refine n w' | None => None end.
Proof. reflexivity. Qed.

Lemma sampled_S_cons n a b d rest :
  sampled (S n) ((a, b, d) :: rest) =
  a :: match refine_step ((a, b, d) :: rest) with
       | Some w' => sampled n w'
       | None => []
       end.
Proof. reflexivity. Qed.




Lemma refine_add n : forall m w,
  refine (n + m) w = match refine n w with Some w' => refine m w' | None => None end.
Proof.
  induction n as [|n IH]; intros m w; [reflexivity|].
  simpl. destruct (refine_step w); [apply IH | reflexivity].
Qed.

Lemma refine_empty_mono n m w :
  (n <= m)%nat -> refine n w = Some [] -> refine m w = Some [].
Proof.
  intros Hle H. replace m with (n + (m - n))%nat by lia.
  rewrite refine_add, H. apply refine_nil.
Qed.

Lemma lt_ext_Fin d q : lt_ext d (Fin q) = true <-> (d < q)%Q.
Proof.
  unfold lt_ext. rewrite negb_true_iff. split; intros H.
  - apply Qnot_le_lt. intros Hle. apply Qle_bool_iff in Hle. congruence.
  - destruct (Qle_bool q d) eqn:E; [|reflexivity].
    apply Qle_bool_iff in E. exfalso. apply (Qlt_not_le _ _ H E).
Qed.

Lemma lt_ext_Fin_false d q : lt_ext d (Fin q) = false <-> (q <= d)%Q.
Proof.
  unfold lt_ext. rewrite negb_false_iff. apply Qle_bool_iff.
Qed.

Lemma Qle_bool_false x y : Qle_bool x y = false -> (y < x)%Q.
Proof.
  intros H. apply Qnot_le_lt. intros Hle. apply Qle_bool_iff in Hle. congruence.
Qed.

(** The running minimum after one more sample. *)
Lemma least_margin_snoc prev g t a d :
  least_margin prev g t -> delta_lo a = Some d ->
  least_margin (prev ++ [a])%list
               (if lt_ext d g then Fin d else g)
               (if lt_ext d g then Some a else t).
Proof.
  intros H Ha. destruct g as [q|], t as [t0|]; simpl in H; try contradiction.
  - destruct H as ((l1 & l2 & Hl & Ht & Hbefore) & Hall).
    destruct (lt_ext d (Fin q)) eqn:E.
    + apply lt_ext_Fin in E. simpl. split.
      * exists prev, []. repeat split; auto.
        intros s Hs. destruct (Hall s Hs) as (d' & Hd' & Hq).
        exists d'. split; [exact Hd'|]. eapply Qlt_le_trans; eauto.
      * intros s Hs. apply in_app_or in Hs. destruct Hs as [Hs|[<-|[]]].
        -- destruct (Hall s Hs) as (d' & Hd' & Hq). exists d'. split; [exact Hd'|].
           apply Qlt_le_weak. eapply Qlt_le_trans; eauto.
        -- exists d. split; [exact Ha | apply Qle_refl].
    + apply lt_ext_Fin_false in E. simpl. split.
      * exists l1, (l2 ++ [a])%list. repeat split; auto.
        rewrite Hl, <- app_assoc. reflexivity.
      * intros s Hs. apply in_app_or in Hs. destruct Hs as [Hs|[<-|[]]].
        -- apply Hall, Hs.
        -- exists d. split; [exact Ha | exact E].
  - subst prev. simpl. split.
    + exists [], []. repeat split; auto. intros s [].
    + intros s [<-|[]]. exists d. split; [exact Ha | apply Qle_refl].
Qed.

(** What one call of the loop delivers, from any state. *)
Lemma while_loop_spec fuel : forall st r prev,
  (mesh_max - total st <= Z.of_nat fuel)%Z ->
  (total st <= mesh_max)%Z ->
  least_margin prev (gmin st) (argmin st) ->
  loop fuel st = Some r ->
  let n := Z.to_nat (intervals r - total st) in
  (total st <= intervals r <= mesh_max)%Z /\
  (PASS r = true -> witness r = None /\ refine n (work st) = Some []) /\
  (PASS r = false ->
     intervals r = mesh_max /\
     exists a b, witness r = Some (a, b) /\ unresolved_after n (work st) a b) /\
  exists t, least_margin (prev ++ sampled n (work st))%list (global_min r) t /\
            forall v, t = Some v -> Qeq_bool v 0 = false -> argmin_T r = v.
Proof.
  assert (Hor : forall t a v, t = Some v -> Qeq_bool v 0 = false ->
                              or_else t a = v).
  { intros t a v -> Hv. unfold or_else. now rewrite Hv. }
  assert (Hexit : forall st r prev,
            (total st = mesh_max \/ work st = []) -> (total st <= mesh_max)%Z ->
            least_margin prev (gmin st) (argmin st) ->
            Some (after_loop T0 st) = Some r ->
            let n := Z.to_nat (intervals r - total st) in
            (total st <= intervals r <= mesh_max)%Z /\
            (PASS r = true -> witness r = None /\ refine n (work st) = Some []) /\
            (PASS r = false ->
             intervals r = mesh_max /\
             exists a b, witness r = Some (a, b) /\ unresolved_after n (work st) a b) /\
            exists t, least_margin (prev ++ sampled n (work st))%list (global_min r) t /\
                      forall v, t = Some v -> Qeq_bool v 0 = false -> argmin_T r = v).
  { intros st r prev Hcase Hle Hmin Hr. inversion Hr as [Hr']. clear Hr.
    unfold after_loop. destruct (work st) as [|[[a b] d] rest] eqn:Ew; simpl.
    - rewrite Z.sub_diag. simpl. split; [lia|]. split; [|split].
      + intros _. split; reflexivity.
      + discriminate.
      + exists (argmin st). rewrite app_nil_r. split; [exact Hmin|].
        intros v Hv Hz. now apply Hor.
    - destruct Hcase as [Hcase|Hcase]; [|discriminate].
      rewrite Z.sub_diag. simpl. split; [lia|]. split; [|split].
      + discriminate.
      + intros _. split; [exact Hcase|]. exists a, b. split; [reflexivity|].
        left. exists d, rest. reflexivity.
      + exists (argmin st). rewrite app_nil_r. split; [exact Hmin|].
        intros v Hv Hz. now apply Hor. }
  induction fuel as [|f IH]; intros st r prev Hf Hle Hmin Hr.
  - simpl in Hr. apply Hexit; auto. left. simpl in Hf. lia.
  - simpl in Hr.
    destruct (work st) as [|[[a b] d] rest] eqn:Ew.
    { pose proof (Hexit st r prev (or_intror Ew) Hle Hmin Hr) as H.
      rewrite Ew in H. exact H. }
    destruct (Z.ltb_spec (total st) mesh_max) as [Hlt|Hge].
    2:{ assert (Ht : total st = mesh_max) by lia.
        pose proof (Hexit st r prev (or_introl Ht) Hle Hmin Hr) as H.
        rewrite Ew in H. exact H. }
    destruct (compute_delta_lo real_pow a eps_eff_lo grid_hi Cp ap Cg ag)
      as [d_lo|] eqn:Ed; [|discriminate].
    cbv zeta in Hr.
    assert (Hmin' := @least_margin_snoc prev (gmin st) (argmin st) a d_lo Hmin Ed).
    assert (Hstep_ok : Qle_bool delta_target d_lo = true ->
                       refine_step ((a, b, d) :: rest) = Some rest).
    { intros E. unfold refine_step, delta_lo. now rewrite Ed, E. }
    assert (Hstep_ko : Qle_bool delta_target d_lo = false ->
                       refine_step ((a, b, d) :: rest) =
                       Some ((a, ((a + b) / 2)%Q, (d + 1)%Z)
                               :: (((a + b) / 2)%Q, b, (d + 1)%Z) :: rest)).
    { intros E. unfold refine_step, delta_lo. now rewrite Ed, E. }
    assert (Hrec : forall w',
              refine_step ((a, b, d) :: rest) = Some w' ->
              loop f {| work := w'; total := total st + 1;
                        depth_max := Z.max (depth_max st) d;
                        gmin := if lt_ext d_lo (gmin st) then Fin d_lo else gmin st;
                        argmin := if lt_ext d_lo (gmin st) then Some a else argmin st |}
              = Some r ->
              let n := Z.to_nat (intervals r - total st) in
              (total st <= intervals r <= mesh_max)%Z /\
              (PASS r = true -> witness r = None /\
                                refine n ((a, b, d) :: rest) = Some []) /\
              (PASS r = false ->
               intervals r = mesh_max /\
               exists a0 b0, witness r = Some (a0, b0) /\
                             unresolved_after n ((a, b, d) :: rest) a0 b0) /\
              exists t, least_margin (prev ++ sampled n ((a, b, d) :: rest))%list
                                     (global_min r) t /\
                        forall v, t = Some v -> Qeq_bool v 0 = false -> argmin_T r = v).
    { intros w' Hstep Hloop.
      apply (IH _ _ (prev ++ [a])%list) in Hloop; simpl; try lia; try exact Hmin'.
      simpl in Hloop. destruct Hloop as (Hb & Hpass & Hfail & t & Ht & Harg).
      assert (En : Z.to_nat (intervals r - total st) =
                   S (Z.to_nat (intervals r - (total st + 1)))) by lia.
      cbv zeta. rewrite En. split; [lia|]. split; [|split].
      - intros HP. destruct (Hpass HP) as (Hw & Href). split; [exact Hw|].
        rewrite refine_S_cons, Hstep. exact Href.
      - intros HP. destruct (Hfail HP) as (Hi & a0 & b0 & Hw & Hun).
        split; [exact Hi|]. exists a0, b0. split; [exact Hw|].
        destruct Hun as [(d0 & r0 & H0)|(k & d0 & r0 & v & Hk & H0 & Hd0 & Hv)].
        + left. exists d0, r0. rewrite refine_S_cons, Hstep. exact H0.
        + right. exists (S k), d0, r0, v. repeat split; auto.
          rewrite refine_S_cons, Hstep. exact H0.
      - exists t. split; [|exact Harg].
        rewrite sampled_S_cons, Hstep. rewrite <- app_assoc in Ht. exact Ht. }
    destruct (Qle_bool delta_target d_lo) eqn:Et.
    + apply (Hrec rest); auto.
    + destruct (Z.leb_spec mesh_max (total st + 1)) as [Hmax|Hmax].
      * inversion Hr as [Hr']. clear Hr. simpl.
        replace (total st + 1 - total st)%Z with 1%Z by lia.
        change (Z.to_nat 1) with 1%nat.
        rewrite sampled_S_cons, (Hstep_ko eq_refl). simpl sampled.
        split; [lia|]. split; [discriminate|]. split.
        -- intros _. split; [lia|]. exists a, b. split; [reflexivity|].
           right. exists O, d, rest, d_lo. repeat split; auto.
           now apply Qle_bool_false.
        -- eexists. split; [exact Hmin'|]. intros v Hv Hz. now apply Hor.
      * apply (Hrec _ (Hstep_ko eq_refl)); auto.
Qed.



(** *** The loop returns *)

Definition positive_work (w : list interval) : Prop :=
  Forall (fun i : interval => (0 < fst (fst i))%Q /\ (fst (fst i) <= snd (fst i))%Q) w.


Lemma xs_at_ge i :
  (0 < mesh_initial)%Z -> (0 <= i)%Z -> (T0 <= T1)%Q ->
  (T0 <= xs_at T0 T1 mesh_initial i)%Q.
Proof.
  intros Hn Hi Hle. unfold xs_at.
  assert (H : (0 <= (T1 - T0) * (inject_Z i / inject_Z mesh_initial))%Q).
  { apply Qmult_le_0_compat; [lra|]. unfold Qdiv.
    apply Qmult_le_0_compat.
    - change 0%Q with (inject_Z 0). rewrite <- Zle_Qle. exact Hi.
    - apply Qinv_le_0_compat. change 0%Q with (inject_Z 0).
      rewrite <- Zle_Qle. lia. }
  lra.
Qed.

Lemma xs_at_mono i :
  (0 < mesh_initial)%Z -> (T0 <= T1)%Q ->
  (xs_at T0 T1 mesh_initial i <= xs_at T0 T1 mesh_initial (i + 1))%Q.
Proof.
  intros Hn Hle. unfold xs_at.
  assert (H : ((T1 - T0) * (inject_Z i / inject_Z mesh_initial) <=
               (T1 - T0) * (inject_Z (i + 1) / inject_Z mesh_initial))%Q).
  { rewrite (Qmult_comm (T1 - T0)), (Qmult_comm (T1 - T0) (_ / _)).
    apply Qmult_le_compat_r; [|lra]. unfold Qdiv.
    apply Qmult_le_compat_r.
    - rewrite <- Zle_Qle. lia.
    - apply Qinv_le_0_compat. change 0%Q with (inject_Z 0).
      rewrite <- Zle_Qle. lia. }
  lra.
Qed.

Lemma seed_positive :
  (0 < T0)%Q -> (T0 <= T1)%Q -> positive_work (rev (seed T0 T1 mesh_initial)).
Proof.
  intros H0 Hle. unfold positive_work. apply Forall_rev. unfold seed.
  apply Forall_forall. intros i Hi. apply in_map_iff in Hi.
  destruct Hi as (k & <- & Hk). apply in_seq in Hk. simpl.
  assert (Hn : (0 < mesh_initial)%Z) by lia.
  split.
  - eapply Qlt_le_trans; [exact H0|]. apply xs_at_ge; auto. lia.
  - now apply xs_at_mono.
Qed.

(** *** [adaptive_cert] as a whole *)

Abbreviation cert :=
  (adaptive_cert real_pow T0 T1 eps_eff_lo grid_hi Cp ap Cg ag delta_target
                 mesh_initial mesh_max).



Lemma adaptive_cert_spec r :
  (0 <= mesh_max)%Z ->
  cert = Some r ->
  let w0 := rev (seed T0 T1 mesh_initial) in
  let n := Z.to_nat (intervals r) in
  (0 <= intervals r <= mesh_max)%Z /\
  (PASS r = true <-> empties_within mesh_max w0) /\
  (PASS r = true -> witness r = None) /\
  (PASS r = false ->
     intervals r = mesh_max /\
     exists a b, witness r = Some (a, b) /\ unresolved_after n w0 a b) /\
  exists t, least_margin (sampled n w0) (global_min r) t /\
            forall v, t = Some v -> Qeq_bool v 0 = false -> argmin_T r = v.
Proof.
  intros Hmax Hc. unfold adaptive_cert in Hc.
  destruct (mesh_initial =? 0)%Z; [discriminate|].
  apply (@while_loop_spec _ _ _ []) in Hc; simpl; try lia; try reflexivity.
  simpl in Hc. rewrite Z.sub_0_r in Hc.
  destruct Hc as (Hb & Hpass & Hfail & Hmin).
  cbv zeta. split; [exact Hb|]. split; [|split; [|split]].
  - split.
    + intros HP. exists (Z.to_nat (intervals r)). split; [lia|]. now apply Hpass.
    + intros (k & Hk & Hempty).
      destruct (PASS r) eqn:HP; [reflexivity|]. exfalso.
      destruct (Hfail eq_refl) as (Hi & a & b & _ & Hun).
      assert (Hle : (k <= Z.to_nat (intervals r))%nat) by lia.
      pose proof (refine_empty_mono _ Hle Hempty) as Hn.
      destruct Hun as [(d & rest & H1)|(j & d & rest & v & Hj & H1 & Hv & Hlt)].
      * rewrite H1 in Hn. discriminate.
      * rewrite Hj in Hn. replace (S j) with (j + 1)%nat in Hn by lia.
        rewrite refine_add, H1 in Hn. simpl in Hn. unfold delta_lo in Hv.
        unfold delta_lo in Hn. rewrite Hv in Hn.
        destruct (Qle_bool delta_target v) eqn:E.
        -- apply Qle_bool_iff in E. exact (Qlt_not_le _ _ Hlt E).
        -- discriminate.
  - intros HP. now apply Hpass.
  - exact Hfail.
  - exact Hmin.
Qed.

End RefinementProtocol.
Section RollingMain.
Import Py Mpf RollingT.

Variable real_pow : Q -> Q -> option Q.






Ltac bind_inv H :=
  match type of H with
  | bind ?m _ = Ok _ =>
      let E := fresh "E" in
      destruct m eqn:E; [unfold bind at 1 in H; cbv beta iota in H | discriminate H]
  end.

(** What a successful run of [main] went through. *)
Lemma main_inv a ab p :
  main real_pow a ab = Ok p ->
  exists T0_req T1 delta_target ab_js b eps_eff_lo grid_hi pt gt Cp apow Cg agow r,
    mpf_of (arg_T0 a) = Ok T0_req /\
    ab = Some ab_js /\ bounds_block ab_js = Ok b /\
    mpf_of (arg_T1 a) = Ok T1 /\
    (T0_req < T1)%Q /\
    subscript b "prime_tail" = Ok pt /\
    subscript b "gamma_tail" = Ok gt /\
    adaptive_cert real_pow (clamp (clamp T0_req pt) gt) T1 eps_eff_lo grid_hi
                  Cp apow Cg agow delta_target
                  (arg_mesh_initial a) (arg_mesh_max a) = Some r /\
    inputs_T0 p = clamp (clamp T0_req pt) gt /\
    inputs_T1 p = T1 /\
    result_PASS p = PASS r /\
    result_delta_min p = global_min r /\
    mesh_intervals p = intervals r /\
    match witness r with
    | Some (l, rr) => result_witness p = Unresolved l rr
    | None =>
        exists d,
          compute_delta_lo real_pow (argmin_T r) eps_eff_lo grid_hi Cp apow Cg agow
          = Some d /\
          result_witness p =
          ArgminDegenerate (argmin_T r - pad_of (argmin_T r))
                           (argmin_T r + pad_of (argmin_T r)) (argmin_T r) d
    end.
Proof.
  unfold main. intros H.
  bind_inv H. bind_inv H.
  destruct (Qle_bool a1 a0) eqn:Elt; simpl in H; [discriminate|].
  do 11 bind_inv H.
  destruct (adaptive_cert real_pow (clamp (clamp a0 a7) a8) a1 a5 a6 a9 a10 a11 a12 a2
              (arg_mesh_initial a) (arg_mesh_max a)) as [r|] eqn:Ecert;
    [|discriminate H].
  simpl of_option in H. unfold bind at 1 in H. cbv beta iota in H.
  bind_inv H. inversion H; subst p; clear H. simpl.
  exists a0, a1, a2, a3, a4, a5, a6, a7, a8, a9, a10, a11, a12, r.
  assert (Hab : ab = Some a3) by (destruct ab; [inversion E2; reflexivity | discriminate]).
  repeat (split; [first [assumption | reflexivity | now apply Qle_bool_false]|]).
  destruct (witness r) as [[l rr]|].
  - inversion E12. reflexivity.
  - destruct (compute_delta_lo real_pow (argmin_T r) a5 a6 a9 a10 a11 a12)
      as [d|]; simpl in E12; [|discriminate].
    inversion E12. exists d. split; reflexivity.
Qed.

End RollingMain.
Section C3.
Import Mpf RollingT.

(** The synthetic margin: with [eps_eff_lo = 0], [Cp = -1], [ap = 1] and
    no gamma tail and no grid error, [compute_delta_lo] is [1 / T]. *)
Lemma synthetic_margin real_pow T :
  ~ (T == 0)%Q ->
  exists d, compute_delta_lo real_pow T 0 0 (-1 # 1) 1 0 0 = Some d /\ (d == 1 / T)%Q.
Proof.
  intros HT. unfold compute_delta_lo, mpf_pow, mpf_div. simpl.
  destruct (Qeq_bool T 0) eqn:E; [apply Qeq_bool_iff in E; contradiction|].
  simpl. eexists. split; [reflexivity|]. field. exact HT.
Qed.

Lemma single_interval_pass real_pow T0 eps grid Cp ap Cg ag target mesh_max a b d f :
  (1 <= mesh_max)%Z ->
  compute_delta_lo real_pow a eps grid Cp ap Cg ag = Some d ->
  Qle_bool target d = true ->
  while_loop real_pow T0 eps grid Cp ap Cg ag target mesh_max (S f)
    {| work := [(a, b, 0%Z)]; total := 0; depth_max := 0; gmin := Inf; argmin := None |}
  = Some {| PASS := true; global_min := Fin d; witness := None; intervals := 1;
            max_depth := 0; argmin_T := or_else (Some a) T0 |}.
Proof.
  intros Hm Hd Ht.
  cbn [while_loop work total gmin argmin depth_max].
  destruct (Z.ltb_spec 0 mesh_max); [|lia].
  rewrite Hd. cbv zeta. rewrite Ht.
  destruct f; reflexivity.
Qed.

Lemma synthetic_run real_pow target mesh_max :
  (1 <= mesh_max)%Z -> (target <= 1)%Q ->
  exists r,
    adaptive_cert real_pow 1 (10 # 1) 0 0 (-1 # 1) 1 0 0 target 1 mesh_max = Some r /\
    PASS r = true /\ witness r = None /\ intervals r = 1%Z /\ max_depth r = 0%Z /\
    (exists d, global_min r = Fin d /\ (d == 1)%Q) /\ (argmin_T r == 1)%Q.
Proof.
  intros Hm Ht. unfold adaptive_cert. change (1 =? 0)%Z with false. cbv iota.
  destruct (Z.to_nat mesh_max) as [|f] eqn:Ef; [lia|].
  destruct (synthetic_margin real_pow (T:=xs_at 1 (10 # 1) 1 0)) as (d & Hd & Hv);
    [vm_compute; discriminate|].
  assert (Hd1 : (d == 1)%Q) by (rewrite Hv; vm_compute; reflexivity).
  assert (Hle : Qle_bool target d = true) by (apply Qle_bool_iff; rewrite Hd1; exact Ht).
  change (initial_state 1 (10 # 1) 1) with
    {| work := [(xs_at 1 (10 # 1) 1 0, xs_at 1 (10 # 1) 1 (0 + 1), 0%Z)];
       total := 0; depth_max := 0; gmin := Inf; argmin := None |}.
  rewrite (@single_interval_pass real_pow 1 0 0 (-1 # 1) 1 0 0 target mesh_max _ _ d f Hm Hd Hle).
  eexists. split; [reflexivity|]. cbn [PASS witness intervals max_depth global_min argmin_T].
  repeat (split; [reflexivity|]). split.
  - exists d. split; [reflexivity | exact Hd1].
  - vm_compute. reflexivity.
Qed.

(** C3 (as stated, refuted).  On [[1, 10]] with [mesh_initial = 1] and the
    target [1 / 1.5], the run samples only T = 1, where the margin is
    [1 >= 1 / 1.5]: the result is PASS without refinement and without an
    unresolved interval, not FAIL. *)
Lemma C3_crossing_target_is_not_detected :
  exists r,
    adaptive_cert no_real_pow 1 (10 # 1) 0 0 (-1 # 1) 1 0 0 (1 / (15 # 10)) 1 131072
    = Some r /\
    PASS r = true /\ witness r = None /\ intervals r = 1%Z.
Proof.
  destruct (@synthetic_run no_real_pow (1 / (15 # 10))%Q 131072)
    as (r & Hr & HP & Hw & Hi & _); [lia | vm_compute; discriminate |].
  exists r. auto.
Qed.

(** C3 (amended).  The margin [1 / T] is obtained from
    [compute_delta_lo].  On the domain [[1, 10]] with [mesh_initial = 1],
    every target at most [1] (so both [0.5] and [1 / 1.5]) yields PASS
    with no refinement: one sub-interval processed, depth 0, minimum
    [delta_lo(1) = 1] at T = 1, no unresolved interval. *)
Theorem C3_synthetic_margin_run :
  forall real_pow,
    (forall T, ~ (T == 0)%Q ->
       exists d, compute_delta_lo real_pow T 0 0 (-1 # 1) 1 0 0 = Some d /\
                 (d == 1 / T)%Q) /\
    (forall target mesh_max,
       (1 <= mesh_max)%Z -> (target <= 1)%Q ->
       exists r,
         adaptive_cert real_pow 1 (10 # 1) 0 0 (-1 # 1) 1 0 0 target 1 mesh_max
         = Some r /\
         PASS r = true /\ witness r = None /\ intervals r = 1%Z /\
         max_depth r = 0%Z /\
         (exists d, global_min r = Fin d /\ (d == 1)%Q) /\ (argmin_T r == 1)%Q).
Proof.
  intros real_pow. split.
  - intros T HT. now apply synthetic_margin.
  - intros target mesh_max. apply synthetic_run.
Qed.

(** C3 (amended) at the two targets of the test, with the default budget. *)
Lemma C3_synthetic_margin_run_witness :
  (exists r,
     adaptive_cert no_real_pow 1 (10 # 1) 0 0 (-1 # 1) 1 0 0 (1 # 2) 1 131072 = Some r /\
     PASS r = true /\ witness r = None /\ intervals r = 1%Z /\ max_depth r = 0%Z /\
     (exists d, global_min r = Fin d /\ (d == 1)%Q) /\ (argmin_T r == 1)%Q) /\
  (exists r,
     adaptive_cert no_real_pow 1 (10 # 1) 0 0 (-1 # 1) 1 0 0 (1 / (15 # 10)) 1 131072
     = Some r /\
     PASS r = true /\ witness r = None /\ intervals r = 1%Z /\ max_depth r = 0%Z /\
     (exists d, global_min r = Fin d /\ (d == 1)%Q) /\ (argmin_T r == 1)%Q).
Proof.
  split.
  - apply (proj2 (C3_synthetic_margin_run no_real_pow) (1 # 2)%Q 131072%Z).
    + lia.
    + vm_compute. discriminate.
  - apply (proj2 (C3_synthetic_margin_run no_real_pow) (1 / (15 # 10))%Q 131072%Z).
    + lia.
    + vm_compute. discriminate.
Defined.

End C3.

Section C5.
Import Py Mpf RollingT.




End C5.

Section C10.
Import Py Mpf RollingT.





End C10.
(** ** PSD certifier ([subspace_psd_cholesky.py]) *)

(** A square root that is exact on squares of rationals, for runs whose
    pivots are such squares. *)
Definition sqrt_on_squares (q : Q) : Q :=
  let r := Qred q in
  (Z.sqrt (Qnum r) # Pos.sqrt (Qden r)).

Section CholeskyFacts.
Import Mpf PsdCholesky.

Variable mp_sqrt : Q -> Q.
Variable M : list (list Q).
Variable tol : Q.

Local Abbreviation n := (List.length M).
Local Abbreviation step_k := (step mp_sqrt n tol).

(** The state in which pass [k] of the loop starts, when the loop gets
    that far. *)
Fixpoint state_before (k : nat) : option state :=
  match k with
  | O => Some (initial M)
  | S j =>
      match state_before j with
      | Some st =>
          match step_k j st with
          | Next st' => Some st'
          | Done _ => None
          end
      | None => None
      end
  end.

(** The diagonal entry that pass [k] selects: the largest remaining one. *)
Definition selected (k : nat) (st : state) : Q :=
  vget (diag st) (argmax (diag st) k n).

Lemma step_cases k st :
  (Qlt_bool (selected k st) (- tol) = true /\
   step_k k st = Done (false, selected k st, rank st)) \/
  (Qlt_bool (selected k st) (- tol) = false /\ Qle_bool (selected k st) tol = true /\
   step_k k st = Done (finish st)) \/
  (Qlt_bool (selected k st) (- tol) = false /\ Qle_bool (selected k st) tol = false /\
   exists st', step_k k st = Next st' /\ rank st' = (rank st + 1)%Z).
Proof.
  unfold step, selected.
  destruct (Qlt_bool _ (- tol)); [left; auto|].
  destruct (Qle_bool _ tol); [right; left; auto|].
  right; right. repeat split.
  destruct (if (k <? n - 1)%nat then _ else _) as [[H2 d2] L2].
  eexists. split; [reflexivity|]. simpl.
  destruct (Nat.eqb _ k); reflexivity.
Qed.

Lemma Qlt_bool_iff x y : Qlt_bool x y = true <-> (x < y)%Q.
Proof.
  unfold Qlt_bool. rewrite negb_true_iff. split; intros H.
  - apply Qnot_le_lt. intros Hle. apply Qle_bool_iff in Hle. congruence.
  - destruct (Qle_bool y x) eqn:E; [|reflexivity].
    apply Qle_bool_iff in E. exfalso. exact (Qlt_not_le _ _ H E).
Qed.

Lemma Qlt_bool_false_iff x y : Qlt_bool x y = false <-> (y <= x)%Q.
Proof. unfold Qlt_bool. rewrite negb_false_iff. apply Qle_bool_iff. Qed.

Lemma state_before_rank k : forall st,
  state_before k = Some st -> rank st = Z.of_nat k.
Proof.
  induction k as [|k IH]; intros st Hst.
  - inversion Hst. reflexivity.
  - simpl in Hst. destruct (state_before k) as [st0|]; [|discriminate].
    destruct (step_cases k st0) as [(_ & E)|[(_ & _ & E)|(_ & _ & st' & E & Hr)]];
      rewrite E in Hst; try discriminate.
    inversion Hst; subst st'. rewrite Hr, (IH st0 eq_refl). lia.
Qed.

(** Every pass that was completed selected a diagonal above [tol]. *)
Lemma state_before_S k st' :
  state_before (S k) = Some st' ->
  exists st, state_before k = Some st /\ step_k k st = Next st' /\
             (tol < selected k st)%Q.
Proof.
  simpl. destruct (state_before k) as [st|]; [|discriminate].
  destruct (step_cases k st) as [(_ & E)|[(_ & _ & E)|(_ & E2 & st1 & E & _)]];
    rewrite E; try discriminate.
  intros Hst. inversion Hst; subst st1. exists st. repeat split; auto.
  now apply Qle_bool_false.
Qed.

Lemma state_before_le k : forall j st,
  (j <= k)%nat -> state_before k = Some st -> exists st0, state_before j = Some st0.
Proof.
  induction k as [|k IH]; intros j st Hj Hst.
  - replace j with O by lia. eauto.
  - destruct (Nat.eq_dec j (S k)) as [->|Hne]; [eauto|].
    destruct (state_before_S _ Hst) as (st0 & H0 & _).
    apply (IH j st0); [lia | exact H0].
Qed.

(** The loop from pass [k] on: it stops in some pass [j], or runs through. *)
Lemma run_from m : forall k st,
  state_before k = Some st ->
  (exists j stj, (k <= j < k + m)%nat /\ state_before j = Some stj /\
                 step_k j stj = Done (run mp_sqrt n tol (seq k m) st)) \/
  (exists st', state_before (k + m) = Some st' /\
               run mp_sqrt n tol (seq k m) st = finish st').
Proof.
  induction m as [|m IH]; intros k st Hst.
  - right. exists st. rewrite Nat.add_0_r. auto.
  - simpl. destruct (step_k k st) as [st'|res] eqn:E.
    + assert (H' : state_before (S k) = Some st') by (simpl; now rewrite Hst, E).
      destruct (IH (S k) st' H') as [(j & stj & Hj & Hb & Hd)|(st2 & Hb & Hr)].
      * left. exists j, stj. split; [lia|]. auto.
      * right. exists st2. rewrite <- Nat.add_succ_comm. auto.
    + left. exists k, st. split; [lia|]. auto.
Qed.

(** A pass that stops decides the result of the whole function. *)
Lemma run_stops_at k st res :
  (k < n)%nat -> state_before k = Some st -> step_k k st = Done res ->
  pivoted_cholesky_psd mp_sqrt M tol = res.
Proof.
  intros Hk Hst Hd. unfold pivoted_cholesky_psd.
  destruct (@run_from n O (initial M) eq_refl)
    as [(j & stj & Hj & Hb & Hdj)|(st' & Hb & _)].
  - destruct (Nat.lt_trichotomy j k) as [Hlt|[->|Hgt]].
    + exfalso. destruct (@state_before_le k (S j) st ltac:(lia) Hst) as (s1 & Hs1).
      destruct (state_before_S _ Hs1) as (s0 & Hs0 & Hn & _).
      rewrite Hb in Hs0. inversion Hs0; subst s0. rewrite Hdj in Hn. discriminate.
    + rewrite Hb in Hst. inversion Hst; subst stj. rewrite Hd in Hdj.
      inversion Hdj. auto.
    + exfalso. destruct (@state_before_le j (S k) stj ltac:(lia) Hb) as (s1 & Hs1).
      destruct (state_before_S _ Hs1) as (s0 & Hs0 & Hn & _).
      rewrite Hst in Hs0. inversion Hs0; subst s0. rewrite Hd in Hn. discriminate.
  - exfalso. simpl in Hb.
    destruct (@state_before_le n (S k) st' ltac:(lia) Hb) as (s1 & Hs1).
    destruct (state_before_S _ Hs1) as (s0 & Hs0 & Hn & _).
    rewrite Hst in Hs0. inversion Hs0; subst s0. rewrite Hd in Hn. discriminate.
Qed.

(** Where the result comes from. *)
Lemma result_origin :
  (exists k st, (k < n)%nat /\ state_before k = Some st /\
                step_k k st = Done (pivoted_cholesky_psd mp_sqrt M tol)) \/
  (exists st, state_before n = Some st /\
              pivoted_cholesky_psd mp_sqrt M tol = finish st).
Proof.
  unfold pivoted_cholesky_psd.
  destruct (@run_from n O (initial M) eq_refl)
    as [(j & stj & Hj & Hb & Hdj)|(st' & Hb & Hr)].
  - left. exists j, stj. split; [lia|]. auto.
  - right. exists st'. auto.
Qed.

End CholeskyFacts.
Section C6.
Import Mpf PsdCholesky.


(** C6.  For a tolerance [tol > 0], the pivoted factorization returns
    [success = false] exactly when some pass selects a pivot diagonal
    strictly below [-tol] (and then returns that diagonal and the rank
    reached); a selected pivot diagonal in [[-tol, 0]] ends the
    factorization with [success = true] and the rank reached so far, which
    is below [n].  The fallback of [main] certifies PSD exactly when the
    pivoted factorization succeeds. *)
Theorem C6_fail_only_below_minus_tol :
  forall mp_sqrt M tol,
    (0 < tol)%Q ->
    let res := pivoted_cholesky_psd mp_sqrt M tol in
    let n := List.length M in
    (fst (fst res) = false <->
     exists k st, (k < n)%nat /\ state_before mp_sqrt M tol k = Some st /\
                  (selected M k st < - tol)%Q) /\
    (forall k st, (k < n)%nat -> state_before mp_sqrt M tol k = Some st ->
                  (selected M k st < - tol)%Q ->
                  res = (false, selected M k st, Z.of_nat k)) /\
    (forall k st, (k < n)%nat -> state_before mp_sqrt M tol k = Some st ->
                  (- tol <= selected M k st)%Q -> (selected M k st <= 0)%Q ->
                  fst (fst res) = true /\ snd res = Z.of_nat k /\
                  (snd res < Z.of_nat n)%Z) /\
    (forall dps,
       fallback mp_sqrt None M dps =
       (pivoted_cholesky_psd mp_sqrt M (adaptive_tol_from_dps dps 6),
        fst (fst (pivoted_cholesky_psd mp_sqrt M (adaptive_tol_from_dps dps 6))))).
Proof.
  intros mp_sqrt M tol Htol res n.
  assert (Hbelow : forall k st, (k < n)%nat -> state_before mp_sqrt M tol k = Some st ->
                     (selected M k st < - tol)%Q ->
                     res = (false, selected M k st, Z.of_nat k)).
  { intros k st Hk Hst Hlt. apply Qlt_bool_iff in Hlt.
    destruct (step_cases mp_sqrt M tol k st)
      as [(_ & E)|[(E & _)|(E & _)]]; try congruence.
    rewrite (state_before_rank _ _ _ _ Hst) in E.
    exact (run_stops_at _ _ _ Hk Hst E). }
  split; [|split; [|split]].
  - split.
    + intros Hf.
      destruct (result_origin mp_sqrt M tol) as [(k & st & Hk & Hst & Hd)|(st & Hst & Hr)].
      * exists k, st. split; [exact Hk|]. split; [exact Hst|].
        destruct (step_cases mp_sqrt M tol k st)
          as [(E0 & _)|[(_ & _ & E)|(_ & _ & st' & E & _)]].
        -- now apply Qlt_bool_iff.
        -- rewrite E in Hd. inversion Hd as [Hres]. fold res in Hres.
           rewrite <- Hres in Hf. discriminate.
        -- rewrite E in Hd. discriminate.
      * fold res in Hr. rewrite Hr in Hf. discriminate.
    + intros (k & st & Hk & Hst & Hlt). now rewrite (Hbelow k st Hk Hst Hlt).
  - exact Hbelow.
  - intros k st Hk Hst Hlo Hhi.
    assert (E1 : Qlt_bool (selected M k st) (- tol) = false)
      by now apply Qlt_bool_false_iff.
    assert (E2 : Qle_bool (selected M k st) tol = true).
    { apply Qle_bool_iff. apply Qle_trans with 0%Q; [exact Hhi | now apply Qlt_le_weak]. }
    destruct (step_cases mp_sqrt M tol k st)
      as [(E & _)|[(_ & _ & E)|(_ & E & _)]]; try congruence.
    pose proof (run_stops_at _ _ _ Hk Hst E) as Hres. fold res in Hres.
    rewrite Hres. simpl. rewrite (state_before_rank _ _ _ _ Hst).
    repeat split. lia.
  - intros dps. unfold fallback.
    destruct (pivoted_cholesky_psd mp_sqrt M (adaptive_tol_from_dps dps 6))
      as [[ok mp] rk]. reflexivity.
Qed.

(** C6 at two matrices with tolerance [1/100]: [diag(4, -1)] fails at
    the second pass on the pivot [-1]; [diag(4, 0)] stops there with
    success and rank 1. *)
Lemma C6_fail_only_below_minus_tol_witness :
  (fst (fst (pivoted_cholesky_psd sqrt_on_squares [[4; 0]; [0; -1 # 1]]%Q (1 # 100)))
   = false /\
   snd (pivoted_cholesky_psd sqrt_on_squares [[4; 0]; [0; -1 # 1]]%Q (1 # 100)) = 1%Z) /\
  fst (fst (pivoted_cholesky_psd sqrt_on_squares [[4; 0]; [0; 0]]%Q (1 # 100))) = true.
Proof.
  assert (Htol : (0 < 1 # 100)%Q) by reflexivity.
  split.
  - rewrite (proj1 (proj2 (C6_fail_only_below_minus_tol sqrt_on_squares
                             [[4; 0]; [0; -1 # 1]]%Q Htol))
                   1%nat
                   (State [[4; 0]; [0; -4 # 4]]%Q [4; -4 # 4]%Q [0; 1]%nat
                          [[2; 0]; [0 # 2; 0]]%Q (Fin 2) 1)).
    + split; reflexivity.
    + simpl. lia.
    + vm_compute. reflexivity.
    + vm_compute. reflexivity.
  - refine (proj1 (proj1 (proj2 (proj2 (C6_fail_only_below_minus_tol sqrt_on_squares
                                          [[4; 0]; [0; 0]]%Q Htol)))
                         1%nat _ _ _ _ _)).
    + simpl. lia.
    + vm_compute. reflexivity.
    + vm_compute. discriminate.
    + vm_compute. discriminate.
Defined.

End C6.

Section C9.
Import Mpf PsdCholesky.



End C9.
(** ** Interval oracle ([band_cert.py]) *)

Section IntervalFacts.
Import BandCert.
Local Open Scope R_scope.

Definition valid (I : ivl) : Prop := fst I <= snd I.

(** [I] lies inside [J]. *)
Definition inside (I J : ivl) : Prop := fst J <= fst I /\ snd I <= snd J.

Lemma iv_div_pos I s : iv_div I s = (fst I / s, snd I / s).
Proof. reflexivity. Qed.

Lemma iv_div_inside I J s :
  0 < s -> valid I -> valid J -> inside I J ->
  valid (iv_div I s) /\ valid (iv_div J s) /\ inside (iv_div I s) (iv_div J s).
Proof.
  intros Hs HI HJ [H1 H2]. rewrite !iv_div_pos.
  unfold valid, inside in *. simpl.
  assert (Hi : 0 <= / s) by (apply Rlt_le, Rinv_0_lt_compat, Hs).
  unfold Rdiv. repeat split; apply Rmult_le_compat_r; assumption.
Qed.

Lemma iv_sqr_valid I : valid I -> valid (iv_sqr I).
Proof.
  destruct I as [a b]. unfold valid, iv_sqr. simpl. intros H.
  destruct (Rle_dec 0 a); [simpl; Lra.nra|].
  destruct (Rle_dec b 0); [simpl; Lra.nra|]. simpl.
  apply Rle_trans with (a * a); [Lra.nra | apply Rmax_l].
Qed.

Lemma iv_sqr_inside I J :
  valid I -> valid J -> inside I J -> inside (iv_sqr I) (iv_sqr J).
Proof.
  destruct I as [a b], J as [c d]. unfold valid, inside, iv_sqr. simpl.
  intros HI HJ [H1 H2].
  destruct (Rle_dec 0 a), (Rle_dec 0 c), (Rle_dec b 0), (Rle_dec d 0); simpl;
    try (split; Lra.nra);
    try (split; [Lra.nra|];
         first [ apply Rle_trans with (d * d); [Lra.nra | apply Rmax_r]
               | apply Rle_trans with (c * c); [Lra.nra | apply Rmax_l]
               | apply Rmax_lub;
                 [ apply Rle_trans with (c * c); [Lra.nra | apply Rmax_l]
                 | apply Rle_trans with (d * d); [Lra.nra | apply Rmax_r] ] ]).
Qed.

Lemma iv_sqr_nonneg I : valid I -> 0 <= fst (iv_sqr I).
Proof.
  destruct I as [a b]. unfold valid, iv_sqr. simpl. intros H.
  destruct (Rle_dec 0 a); [simpl; Lra.nra|].
  destruct (Rle_dec b 0); simpl; Lra.nra.
Qed.

(** The Gaussian factor [exp(-(I / s) ** 2)] as an interval. *)
Definition gauss (I : ivl) (s : R) : ivl := iv_exp (iv_neg (iv_sqr (iv_div I s))).

Lemma gauss_facts I J s :
  0 < s -> valid I -> valid J -> inside I J ->
  inside (gauss I s) (gauss J s) /\
  0 < fst (gauss I s) /\ fst (gauss I s) <= snd (gauss I s) /\ snd (gauss I s) <= 1.
Proof.
  intros Hs HI HJ Hin.
  destruct (iv_div_inside Hs HI HJ Hin) as (VI & VJ & Hd).
  pose proof (iv_sqr_inside VI VJ Hd) as [S1 S2].
  pose proof (iv_sqr_valid VI) as SV. pose proof (iv_sqr_nonneg VI) as S0.
  unfold gauss, inside, iv_exp, iv_neg, valid in *. cbn [fst snd].
  assert (Hmono : forall x y, x <= y -> exp x <= exp y).
  { intros x y [Hlt | ->]; [left; now apply exp_increasing | right; reflexivity]. }
  repeat split.
  - apply Hmono. Lra.lra.
  - apply Hmono. Lra.lra.
  - apply exp_pos.
  - apply Hmono. Lra.lra.
  - rewrite <- exp_0. apply Hmono. Lra.lra.
Qed.

(** Every product of members lies between the ends of [iv_mul]. *)
Lemma iv_mul_encloses a b c d x y :
  a <= x <= b -> c <= y <= d ->
  fst (iv_mul (a, b) (c, d)) <= x * y <= snd (iv_mul (a, b) (c, d)).
Proof.
  intros [Hax Hxb] [Hcy Hyd]. simpl.
  assert (Hlin : forall k, Rmin (k * c) (k * d) <= k * y <= Rmax (k * c) (k * d)).
  { intros k. destruct (Rle_dec 0 k).
    - split.
      + apply Rle_trans with (k * c); [apply Rmin_l | Lra.nra].
      + apply Rle_trans with (k * d); [Lra.nra | apply Rmax_r].
    - split.
      + apply Rle_trans with (k * d); [apply Rmin_r | Lra.nra].
      + apply Rle_trans with (k * c); [Lra.nra | apply Rmax_l]. }
  destruct (Hlin a) as [La Ua]. destruct (Hlin b) as [Lb Ub].
  destruct (Rle_dec 0 y).
  - split.
    + apply Rle_trans with (a * y); [|Lra.nra].
      apply Rle_trans with (Rmin (a * c) (a * d)); [apply Rmin_l | exact La].
    + apply Rle_trans with (b * y); [Lra.nra|].
      apply Rle_trans with (Rmax (b * c) (b * d)); [exact Ub | apply Rmax_r].
  - split.
    + apply Rle_trans with (b * y); [|Lra.nra].
      apply Rle_trans with (Rmin (b * c) (b * d)); [apply Rmin_r | exact Lb].
    + apply Rle_trans with (a * y); [Lra.nra|].
      apply Rle_trans with (Rmax (a * c) (a * d)); [exact Ua | apply Rmax_l].
Qed.

Lemma iv_mul_inside I I' J J' :
  valid I -> valid I' -> inside I J -> inside I' J' ->
  inside (iv_mul I I') (iv_mul J J').
Proof.
  destruct I as [a b], I' as [c d], J as [a' b'], J' as [c' d'].
  unfold valid, inside. simpl fst. simpl snd. intros HI HI' [H1 H2] [H3 H4].
  assert (E : forall x y, a <= x <= b -> c <= y <= d ->
                fst (iv_mul (a', b') (c', d')) <= x * y <= snd (iv_mul (a', b') (c', d'))).
  { intros x y Hx Hy. apply iv_mul_encloses; Lra.lra. }
  destruct (E a c) as [L1 U1]; [Lra.lra | Lra.lra|].
  destruct (E a d) as [L2 U2]; [Lra.lra | Lra.lra|].
  destruct (E b c) as [L3 U3]; [Lra.lra | Lra.lra|].
  destruct (E b d) as [L4 U4]; [Lra.lra | Lra.lra|].
  simpl in *. split.
  - repeat apply Rmin_glb; assumption.
  - repeat apply Rmax_lub; assumption.
Qed.

Lemma clip_mono x y : x <= y -> clip x <= clip y.
Proof.
  unfold clip. intros H. destruct (Rlt_dec x 0), (Rlt_dec y 0); Lra.lra.
Qed.

(** Inclusion isotonicity of the oracle: a smaller interval gets a
    larger lower end and a smaller upper end. *)
Lemma W_abs_iv_on_inside sigma k0 a b a' b' :
  0 < sigma -> 0 < k0 -> a <= a' -> a' <= b' -> b' <= b ->
  fst (W_abs_iv_on sigma k0 a b) <= fst (W_abs_iv_on sigma k0 a' b') /\
  snd (W_abs_iv_on sigma k0 a' b') <= snd (W_abs_iv_on sigma k0 a b).
Proof.
  intros Hs Hk H1 H2 H3. unfold W_abs_iv_on.
  set (I := iv_mpf a' b'). set (J := iv_mpf a b).
  assert (VI : valid I) by exact H2.
  assert (VJ : valid J) by (unfold valid; simpl; Lra.lra).
  assert (Hin : inside I J) by (split; assumption).
  destruct (gauss_facts Hs VI VJ Hin) as (Gin & Gpos & Gv & _).
  destruct (gauss_facts Hk VI VJ Hin) as ([N1 N2] & _ & Nv & _).
  fold (gauss I sigma) (gauss J sigma) (gauss I k0) (gauss J k0).
  assert (Hn : inside (iv_rsub 1 (gauss I k0)) (iv_rsub 1 (gauss J k0))).
  { unfold inside, iv_rsub. cbn [fst snd]. split; Lra.lra. }
  assert (Vn : valid (iv_rsub 1 (gauss I k0))).
  { unfold valid, iv_rsub. cbn [fst snd]. Lra.lra. }
  destruct (iv_mul_inside Gv Vn Gin Hn) as [M1 M2].
  split; apply clip_mono; assumption.
Qed.

(** On an interval of non-negative frequencies the lower end is the
    product of the two lower factors. *)
Lemma W_abs_iv_on_lo_nonneg sigma k0 a b :
  0 < sigma -> 0 < k0 -> 0 <= a -> a <= b ->
  fst (W_abs_iv_on sigma k0 a b) =
  exp (- (b / sigma * (b / sigma))) * (1 - exp (- (a / k0 * (a / k0)))).
Proof.
  intros Hs Hk Ha Hab. unfold W_abs_iv_on.
  assert (VI : valid (iv_mpf a b)) by exact Hab.
  rewrite !iv_div_pos. simpl fst. simpl snd.
  assert (Hq : forall s, 0 < s -> 0 <= a / s /\ a / s <= b / s).
  { intros s H. assert (0 < / s) by now apply Rinv_0_lt_compat.
    unfold Rdiv. split; Lra.nra. }
  destruct (Hq sigma Hs) as [Q1 Q2]. destruct (Hq k0 Hk) as [Q3 Q4].
  unfold iv_sqr.
  destruct (Rle_dec 0 (a / sigma)); [|contradiction].
  destruct (Rle_dec 0 (a / k0)); [|contradiction].
  unfold iv_exp, iv_neg, iv_rsub, iv_mul. simpl fst. simpl snd.
  set (g1 := exp (- (b / sigma * (b / sigma)))).
  set (g2 := exp (- (a / sigma * (a / sigma)))).
  set (e1 := exp (- (b / k0 * (b / k0)))).
  set (e2 := exp (- (a / k0 * (a / k0)))).
  assert (Hmono : forall x y, x <= y -> exp x <= exp y).
  { intros x y [Hlt | ->]; [left; now apply exp_increasing | right; reflexivity]. }
  assert (G0 : 0 < g1) by apply exp_pos.
  assert (G12 : g1 <= g2) by (apply Hmono; Lra.nra).
  assert (E12 : e1 <= e2) by (apply Hmono; Lra.nra).
  assert (E2 : e2 <= 1) by (rewrite <- exp_0; apply Hmono; Lra.nra).
  assert (P : g1 * (1 - e2) <= g1 * (1 - e1)) by Lra.nra.
  assert (P2 : g1 * (1 - e2) <= g2 * (1 - e2)) by Lra.nra.
  assert (P3 : g2 * (1 - e2) <= g2 * (1 - e1)) by Lra.nra.
  rewrite (Rmin_left (g1 * (1 - e2))) by exact P.
  rewrite (Rmin_left (g2 * (1 - e2))) by exact P3.
  rewrite Rmin_left by exact P2.
  unfold clip. destruct (Rlt_dec (g1 * (1 - e2)) 0); [Lra.nra | reflexivity].
Qed.

End IntervalFacts.

Section C7.
Import BandCert.
Local Open Scope R_scope.

(** C7 (as stated, refuted).  For the window [sigma = k0 = 1] and the
    interval [[1, 2]], the smaller of the two lower enclosures after the
    split at 3/2 is strictly above the lower enclosure of the unsplit
    interval: it does exceed it. *)
Lemma C7_split_minimum_exceeds_unsplit :
  fst (W_abs_iv_on 1 1 1 2) < split_lo 1 1 1 2.
Proof.
  unfold split_lo.
  assert (Hm : (1 + 2) / 2 = 3 / 2) by Lra.lra. rewrite Hm.
  rewrite !W_abs_iv_on_lo_nonneg by Lra.lra.
  assert (H1 : exp (- (2 / 1 * (2 / 1))) < exp (- (3 / 2 / 1 * (3 / 2 / 1))))
    by (apply exp_increasing; Lra.lra).
  assert (H2 : exp (- (3 / 2 / 1 * (3 / 2 / 1))) < exp (- (1 / 1 * (1 / 1))))
    by (apply exp_increasing; Lra.lra).
  assert (H3 : exp (- (1 / 1 * (1 / 1))) < 1)
    by (apply Rlt_le_trans with (exp 0);
        [apply exp_increasing; Lra.lra | rewrite exp_0; Lra.lra]).
  assert (H0 : 0 < exp (- (2 / 1 * (2 / 1)))) by apply exp_pos.
  set (x := exp (- (2 / 1 * (2 / 1)))) in *.
  set (y := exp (- (3 / 2 / 1 * (3 / 2 / 1)))) in *.
  set (z := exp (- (1 / 1 * (1 / 1)))) in *.
  apply Rmin_glb_lt; Lra.nra.
Qed.

(** C7 (amended).  For every window ([sigma > 0], [k0 > 0]) and every
    sub-interval [[a, b]] with midpoint [m], the smaller of the lower
    enclosures of [W_abs_iv_on(a, m)] and [W_abs_iv_on(m, b)] is never
    below the lower enclosure of [W_abs_iv_on(a, b)], and neither upper
    enclosure is above the unsplit one: bounds only tighten. *)
Theorem C7_refinement_monotone :
  forall sigma k0 a b,
    0 < sigma -> 0 < k0 -> a <= b ->
    let m := (a + b) / 2 in
    fst (W_abs_iv_on sigma k0 a b) <= split_lo sigma k0 a b /\
    snd (W_abs_iv_on sigma k0 a m) <= snd (W_abs_iv_on sigma k0 a b) /\
    snd (W_abs_iv_on sigma k0 m b) <= snd (W_abs_iv_on sigma k0 a b).
Proof.
  intros sigma k0 a b Hs Hk Hab m.
  assert (Ham : a <= m) by (unfold m; Lra.lra).
  assert (Hmb : m <= b) by (unfold m; Lra.lra).
  destruct (@W_abs_iv_on_inside sigma k0 a b a m Hs Hk) as [L1 U1]; try Lra.lra.
  destruct (@W_abs_iv_on_inside sigma k0 a b m b Hs Hk) as [L2 U2]; try Lra.lra.
  unfold split_lo. fold m. split; [now apply Rmin_glb|]. split; assumption.
Qed.

(** C7 (amended) at [sigma = k0 = 1] and [[1, 2]]. *)
Lemma C7_refinement_monotone_witness :
  fst (W_abs_iv_on 1 1 1 2) <= split_lo 1 1 1 2.
Proof.
  apply (@C7_refinement_monotone 1 1 1 2); Lra.lra.
Defined.

End C7.
(** ** Certificate digests ([write_json] of the tools) *)

Section DictFacts.
Import Py.

Lemma dict_get_set k v d : dict_get k (dict_set k v d) = Some v.
Proof.
  induction d as [|[k' v'] d IH]; simpl.
  - now rewrite String.eqb_refl.
  - destruct (String.eqb k k') eqn:E; simpl; rewrite ?String.eqb_refl, ?E; auto.
Qed.

Lemma dict_set_set k v w d : dict_set k v (dict_set k w d) = dict_set k v d.
Proof.
  induction d as [|[k' v'] d IH]; simpl.
  - now rewrite String.eqb_refl.
  - destruct (String.eqb k k') eqn:E; simpl; rewrite ?String.eqb_refl, ?E;
      [reflexivity | now rewrite IH].
Qed.

Lemma dict_pop_set k v d : dict_pop k (dict_set k v d) = dict_pop k d.
Proof.
  induction d as [|[k' v'] d IH]; simpl.
  - now rewrite String.eqb_refl.
  - destruct (String.eqb k k') eqn:E; simpl; rewrite ?String.eqb_refl, ?E;
      [reflexivity | now rewrite IH].
Qed.

Lemma dict_pop_absent k d : dict_get k d = None -> dict_pop k d = d.
Proof.
  induction d as [|[k' v'] d IH]; simpl; [reflexivity|].
  destruct (String.eqb k k'); [discriminate|]. intros H. now rewrite IH.
Qed.

Lemma dict_set_same k v d : dict_get k d = Some v -> dict_set k v d = d.
Proof.
  induction d as [|[k' v'] d IH]; simpl; [discriminate|].
  destruct (String.eqb k k') eqn:E.
  - intros H. inversion H. apply String.eqb_eq in E. now subst.
  - intros H. now rewrite IH.
Qed.

Lemma ensure_meta_dict payload :
  exists meta, dict_get "meta" (ensure_meta payload) = Some (JDict meta).
Proof.
  unfold ensure_meta.
  destruct (dict_get "meta" payload) as [[]|] eqn:E;
    try (rewrite dict_get_set; eauto). eauto.
Qed.

End DictFacts.

Section C4.
Import Py.

(** The digest a certificate carries. *)
Definition stored_sha256 (cert : list (string * json)) : option string :=
  match dict_get "meta" cert with
  | Some (JDict meta) =>
      match dict_get "sha256" meta with
      | Some (JStr s) => Some s
      | _ => None
      end
  | _ => None
  end.

(** Re-hashing a loaded certificate: [meta.sha256] is removed and the
    rest is serialized with the given options.  A certificate file read
    back with [json.load] is taken to give the value that was written. *)
Definition rehash_removed (o : Json.options) (cert : list (string * json)) : string :=
  Sha256.hexdigest (Json.dumps o (JDict (pop_meta "sha256" cert))).

(** Re-hashing with [meta.sha256] set to the empty string instead. *)
Definition rehash_emptied (o : Json.options) (cert : list (string * json)) : string :=
  Sha256.hexdigest (Json.dumps o (JDict (set_meta "sha256" (JStr EmptyString) cert))).

(** A small [band_cert] payload, as [main] of [band_cert.py] builds it:
    its [meta] has [tool] and [dps] and no digest. *)
Definition band_payload : list (string * json) :=
  [("kind", JStr "band_cert");
   ("numbers", JDict [("band_margin_lo", JStr "0.5"); ("bands_count", JInt 1)]);
   ("PASS", JBool true);
   ("meta", JDict [("tool", JStr "band_cert"); ("dps", JInt 220)])].

(** A small [analytic_bounds] payload: [meta.sha256] is the empty string
    before the first write. *)
Definition analytic_payload : list (string * json) :=
  [("kind", JStr "analytic_bounds");
   ("eps_eff_lo", JStr "0.5");
   ("meta", JDict [("tool", JStr "analytic_bounds"); ("dps", JStr "220");
                   ("sha256", JStr EmptyString)])].

Lemma stored_set_meta payload meta s :
  dict_get "meta" payload = Some (JDict meta) ->
  stored_sha256 (set_meta "sha256" (JStr s) payload) = Some s.
Proof.
  intros H. unfold stored_sha256, set_meta. rewrite H, dict_get_set, dict_get_set.
  reflexivity.
Qed.

Lemma pop_set_meta payload meta v :
  dict_get "meta" payload = Some (JDict meta) ->
  pop_meta "sha256" (set_meta "sha256" v payload) = pop_meta "sha256" payload.
Proof.
  intros H. unfold pop_meta, set_meta. rewrite H, dict_get_set, dict_set_set, dict_pop_set.
  reflexivity.
Qed.

Lemma pop_meta_absent payload meta :
  dict_get "meta" payload = Some (JDict meta) -> dict_get "sha256" meta = None ->
  pop_meta "sha256" payload = payload.
Proof.
  intros H Hn. unfold pop_meta. rewrite H, (dict_pop_absent _ _ Hn).
  now apply dict_set_same.
Qed.

Lemma set_set_meta payload meta v w :
  dict_get "meta" payload = Some (JDict meta) ->
  set_meta "sha256" v (set_meta "sha256" w payload) = set_meta "sha256" v payload.
Proof.
  intros H. unfold set_meta. rewrite H, dict_get_set, !dict_set_set. reflexivity.
Qed.

Lemma set_meta_same payload meta v :
  dict_get "meta" payload = Some (JDict meta) -> dict_get "sha256" meta = Some v ->
  set_meta "sha256" v payload = payload.
Proof.
  intros H Hv. unfold set_meta. rewrite H, (dict_set_same _ _ Hv).
  now apply dict_set_same.
Qed.

(** C4 (as stated, refuted).  The certificate that [band_cert.py] writes
    carries the digest of its [indent=2] serialization: removing
    [meta.sha256] and hashing the canonical compact sorted serialization
    gives another value.  The certificate that [analytic_bounds.py]
    writes carries a digest taken with [meta.sha256] present and empty:
    removing the field and hashing the tool's own serialization gives
    another value. *)
Lemma C4_digest_not_reproduced :
  stored_sha256 (BandCert.write_json band_payload)
  <> Some (rehash_removed Json.compact_sorted (BandCert.write_json band_payload)) /\
  stored_sha256 (AnalyticBounds.stamp analytic_payload)
  <> Some (rehash_removed Json.indent2 (AnalyticBounds.stamp analytic_payload)).
Proof.
  split; vm_compute; discriminate.
Qed.

(** C4 (amended).  For a certificate written by the [write_json] of
    [rolling_T_uniform_cert_v3.py] (the same body serves the other
    remove-and-hash writers), removing [meta.sha256] and hashing the
    canonical compact sorted serialization reproduces the stored digest,
    whatever the payload.  For [band_cert.py], whose payload carries no
    [meta.sha256], removing the field and hashing the [indent=2] sorted
    serialization reproduces it.  For [analytic_bounds.py], whose payload
    carries an empty [meta.sha256], setting the field back to the empty
    string and hashing the [indent=2] serialization reproduces it. *)
Theorem C4_hash_round_trip :
  (forall payload,
     stored_sha256 (RollingT.write_json payload)
     = Some (rehash_removed Json.compact_sorted (RollingT.write_json payload))) /\
  (forall obj,
     (forall meta, dict_get "meta" obj = Some (JDict meta) ->
                   dict_get "sha256" meta = None) ->
     stored_sha256 (BandCert.write_json obj)
     = Some (rehash_removed Json.indent2_sorted (BandCert.write_json obj))) /\
  (forall payload meta,
     dict_get "meta" payload = Some (JDict meta) ->
     dict_get "sha256" meta = Some (JStr EmptyString) ->
     stored_sha256 (AnalyticBounds.stamp payload)
     = Some (rehash_emptied Json.indent2 (AnalyticBounds.stamp payload))).
Proof.
  split; [|split].
  - intros payload. unfold RollingT.write_json, rehash_removed.
    destruct (ensure_meta_dict payload) as (meta & Hm).
    rewrite (stored_set_meta _ _ Hm), (pop_set_meta _ _ Hm). reflexivity.
  - intros obj Hfresh. unfold BandCert.write_json, rehash_removed.
    destruct (ensure_meta_dict obj) as (meta & Hm).
    rewrite (stored_set_meta _ _ Hm), (pop_set_meta _ _ Hm).
    assert (Hn : dict_get "sha256" meta = None).
    { unfold ensure_meta in Hm.
      destruct (dict_get "meta" obj) as [[]|] eqn:E;
        try (rewrite dict_get_set in Hm; inversion Hm; reflexivity).
      rewrite E in Hm. inversion Hm; subst. now apply Hfresh. }
    rewrite (pop_meta_absent _ Hm Hn). reflexivity.
  - intros payload meta Hm He. unfold AnalyticBounds.stamp, rehash_emptied.
    rewrite (stored_set_meta _ _ Hm), (set_set_meta _ _ _ Hm).
    rewrite (set_meta_same _ Hm He). reflexivity.
Qed.

(** C4 (amended) at the [band_cert] and [analytic_bounds] payloads. *)
Lemma C4_hash_round_trip_witness :
  stored_sha256 (BandCert.write_json band_payload)
  = Some (rehash_removed Json.indent2_sorted (BandCert.write_json band_payload)) /\
  stored_sha256 (AnalyticBounds.stamp analytic_payload)
  = Some (rehash_emptied Json.indent2 (AnalyticBounds.stamp analytic_payload)).
Proof.
  split.
  - apply (proj1 (proj2 C4_hash_round_trip) band_payload).
    intros meta H. vm_compute in H. inversion H. reflexivity.
  - apply (proj2 (proj2 C4_hash_round_trip) analytic_payload
                 [("tool", JStr "analytic_bounds"); ("dps", JStr "220");
                  ("sha256", JStr EmptyString)]); reflexivity.
Defined.

End C4.
(** * Further properties *)

(** ** [band_cert.py]: the oracle and the subdivision search *)

Section OracleContract.
Import BandCert.
Local Open Scope R_scope.

(** The window the oracle bounds: a Gaussian envelope times the notch. *)
Definition window (sigma k0 x : R) : R :=
  exp (- (x / sigma * (x / sigma))) * (1 - exp (- (x / k0 * (x / k0)))).

Lemma window_nonneg sigma k0 x : 0 <= window sigma k0 x.
Proof.
  unfold window.
  assert (H1 : 0 < exp (- (x / sigma * (x / sigma)))) by apply exp_pos.
  assert (H2 : exp (- (x / k0 * (x / k0))) <= 1).
  { rewrite <- exp_0.
    assert (H : - (x / k0 * (x / k0)) <= 0) by (generalize (x / k0); intros; Lra.nra).
    destruct H as [H | H]; [left; now apply exp_increasing | right; now rewrite H]. }
  Lra.nra.
Qed.

(** On a point the oracle returns the value of the window. *)
Lemma W_abs_iv_on_point sigma k0 x :
  W_abs_iv_on sigma k0 x x = (window sigma k0 x, window sigma k0 x).
Proof.
  unfold W_abs_iv_on, iv_mpf, iv_div. cbn [fst snd].
  assert (Hsq : forall q, iv_sqr (q, q) = (q * q, q * q)).
  { intros q. unfold iv_sqr. destruct (Rle_dec 0 q); [reflexivity|].
    destruct (Rle_dec q 0); [reflexivity|]. exfalso. Lra.lra. }
  rewrite !Hsq. unfold iv_exp, iv_neg, iv_rsub, iv_mul. cbn [fst snd].
  fold (window sigma k0 x).
  assert (Hmin : forall p, Rmin (Rmin p p) (Rmin p p) = p).
  { intros p. unfold Rmin. destruct (Rle_dec p p); destruct (Rle_dec p p); reflexivity. }
  assert (Hmax : forall p, Rmax (Rmax p p) (Rmax p p) = p).
  { intros p. unfold Rmax. destruct (Rle_dec p p); destruct (Rle_dec p p); reflexivity. }
  rewrite Hmin, Hmax. pose proof (window_nonneg sigma k0 x) as H0.
  unfold clip. destruct (Rlt_dec (window sigma k0 x) 0); [exfalso; Lra.lra | reflexivity].
Qed.

Lemma window_enclosed sigma k0 a b x :
  0 < sigma -> 0 < k0 -> a <= x -> x <= b ->
  0 <= fst (W_abs_iv_on sigma k0 a b) /\
  fst (W_abs_iv_on sigma k0 a b) <= Rabs (window sigma k0 x) /\
  Rabs (window sigma k0 x) <= snd (W_abs_iv_on sigma k0 a b).
Proof.
  intros Hs Hk Hax Hxb.
  destruct (@W_abs_iv_on_inside sigma k0 a b x x Hs Hk Hax (Rle_refl x) Hxb) as [Hlo Hhi].
  rewrite W_abs_iv_on_point in Hlo, Hhi. cbn [fst snd] in Hlo, Hhi.
  rewrite (Rabs_pos_eq _ (window_nonneg sigma k0 x)).
  split; [|split; assumption].
  unfold W_abs_iv_on. cbn [fst]. unfold clip.
  destruct (Rlt_dec _ 0); Lra.lra.
Qed.

(** X1.  The oracle keeps its contract: for a window with [sigma > 0]
    and [k0 > 0] and every [x] of [[a, b]],
    [0 <= lo <= |W(x)| <= hi]. *)
Theorem oracle_encloses_window :
  forall sigma k0 a b x,
    0 < sigma -> 0 < k0 -> a <= x -> x <= b ->
    0 <= fst (W_abs_iv_on sigma k0 a b) /\
    fst (W_abs_iv_on sigma k0 a b) <= Rabs (window sigma k0 x) /\
    Rabs (window sigma k0 x) <= snd (W_abs_iv_on sigma k0 a b).
Proof.
  intros sigma k0 a b x Hs Hk Hax Hxb. now apply window_enclosed.
Qed.

Lemma oracle_encloses_window_witness :
  0 <= fst (W_abs_iv_on 1 1 1 2) /\
  fst (W_abs_iv_on 1 1 1 2) <= Rabs (window 1 1 (3 / 2)) /\
  Rabs (window 1 1 (3 / 2)) <= snd (W_abs_iv_on 1 1 1 2).
Proof.
  apply (@oracle_encloses_window 1 1 1 2 (3 / 2)); Lra.lra.
Defined.

End OracleContract.

Section SearchFacts.
Import BandCert.
Local Open Scope R_scope.

Variable oracle : R -> R -> R * R.
Variable to_float : R -> R.
Variable tol : R.
Variable max_parts : Z.

Local Abbreviation pop := (heappop to_float).
Local Abbreviation loop := (search oracle to_float tol max_parts).

Lemma heappop_some q x : exists m rest, pop (x :: q) = Some (m, rest).
Proof.
  revert x. induction q as [|y q IH]; intros x; simpl.
  - eauto.
  - destruct (IH y) as (m & rest & E). simpl in E. rewrite E.
    destruct (entry_lt to_float m x); eauto.
Qed.

Lemma heappop_spec q : forall m rest,
  pop q = Some (m, rest) ->
  In m q /\ (forall y, In y rest -> In y q) /\ S (List.length rest) = List.length q.
Proof.
  induction q as [|x q IH]; intros m rest H; simpl in H; [discriminate|].
  destruct (pop q) as [[m' rest']|] eqn:E.
  - destruct (IH m' rest' eq_refl) as (Hin & Hsub & Hlen).
    destruct (entry_lt to_float m' x); inversion H; subst; simpl.
    + split; [now right|]. split; [|lia].
      intros y [<-|Hy]; [now left | right; now apply Hsub].
    + split; [now left|]. split; [|reflexivity]. intros y Hy. now right.
  - inversion H; subst. simpl. split; [now left|]. split; [intros y []|].
    destruct q as [|e q]; [reflexivity|].
    destruct (heappop_some q e) as (m' & r' & E'). rewrite E' in E. discriminate.
Qed.

(** The passes are bounded: more fuel changes nothing. *)
Lemma search_fuel fuel : forall st,
  (3 * Z.to_nat (max_parts + 1 - parts st) + List.length (pq st) <= fuel)%nat ->
  loop (S fuel) st = loop fuel st.
Proof.
  induction fuel as [|f IH]; intros st Hf.
  - assert (Hq : pq st = []) by (destruct (pq st); [reflexivity | simpl in Hf; lia]).
    simpl. rewrite Hq. simpl. destruct (parts st <=? max_parts)%Z; reflexivity.
  - change (loop (S (S f)) st) with
      (if (parts st <=? max_parts)%Z then
         match pop (pq st) with
         | None => (best_lo st, best_hi st)
         | Some ((a, b, lo, hi), rest) =>
             let best_lo' := if below lo (best_lo st) then RFin lo else best_lo st in
             let best_hi' := if below hi (best_hi st) then RFin hi else best_hi st in
             let split := if Rle_dec (hi - lo) tol then false else true in
             let mid := (a + b) / 2 in
             let pq' := if split then push oracle mid b (push oracle a mid rest) else rest in
             let parts' := if split then (parts st + 1)%Z else parts st in
             if close_enough best_hi' best_lo' tol then (best_lo', best_hi')
             else loop (S f) {| pq := pq'; best_lo := best_lo';
                                best_hi := best_hi'; parts := parts' |}
         end
       else (best_lo st, best_hi st)).
    simpl (loop (S f) st).
    destruct (Z.leb_spec (parts st) max_parts) as [Hp|Hp]; [|reflexivity].
    destruct (pop (pq st)) as [[[[[a b] lo] hi] rest]|] eqn:E; [|reflexivity].
    destruct (heappop_spec _ E) as (_ & _ & Hlen).
    cbv zeta. destruct (close_enough _ _ tol); [reflexivity|].
    apply IH. simpl.
    destruct (Rle_dec (hi - lo) tol); simpl.
    + lia.
    + unfold push. destruct (oracle a ((a + b) / 2)), (oracle ((a + b) / 2) b).
      simpl. lia.
Qed.

Lemma search_fuel_plus k : forall fuel st,
  (3 * Z.to_nat (max_parts + 1 - parts st) + List.length (pq st) <= fuel)%nat ->
  loop (k + fuel) st = loop fuel st.
Proof.
  induction k as [|k IH]; intros fuel st Hf; [reflexivity|].
  simpl plus. rewrite search_fuel by lia. now apply IH.
Qed.

(** Every queue entry is a piece of [[bl, br]] with the oracle's bounds. *)
Definition piece (bl br : R) (e : entry) : Prop :=
  let '(a, b, lo, hi) := e in
  bl <= a /\ a <= b /\ b <= br /\ oracle a b = (lo, hi).

Section Invariants.

Variables (bl br : R).
Hypothesis HLR : bl <= br.

(** The lower end of the oracle does not decrease on a piece. *)
Hypothesis lower_isotone :
  forall a b, bl <= a -> a <= b -> b <= br -> fst (oracle bl br) <= fst (oracle a b).

Lemma piece_push a b pq0 :
  bl <= a -> a <= b -> b <= br ->
  (forall e, In e pq0 -> piece bl br e) ->
  forall e, In e (push oracle a b pq0) -> piece bl br e.
Proof.
  intros H1 H2 H3 Hq e. unfold push. destruct (oracle a b) as [lo hi] eqn:E.
  intros [<-|He]; [|now apply Hq]. simpl. auto.
Qed.

(** Once the root was popped the lower bound stays at the root's. *)
Lemma search_keeps_root_lo fuel : forall st,
  best_lo st = RFin (fst (oracle bl br)) ->
  (forall e, In e (pq st) -> piece bl br e) ->
  fst (loop fuel st) = RFin (fst (oracle bl br)).
Proof.
  induction fuel as [|f IH]; intros st Hb Hq; simpl; [exact Hb|].
  destruct (parts st <=? max_parts)%Z; [|exact Hb].
  destruct (pop (pq st)) as [[[[[a b] lo] hi] rest]|] eqn:E; [|exact Hb].
  destruct (heappop_spec _ E) as (Hin & Hsub & _).
  pose proof (Hq _ Hin) as (Ha & Hab & HbR & Ho).
  assert (Hlo : fst (oracle bl br) <= lo).
  { pose proof (lower_isotone Ha Hab HbR) as H. rewrite Ho in H. exact H. }
  cbv zeta.
  assert (Hkeep : (if below lo (best_lo st) then RFin lo else best_lo st)
                  = RFin (fst (oracle bl br))).
  { rewrite Hb. simpl. destruct (Rlt_dec lo (fst (oracle bl br))); [exfalso; Lra.lra|].
    reflexivity. }
  rewrite Hkeep. destruct (close_enough _ _ tol); [reflexivity|].
  apply IH; simpl; [reflexivity|].
  assert (Hrest : forall e, In e rest -> piece bl br e) by (intros e He; apply Hq, Hsub, He).
  destruct (Rle_dec (hi - lo) tol); [exact Hrest|].
  apply piece_push; try Lra.lra. apply piece_push; try Lra.lra. exact Hrest.
Qed.

Lemma band_min_bounds_lo :
  (1 <= max_parts)%Z ->
  fst (band_min_bounds oracle to_float tol max_parts bl br) = RFin (fst (oracle bl br)).
Proof.
  intros Hm. unfold band_min_bounds.
  destruct (Z.to_nat (3 * max_parts + 1)) as [|f] eqn:Ef; [lia|].
  pose proof (@search_keeps_root_lo f) as Hk.
  unfold push. destruct (oracle bl br) as [lo hi] eqn:Eo.
  cbn [search pq parts best_lo best_hi heappop].
  destruct (Z.leb_spec 1 max_parts); [|lia].
  cbn [below]. cbv zeta.
  destruct (close_enough (RFin hi) (RFin lo) tol); [reflexivity|].
  cbn [fst] in Hk.
  apply Hk; simpl; [reflexivity|].
  assert (Hnil : forall e : entry, In e [] -> piece bl br e) by (intros e []).
  destruct (Rle_dec (hi - lo) tol); [exact Hnil|].
  apply piece_push; try Lra.lra. apply piece_push; try Lra.lra. exact Hnil.
Qed.

(** The function whose minimum is bounded, enclosed by the oracle. *)
Variable f : R -> R.
Hypothesis encloses :
  forall a b x, bl <= a -> a <= x -> x <= b -> b <= br ->
                fst (oracle a b) <= f x <= snd (oracle a b).

(** [hi] is reached: some point of [[bl, br]] has a value not above it. *)
Definition reached (h : rext) : Prop :=
  match h with
  | RFin v => exists x, bl <= x <= br /\ f x <= v
  | RInf => True
  end.

Lemma search_hi_reached fuel : forall st,
  reached (best_hi st) ->
  (forall e, In e (pq st) -> piece bl br e) ->
  reached (snd (loop fuel st)).
Proof.
  induction fuel as [|n IH]; intros st Hb Hq; simpl; [exact Hb|].
  destruct (parts st <=? max_parts)%Z; [|exact Hb].
  destruct (pop (pq st)) as [[[[[a b] lo] hi] rest]|] eqn:E; [|exact Hb].
  destruct (heappop_spec _ E) as (Hin & Hsub & _).
  pose proof (Hq _ Hin) as (Ha & Hab & HbR & Ho).
  cbv zeta.
  assert (Hnew : reached (if below hi (best_hi st) then RFin hi else best_hi st)).
  { destruct (below hi (best_hi st)); [|exact Hb].
    exists a. split; [Lra.lra|].
    pose proof (@encloses a b a Ha (Rle_refl a) Hab HbR) as H. rewrite Ho in H.
    simpl in H. Lra.lra. }
  destruct (close_enough _ _ tol); [exact Hnew|].
  apply IH; simpl; [exact Hnew|].
  assert (Hrest : forall e, In e rest -> piece bl br e) by (intros e He; apply Hq, Hsub, He).
  destruct (Rle_dec (hi - lo) tol); [exact Hrest|].
  apply piece_push; try Lra.lra. apply piece_push; try Lra.lra. exact Hrest.
Qed.

Lemma band_min_bounds_hi :
  reached (snd (band_min_bounds oracle to_float tol max_parts bl br)).
Proof.
  unfold band_min_bounds. apply search_hi_reached; simpl; [exact I|].
  apply piece_push; try Lra.lra. intros e [].
Qed.

End Invariants.

(** A finite [best_hi] stays finite. *)
Definition finite (h : rext) : Prop := exists v, h = RFin v.

Lemma search_hi_finite fuel : forall st,
  finite (best_hi st) -> finite (snd (loop fuel st)).
Proof.
  induction fuel as [|n IH]; intros st Hb; simpl; [exact Hb|].
  destruct (parts st <=? max_parts)%Z; [|exact Hb].
  destruct (pop (pq st)) as [[[[[a b] lo] hi] rest]|] eqn:E; [|exact Hb].
  cbv zeta.
  assert (Hnew : finite (if below hi (best_hi st) then RFin hi else best_hi st)).
  { destruct (below hi (best_hi st)); [now exists hi | exact Hb]. }
  destruct (close_enough _ _ tol); [exact Hnew|].
  apply IH. exact Hnew.
Qed.

Lemma band_min_bounds_hi_finite bl br :
  (1 <= max_parts)%Z ->
  finite (snd (band_min_bounds oracle to_float tol max_parts bl br)).
Proof.
  intros Hm. unfold band_min_bounds.
  destruct (Z.to_nat (3 * max_parts + 1)) as [|n] eqn:Ef; [lia|].
  unfold push. destruct (oracle bl br) as [lo hi].
  cbn [search pq parts best_lo best_hi heappop].
  destruct (Z.leb_spec 1 max_parts); [|lia].
  cbn [below]. cbv zeta.
  destruct (close_enough (RFin hi) (RFin lo) tol); [now exists hi|].
  apply search_hi_finite. simpl. now exists hi.
Qed.

(** With no budget the loop body never runs. *)
Lemma band_min_bounds_unrun bl br :
  (max_parts < 1)%Z ->
  band_min_bounds oracle to_float tol max_parts bl br = (RInf, RInf).
Proof.
  intros Hm. unfold band_min_bounds.
  destruct (Z.to_nat (3 * max_parts + 1)) as [|n]; [reflexivity|].
  cbn [search parts]. destruct (Z.leb_spec 1 max_parts); [lia | reflexivity].
Qed.

(** The smaller of two extended values, as the band loop keeps it. *)
Definition ext_min (acc x : rext) : rext := if ext_lt x acc then x else acc.

Lemma band_margin_fst bands : forall acc,
  fst (fold_left (fun acc band =>
               let '(glo_lo, glo_hi) := acc in
               let '(lo, hi) := band_min_bounds oracle to_float tol max_parts
                                                (fst band) (snd band) in
               (if ext_lt lo glo_lo then lo else glo_lo,
                if ext_lt hi glo_hi then hi else glo_hi)) bands acc)
  = fold_left (fun g band =>
       ext_min g (fst (band_min_bounds oracle to_float tol max_parts
                                       (fst band) (snd band)))) bands (fst acc).
Proof.
  induction bands as [|band bands IH]; intros [g h]; [reflexivity|].
  cbn [fold_left]. rewrite IH.
  destruct (band_min_bounds oracle to_float tol max_parts (fst band) (snd band));
    reflexivity.
Qed.

(** [0 < g] for an extended value, [mp.inf] included. *)
Definition positive (g : rext) : Prop :=
  match g with RInf => True | RFin x => 0 < x end.

Lemma ext_min_positive g x : positive (ext_min g x) <-> positive g /\ positive x.
Proof.
  unfold ext_min, ext_lt.
  destruct x as [u|], g as [v|]; simpl; try tauto.
  destruct (Rlt_dec u v); simpl; split; intros; try tauto; split; try tauto; Lra.lra.
Qed.

Lemma fold_min_positive (los : list rext) : forall g,
  positive (fold_left ext_min los g) <-> positive g /\ Forall positive los.
Proof.
  induction los as [|x los IH]; intros g; cbn [fold_left].
  - split; [intros H; split; [exact H | constructor] | tauto].
  - rewrite IH, ext_min_positive. split.
    + intros [[Hg Hx] Hl]. split; [exact Hg | now constructor].
    + intros [Hg Hl]. inversion Hl; subst. tauto.
Qed.

Lemma fold_min_lower (los : list rext) : forall g m,
  fold_left ext_min los g = RFin m ->
  (forall v, g = RFin v -> m <= v) /\
  (forall lo v, In lo los -> lo = RFin v -> m <= v).
Proof.
  induction los as [|x los IH]; intros g m Hf; cbn [fold_left] in Hf.
  - split; [intros v Hv; rewrite Hv in Hf; inversion Hf; Lra.lra | intros lo v []].
  - destruct (IH _ _ Hf) as [Hg Hl].
    assert (Hmin : (forall v, g = RFin v -> m <= v) /\ (forall v, x = RFin v -> m <= v)).
    { unfold ext_min, ext_lt in Hg. destruct x as [u|], g as [w|].
      - destruct (Rlt_dec u w) as [Hlt | Hge].
        + pose proof (Hg u eq_refl). split; intros v Hv; inversion Hv; subst; Lra.lra.
        + pose proof (Hg w eq_refl). split; intros v Hv; inversion Hv; subst; Lra.lra.
      - pose proof (Hg u eq_refl). split; intros v Hv; inversion Hv; subst; Lra.lra.
      - pose proof (Hg w eq_refl). split; intros v Hv; inversion Hv; subst; Lra.lra.
      - split; intros v Hv; discriminate. }
    destruct Hmin as [H1 H2]. split; [exact H1|].
    intros lo v [<- | Hin] Hv; [now apply H2 | now apply (Hl lo)].
Qed.

Lemma band_margin_lower bands m band v :
  fst (band_margin oracle to_float tol max_parts bands) = RFin m ->
  In band bands ->
  fst (band_min_bounds oracle to_float tol max_parts (fst band) (snd band)) = RFin v ->
  m <= v.
Proof.
  unfold band_margin. rewrite band_margin_fst. cbn [fst].
  set (lo_of := fun band : R * R =>
     fst (band_min_bounds oracle to_float tol max_parts (fst band) (snd band))).
  assert (Hmap : forall g, fold_left (fun g band => ext_min g (lo_of band)) bands g
                           = fold_left ext_min (map lo_of bands) g).
  { induction bands as [|b bs IH]; intros g; [reflexivity|]. simpl. apply IH. }
  fold lo_of. rewrite Hmap. intros Hf Hin Hv.
  destruct (fold_min_lower _ _ Hf) as [_ Hl].
  apply (Hl (lo_of band)); [now apply in_map | exact Hv].
Qed.

Lemma PASS_bool_positive bands :
  PASS_bool oracle to_float tol max_parts bands = true <->
  Forall (fun band => positive (fst (band_min_bounds oracle to_float tol max_parts
                                                     (fst band) (snd band)))) bands.
Proof.
  unfold PASS_bool, band_margin. rewrite band_margin_fst. cbn [fst].
  set (lo_of := fun band : R * R =>
     fst (band_min_bounds oracle to_float tol max_parts (fst band) (snd band))).
  assert (Hmap : forall g, fold_left (fun g band => ext_min g (lo_of band)) bands g
                           = fold_left ext_min (map lo_of bands) g).
  { induction bands as [|b bs IH]; intros g; [reflexivity|]. simpl. apply IH. }
  fold lo_of. rewrite Hmap.
  pose proof (fold_min_positive (map lo_of bands) RInf) as Hp.
  rewrite Forall_map in Hp.
  destruct (fold_left ext_min (map lo_of bands) RInf) as [x|]; simpl in Hp.
  - destruct (Rlt_dec 0 x).
    + split; [intros _; now apply Hp | reflexivity].
    + split; [discriminate | intros H; exfalso; apply n; apply Hp; split; [exact I | exact H]].
  - split; [intros _; now apply Hp | reflexivity].
Qed.

End SearchFacts.
Section BandTheorems.
Import BandCert.
Local Open Scope R_scope.

Lemma window_lo_unsplit sigma k0 to_float tol max_parts bl br :
  0 < sigma -> 0 < k0 -> bl <= br -> (1 <= max_parts)%Z ->
  fst (band_min_bounds (W_abs_iv_on sigma k0) to_float tol max_parts bl br)
  = RFin (fst (W_abs_iv_on sigma k0 bl br)).
Proof.
  intros Hs Hk Hlr Hm.
  apply band_min_bounds_lo; [exact Hlr | | exact Hm].
  intros a b Ha Hab Hb.
  exact (proj1 (@W_abs_iv_on_inside sigma k0 bl br a b Hs Hk Ha Hab Hb)).
Qed.

(** X2.  Subdivision never raises the certified lower bound: for a
    window with [sigma > 0], [k0 > 0], a band [L <= R] and a budget
    [max_parts >= 1], the [lo] that [band_min_bounds] returns is the
    lower enclosure of the unsplit band, whatever [tol] and the budget
    are. *)
Theorem band_min_bounds_lo_is_unsplit :
  forall sigma k0 to_float tol max_parts bl br,
    0 < sigma -> 0 < k0 -> bl <= br -> (1 <= max_parts)%Z ->
    fst (band_min_bounds (W_abs_iv_on sigma k0) to_float tol max_parts bl br)
    = RFin (fst (W_abs_iv_on sigma k0 bl br)).
Proof.
  intros sigma k0 to_float tol max_parts bl br Hs Hk Hlr Hm.
  now apply window_lo_unsplit.
Qed.

Lemma band_min_bounds_lo_is_unsplit_witness :
  fst (band_min_bounds (W_abs_iv_on 1 1) (fun x => x) (1 / 10) 8 1 2)
  = RFin (fst (W_abs_iv_on 1 1 1 2)).
Proof.
  apply (@band_min_bounds_lo_is_unsplit 1 1 (fun x => x) (1 / 10) 8 1 2);
    try Lra.lra; lia.
Defined.

(** X3.  The pair [band_min_bounds] returns encloses the minimum of
    [|W|] on the band: both ends are finite, [lo] is below [|W(x)|] at
    every point of [[L, R]], and [|W|] is at most [hi] at some point of
    [[L, R]]. *)
Theorem band_min_bounds_encloses_minimum :
  forall sigma k0 to_float tol max_parts bl br,
    0 < sigma -> 0 < k0 -> bl <= br -> (1 <= max_parts)%Z ->
    exists lo hi,
      band_min_bounds (W_abs_iv_on sigma k0) to_float tol max_parts bl br
      = (RFin lo, RFin hi) /\
      (forall x, bl <= x <= br -> lo <= Rabs (window sigma k0 x)) /\
      (exists x, bl <= x <= br /\ Rabs (window sigma k0 x) <= hi).
Proof.
  intros sigma k0 to_float tol max_parts bl br Hs Hk Hlr Hm.
  pose proof (@window_lo_unsplit sigma k0 to_float tol max_parts
                bl br Hs Hk Hlr Hm) as Hlo.
  pose proof (@band_min_bounds_hi_finite (W_abs_iv_on sigma k0) to_float tol
                max_parts bl br Hm) as [hi Hhi].
  assert (Henc : forall a b x, bl <= a -> a <= x -> x <= b -> b <= br ->
            fst (W_abs_iv_on sigma k0 a b) <= Rabs (window sigma k0 x)
            <= snd (W_abs_iv_on sigma k0 a b)).
  { intros a b x _ Hax Hxb _.
    destruct (@window_enclosed sigma k0 a b x Hs Hk Hax Hxb) as (_ & H1 & H2).
    split; assumption. }
  pose proof (@band_min_bounds_hi (W_abs_iv_on sigma k0) to_float tol max_parts
                bl br Hlr (fun x => Rabs (window sigma k0 x)) Henc) as Hre.
  destruct (band_min_bounds (W_abs_iv_on sigma k0) to_float tol max_parts bl br)
    as [l h] eqn:E.
  cbn [fst snd] in Hlo, Hhi, Hre. subst l h.
  exists (fst (W_abs_iv_on sigma k0 bl br)), hi. split; [reflexivity|]. split.
  - intros x [Hx1 Hx2].
    destruct (@window_enclosed sigma k0 bl br x Hs Hk Hx1 Hx2) as (_ & H1 & _).
    exact H1.
  - exact Hre.
Qed.

Lemma band_min_bounds_encloses_minimum_witness :
  exists lo hi,
    band_min_bounds (W_abs_iv_on 1 1) (fun x => x) (1 / 10) 8 1 2
    = (RFin lo, RFin hi) /\
    (forall x, 1 <= x <= 2 -> lo <= Rabs (window 1 1 x)) /\
    (exists x, 1 <= x <= 2 /\ Rabs (window 1 1 x) <= hi).
Proof.
  apply (@band_min_bounds_encloses_minimum 1 1 (fun x => x) (1 / 10) 8 1 2);
    try Lra.lra; lia.
Defined.

(** X4.  A budget [max_parts < 1] certifies everything: the loop body
    never runs, every band reports [(inf, inf)], and [PASS_bool] is
    true for every oracle and every list of bands. *)
Theorem no_budget_passes :
  forall oracle to_float tol max_parts bands,
    (max_parts < 1)%Z ->
    (forall bl br, band_min_bounds oracle to_float tol max_parts bl br = (RInf, RInf)) /\
    band_margin oracle to_float tol max_parts bands = (RInf, RInf) /\
    PASS_bool oracle to_float tol max_parts bands = true.
Proof.
  intros oracle to_float tol max_parts bands Hm.
  assert (Hb : forall bl br,
             band_min_bounds oracle to_float tol max_parts bl br = (RInf, RInf)).
  { intros bl br. now apply band_min_bounds_unrun. }
  assert (Hg : band_margin oracle to_float tol max_parts bands = (RInf, RInf)).
  { unfold band_margin. induction bands as [|b bs IH]; [reflexivity|].
    cbn [fold_left]. rewrite Hb. exact IH. }
  split; [exact Hb|]. split; [exact Hg|].
  unfold PASS_bool. rewrite Hg. reflexivity.
Qed.

Lemma no_budget_passes_witness :
  (forall bl br, band_min_bounds (fun _ _ => (0, 0)) (fun x => x) 0 0 bl br
                 = (RInf, RInf)) /\
  band_margin (fun _ _ => (0, 0)) (fun x => x) 0 0 [(1, 2)] = (RInf, RInf) /\
  PASS_bool (fun _ _ => (0, 0)) (fun x => x) 0 0 [(1, 2)] = true.
Proof.
  apply (@no_budget_passes (fun _ _ => (0, 0)) (fun x => x) 0 0%Z [(1, 2)]). lia.
Defined.

(** X5.  With a budget [max_parts >= 1] the verdict is decided by the
    unsplit bands alone: [PASS_bool] is true exactly when the lower
    enclosure of every whole band is positive. *)
Theorem PASS_iff_unsplit_bands_positive :
  forall sigma k0 to_float tol max_parts bands,
    0 < sigma -> 0 < k0 -> (1 <= max_parts)%Z ->
    Forall (fun band => fst band <= snd band) bands ->
    (PASS_bool (W_abs_iv_on sigma k0) to_float tol max_parts bands = true <->
     Forall (fun band => 0 < fst (W_abs_iv_on sigma k0 (fst band) (snd band))) bands).
Proof.
  intros sigma k0 to_float tol max_parts bands Hs Hk Hm Hb.
  rewrite PASS_bool_positive. rewrite !Forall_forall in *.
  split; intros H band Hin; specialize (H band Hin); specialize (Hb band Hin);
    rewrite (@window_lo_unsplit sigma k0 to_float tol max_parts
               (fst band) (snd band) Hs Hk Hb Hm) in *; exact H.
Qed.

Lemma PASS_iff_unsplit_bands_positive_witness :
  PASS_bool (W_abs_iv_on 1 1) (fun x => x) (1 / 10) 8 [(1, 2)] = true <->
  Forall (fun band => 0 < fst (W_abs_iv_on 1 1 (fst band) (snd band))) [(1, 2)].
Proof.
  apply (@PASS_iff_unsplit_bands_positive 1 1 (fun x => x) (1 / 10) 8%Z [(1, 2)]);
    try Lra.lra; try lia.
  constructor; [simpl; Lra.lra | constructor].
Defined.

End BandTheorems.
(** ** [rolling_T_uniform_cert_v3.py]: soundness of the sampling *)

Section TailMonotone.
Import Mpf RollingT.
Local Open Scope Q_scope.

Lemma Qpower_base_le (x y : Q) (n : Z) :
  (0 <= n)%Z -> 0 < x -> x <= y -> x ^ n <= y ^ n.
Proof.
  intros Hn Hx Hxy. revert n Hn.
  apply natlike_ind; [apply Qle_refl|].
  intros n Hn IH. unfold Z.succ.
  rewrite !Qpower_plus' by lia. change (x ^ 1) with x. change (y ^ 1) with y.
  assert (H0 : 0 <= x ^ n) by (apply Qpower_0_le; lra).
  apply Qle_trans with (x ^ n * y).
  - rewrite !(Qmult_comm (x ^ n)). apply Qmult_le_compat_r; assumption.
  - apply Qmult_le_compat_r; [exact IH | lra].
Qed.

Lemma mpf_pow_integer real_pow (x : Q) (n : Z) :
  0 < x -> mpf_pow real_pow x (inject_Z n) = Some (x ^ n).
Proof.
  intros Hx. unfold mpf_pow.
  assert (Hr : Qred (inject_Z n) = inject_Z n).
  { unfold inject_Z, Qred.
    pose proof (Z.ggcd_gcd n 1) as Hg. pose proof (Z.ggcd_correct_divisors n 1) as Hd.
    change (Z.pos 1) with 1%Z.
    destruct (Z.ggcd n 1) as [g [aa bb]]. simpl in Hg, Hd.
    rewrite Z.gcd_1_r in Hg. subst g. destruct Hd as [Ha Hb].
    replace aa with n by lia. replace bb with 1%Z by lia. reflexivity. }
  rewrite Hr. simpl.
  destruct (Qeq_bool x 0) eqn:E.
  - apply Qeq_bool_iff in E. rewrite E in Hx. discriminate Hx.
  - rewrite andb_false_r. reflexivity.
Qed.

Lemma mpf_div_pos (c p : Q) : 0 < p -> mpf_div c p = Some (c / p).
Proof.
  intros Hp. unfold mpf_div. destruct (Qeq_bool p 0) eqn:E; [|reflexivity].
  apply Qeq_bool_iff in E. rewrite E in Hp. discriminate Hp.
Qed.

(** A tail [C / T ** n] with [C >= 0] and an integer [n >= 0] does not
    grow with [T]. *)
Lemma tail_decreases (C x y : Q) (n : Z) :
  0 <= C -> (0 <= n)%Z -> 0 < x -> x <= y -> C / y ^ n <= C / x ^ n.
Proof.
  intros HC Hn Hx Hxy.
  assert (Px : 0 < x ^ n) by (apply Qpower_0_lt; exact Hx).
  assert (Py : 0 < y ^ n) by (apply Qpower_0_lt; lra).
  pose proof (Qpower_base_le Hn Hx Hxy) as Hle.
  apply Qle_shift_div_l; [exact Px|].
  unfold Qdiv. rewrite <- Qmult_assoc, (Qmult_comm (/ y ^ n)), Qmult_assoc.
  apply Qle_shift_div_r; [exact Py|].
  rewrite !(Qmult_comm C). apply Qmult_le_compat_r; assumption.
Qed.

(** X6.  The margin is worst at the left: with non-negative tail
    constants and non-negative integer exponents, [compute_delta_lo] is
    defined at every positive [T] and does not decrease when [T] grows,
    which is what the comment in [compute_delta_lo] relies on. *)
Theorem compute_delta_lo_monotone :
  forall real_pow eps grid Cp Cg (np ng : Z) T T',
  0 <= Cp -> 0 <= Cg -> (0 <= np)%Z -> (0 <= ng)%Z -> 0 < T -> T <= T' ->
  exists d d',
    compute_delta_lo real_pow T eps grid Cp (inject_Z np) Cg (inject_Z ng) = Some d /\
    compute_delta_lo real_pow T' eps grid Cp (inject_Z np) Cg (inject_Z ng) = Some d' /\
    d <= d'.
Proof.
  intros real_pow eps grid Cp Cg np ng T T' HCp HCg Hnp Hng HT HTT'.
  assert (HT' : 0 < T') by lra.
  unfold compute_delta_lo.
  rewrite !mpf_pow_integer by assumption.
  rewrite !mpf_div_pos by (apply Qpower_0_lt; assumption).
  do 2 eexists. split; [reflexivity|]. split; [reflexivity|].
  pose proof (tail_decreases HCp Hnp HT HTT').
  pose proof (tail_decreases HCg Hng HT HTT').
  lra.
Qed.

Lemma compute_delta_lo_monotone_witness :
  exists d d',
    compute_delta_lo no_real_pow 2 1 0 1 (inject_Z 1) 3 (inject_Z 2) = Some d /\
    compute_delta_lo no_real_pow 5 1 0 1 (inject_Z 1) 3 (inject_Z 2) = Some d' /\
    d <= d'.
Proof.
  apply (@compute_delta_lo_monotone no_real_pow 1 0 1 3 1%Z 2%Z 2 5);
    first [lia | lra].
Defined.

End TailMonotone.

Section SamplingSound.
Import Mpf RollingT.
Local Open Scope Q_scope.

Variable real_pow : Q -> Q -> option Q.
Variables (T0 T1 eps_eff_lo grid_hi Cp ap Cg ag delta_target : Q).
Variables (mesh_initial mesh_max : Z).

Local Abbreviation delta := (delta_lo real_pow eps_eff_lo grid_hi Cp ap Cg ag).
Local Abbreviation refine_n :=
  (refine real_pow eps_eff_lo grid_hi Cp ap Cg ag delta_target).

(** The margin at [T] is defined and meets the target. *)
Definition meets (T : Q) : Prop :=
  exists d, delta T = Some d /\ delta_target <= d.

(** The margin does not decrease to the right of a positive point. *)
Definition nondecreasing : Prop :=
  forall a T d, 0 < a -> a <= T -> delta a = Some d ->
                exists d', delta T = Some d' /\ d <= d'.

Lemma integer_tails_nondecreasing (np ng : Z) :
  ap = inject_Z np -> ag = inject_Z ng ->
  0 <= Cp -> 0 <= Cg -> (0 <= np)%Z -> (0 <= ng)%Z -> nondecreasing.
Proof.
  intros Hap Hag HCp HCg Hnp Hng a T d Ha HaT Hd.
  assert (HT : 0 < T) by lra.
  unfold delta_lo, compute_delta_lo in *. rewrite Hap, Hag in Hd. rewrite Hap, Hag.
  rewrite !mpf_pow_integer in Hd by assumption.
  rewrite !mpf_div_pos in Hd by (apply Qpower_0_lt; assumption).
  rewrite !mpf_pow_integer by assumption.
  rewrite !mpf_div_pos by (apply Qpower_0_lt; assumption).
  inversion Hd; subst d. eexists. split; [reflexivity|].
  pose proof (tail_decreases HCp Hnp Ha HaT).
  pose proof (tail_decreases HCg Hng Ha HaT).
  lra.
Qed.

Definition certified (i : interval) : Prop :=
  forall T, fst (fst i) <= T <= snd (fst i) -> meets T.

Lemma refine_certifies :
  nondecreasing ->
  forall n w, positive_work w -> refine_n n w = Some [] -> Forall certified w.
Proof.
  intros Hmono. induction n as [|n IH]; intros w Hw Hr.
  - simpl in Hr. inversion Hr. constructor.
  - destruct w as [|[[a b] depth] rest]; [constructor|].
    rewrite refine_S_cons in Hr. unfold refine_step, delta_lo in Hr.
    inversion Hw as [|i l [Ha Hab] Hrest]; subst. simpl in Ha, Hab.
    destruct (compute_delta_lo real_pow a eps_eff_lo grid_hi Cp ap Cg ag)
      as [d|] eqn:Ed; [|discriminate].
    destruct (Qle_bool delta_target d) eqn:Et.
    + apply Qle_bool_iff in Et. constructor; [|now apply IH].
      intros T [H1 H2]. simpl in H1, H2.
      destruct (Hmono a T d Ha H1 Ed) as (d' & Hd' & Hle).
      exists d'. split; [exact Hd' | lra].
    + assert (Hmid1 : a <= (a + b) / 2) by (apply Qle_shift_div_l; [reflexivity | lra]).
      assert (Hmid2 : (a + b) / 2 <= b) by (apply Qle_shift_div_r; [reflexivity | lra]).
      assert (Hw' : positive_work ((a, (a + b) / 2, (depth + 1)%Z)
                                     :: ((a + b) / 2, b, (depth + 1)%Z) :: rest)).
      { constructor; [simpl; split; assumption|].
        constructor; [simpl; split; [lra | assumption]|]. exact Hrest. }
      specialize (IH _ Hw' Hr).
      inversion IH as [|? ? Hl Hrest']; subst.
      inversion Hrest' as [|? ? Hrt Hrest'']; subst.
      constructor; [|exact Hrest''].
      intros T [H1 H2]. simpl in H1, H2.
      destruct (Qlt_le_dec T ((a + b) / 2)) as [Hlt | Hge].
      * apply Hl. simpl. split; [exact H1 | lra].
      * apply Hrt. simpl. split; assumption.
Qed.

(** The seed mesh covers [[T0, T1]]. *)
Lemma xs_at_0 : (mesh_initial <> 0)%Z -> xs_at T0 T1 mesh_initial 0 == T0.
Proof.
  intros Hn. unfold xs_at. unfold Qdiv. change (inject_Z 0) with 0. ring.
Qed.

Lemma xs_at_last :
  (mesh_initial <> 0)%Z -> xs_at T0 T1 mesh_initial mesh_initial == T1.
Proof.
  intros Hn. unfold xs_at. field. intros H.
  apply Hn. unfold inject_Z, Qeq in H. simpl in H. lia.
Qed.

Lemma seed_covers T :
  (0 < mesh_initial)%Z -> T0 <= T <= T1 ->
  exists i, In i (seed T0 T1 mesh_initial) /\ fst (fst i) <= T <= snd (fst i).
Proof.
  intros Hn [H0 H1].
  assert (Hk : forall k, (0 < k <= Z.to_nat mesh_initial)%nat ->
             T <= xs_at T0 T1 mesh_initial (Z.of_nat k) ->
             exists j, (j < k)%nat /\
               xs_at T0 T1 mesh_initial (Z.of_nat j) <= T
               <= xs_at T0 T1 mesh_initial (Z.of_nat j + 1)).
  { induction k as [|k IH]; intros Hk HT; [lia|].
    destruct k as [|k].
    - exists 0%nat. split; [lia|]. simpl Z.of_nat. split; [|exact HT].
      rewrite xs_at_0 by lia. exact H0.
    - destruct (Qlt_le_dec (xs_at T0 T1 mesh_initial (Z.of_nat (S k))) T) as [Hlt | Hle].
      + exists (S k). split; [lia|]. split; [lra|].
        replace (Z.of_nat (S k) + 1)%Z with (Z.of_nat (S (S k))) by lia. exact HT.
      + destruct (IH ltac:(lia) Hle) as (j & Hj & Hin). exists j. split; [lia | exact Hin]. }
  destruct (Hk (Z.to_nat mesh_initial) ltac:(lia)) as (j & Hj & Hin).
  { rewrite Z2Nat.id by lia. rewrite xs_at_last by lia. exact H1. }
  exists (xs_at T0 T1 mesh_initial (Z.of_nat j),
          xs_at T0 T1 mesh_initial (Z.of_nat j + 1), 0%Z).
  split; [|exact Hin].
  unfold seed. apply in_map_iff. exists j. split; [reflexivity|].
  apply in_seq. lia.
Qed.

(** X7.  PASS is sound for a margin that does not decrease with T: on
    a positive domain [[T0, T1]] with [mesh_initial > 0], when
    [adaptive_cert] returns PASS the margin is defined and at least
    [delta_target] at every point of [[T0, T1]], not only at the
    sampled left endpoints. *)
Theorem PASS_certifies_interval r :
  0 < T0 -> T0 <= T1 -> (0 < mesh_initial)%Z -> (0 <= mesh_max)%Z ->
  nondecreasing ->
  adaptive_cert real_pow T0 T1 eps_eff_lo grid_hi Cp ap Cg ag delta_target
                mesh_initial mesh_max = Some r ->
  PASS r = true ->
  forall T, T0 <= T <= T1 -> meets T.
Proof.
  intros H0 Hle Hn Hmax Hmono Hc HP T HT.
  destruct (@adaptive_cert_spec real_pow T0 T1 eps_eff_lo grid_hi Cp ap Cg ag delta_target mesh_initial mesh_max r Hmax Hc) as (_ & Hiff & _).
  destruct (proj1 Hiff HP) as (n & _ & Hempty).
  pose proof (@seed_positive T0 T1 mesh_initial H0 Hle) as Hpos.
  pose proof (@refine_certifies Hmono n _ Hpos Hempty) as Hall.
  destruct (@seed_covers T Hn HT) as (i & Hi & Hin).
  rewrite Forall_forall in Hall. apply (Hall i); [|exact Hin].
  apply in_rev in Hi. exact Hi.
Qed.

(** Every waiting sub-interval lies in [[T0, T1]]. *)
Definition within (i : interval) : Prop :=
  T0 <= fst (fst i) /\ fst (fst i) <= snd (fst i) /\ snd (fst i) <= T1.

Lemma refine_within n : forall w w',
  Forall within w -> refine_n n w = Some w' -> Forall within w'.
Proof.
  induction n as [|n IH]; intros w w' Hw Hr.
  - simpl in Hr. inversion Hr; subst. exact Hw.
  - destruct w as [|[[a b] depth] rest].
    + rewrite refine_nil in Hr. inversion Hr. constructor.
    + rewrite refine_S_cons in Hr. unfold refine_step, delta_lo in Hr.
      inversion Hw as [|i l (Ha & Hab & Hb) Hrest]; subst. simpl in Ha, Hab, Hb.
      destruct (compute_delta_lo real_pow a eps_eff_lo grid_hi Cp ap Cg ag)
        as [d|]; [|discriminate].
      destruct (Qle_bool delta_target d); [now apply (IH rest)|].
      assert (Hmid1 : a <= (a + b) / 2) by (apply Qle_shift_div_l; [reflexivity | lra]).
      assert (Hmid2 : (a + b) / 2 <= b) by (apply Qle_shift_div_r; [reflexivity | lra]).
      refine (IH _ _ _ Hr).
      constructor; [unfold within; simpl; repeat split; try assumption; lra|].
      constructor; [unfold within; simpl; repeat split; try assumption; lra|].
      exact Hrest.
Qed.

Lemma xs_at_le i :
  (0 < mesh_initial)%Z -> (i <= mesh_initial)%Z -> T0 <= T1 ->
  xs_at T0 T1 mesh_initial i <= T1.
Proof.
  intros Hn Hi Hle.
  assert (Hq : inject_Z i / inject_Z mesh_initial <= 1).
  { apply Qle_shift_div_r.
    - change 0 with (inject_Z 0). rewrite <- Zlt_Qlt. exact Hn.
    - rewrite Qmult_1_l. rewrite <- Zle_Qle. exact Hi. }
  unfold xs_at.
  assert (H : (T1 - T0) * (inject_Z i / inject_Z mesh_initial) <= (T1 - T0) * 1).
  { rewrite !(Qmult_comm (T1 - T0)). apply Qmult_le_compat_r; [exact Hq | lra]. }
  lra.
Qed.

Lemma seed_within :
  (0 < mesh_initial)%Z -> T0 <= T1 -> Forall within (rev (seed T0 T1 mesh_initial)).
Proof.
  intros Hn Hle. apply Forall_rev. unfold seed. apply Forall_forall.
  intros i Hi. apply in_map_iff in Hi. destruct Hi as (k & <- & Hk).
  apply in_seq in Hk. unfold within. simpl. split; [|split].
  - apply xs_at_ge; auto. lia.
  - now apply xs_at_mono.
  - apply xs_at_le; auto. lia.
Qed.

(** X8.  The unresolved interval of a FAIL is a piece of the domain:
    [T0 <= T_left <= T_right <= T1]. *)
Theorem FAIL_witness_inside_domain r :
  T0 <= T1 -> (0 < mesh_initial)%Z -> (0 <= mesh_max)%Z ->
  adaptive_cert real_pow T0 T1 eps_eff_lo grid_hi Cp ap Cg ag delta_target
                mesh_initial mesh_max = Some r ->
  PASS r = false ->
  exists a b, witness r = Some (a, b) /\ T0 <= a /\ a <= b /\ b <= T1.
Proof.
  intros Hle Hn Hmax Hc HP.
  destruct (@adaptive_cert_spec real_pow T0 T1 eps_eff_lo grid_hi Cp ap Cg ag delta_target mesh_initial mesh_max r Hmax Hc) as (_ & _ & _ & Hfail & _).
  destruct (Hfail HP) as (_ & a & b & Hw & Hun).
  exists a, b. split; [exact Hw|].
  pose proof (@seed_within Hn Hle) as Hs.
  destruct Hun as [(d & rest & H1) | (k & d & rest & v & _ & H1 & _)];
    pose proof (@refine_within _ _ _ Hs H1) as Hall;
    inversion Hall as [|? ? Hi _]; subst; exact Hi.
Qed.

End SamplingSound.

Section SamplingWitnesses.
Import Mpf RollingT.
Local Open Scope Q_scope.

Lemma PASS_certifies_interval_witness :
  meets no_real_pow 1 0 1 1 0 0 0 (7 # 2).
Proof.
  apply (@PASS_certifies_interval no_real_pow 1 (10 # 1) 1 0 1 1 0 0 0 1%Z 3%Z
           {| PASS := true; global_min := Fin 0; witness := None;
              intervals := 1; max_depth := 0; argmin_T := 1 |});
    try reflexivity; try (vm_compute; discriminate);
    try (split; vm_compute; discriminate).
  apply (@integer_tails_nondecreasing no_real_pow 1 0 1 1 0 0 1%Z 0%Z);
    first [reflexivity | lia | lra].
Defined.

Lemma FAIL_witness_inside_domain_witness :
  exists a b,
    witness {| PASS := false; global_min := Fin 0; witness := Some (1, 13 # 4);
               intervals := 3; max_depth := 2; argmin_T := 1 |} = Some (a, b) /\
    1 <= a /\ a <= b /\ b <= 10 # 1.
Proof.
  apply (@FAIL_witness_inside_domain no_real_pow 1 (10 # 1) 1 0 1 1 0 0 (1 # 2) 1%Z 3%Z);
    try reflexivity; try (vm_compute; discriminate).
Defined.

End SamplingWitnesses.
(** ** [rolling_T_uniform_cert_v3.py]: degenerate meshes, errors, layouts *)

Section DegenerateMesh.
Import Py Mpf RollingT.

Variable real_pow : Q -> Q -> option Q.

Lemma adaptive_cert_negative_mesh T0 T1 eps grid Cp ap Cg ag target mesh_initial mesh_max :
  (mesh_initial < 0)%Z ->
  adaptive_cert real_pow T0 T1 eps grid Cp ap Cg ag target mesh_initial mesh_max
  = Some {| PASS := true; global_min := Inf; witness := None; intervals := 0;
            max_depth := 0; argmin_T := T0 |}.
Proof.
  intros Hn. unfold adaptive_cert.
  destruct (Z.eqb_spec mesh_initial 0); [lia|].
  unfold initial_state, seed.
  replace (Z.to_nat mesh_initial) with 0%nat by lia. simpl.
  destruct (Z.to_nat mesh_max); reflexivity.
Qed.



(** X9.  A negative [--mesh-initial] certifies without looking: a run
    of [main] that returns reports PASS with no interval examined and an
    infinite minimum, whatever the bounds and the target are. *)
Theorem negative_mesh_passes_unexamined :
  forall a ab p,
    (arg_mesh_initial a < 0)%Z ->
    main real_pow a ab = Ok p ->
    result_PASS p = true /\ mesh_intervals p = 0%Z /\ result_delta_min p = Inf.
Proof.
  intros a ab p Hn Hm.
  destruct (@main_inv real_pow a ab p Hm) as
    (T0 & T1 & dt & abj & b & eps & grid & pt & gt & Cp & ap & Cg & ag & r &
     _ & _ & _ & _ & _ & _ & _ & Hrun & _ & _ & HP & Hmin & Hint & _).
  rewrite adaptive_cert_negative_mesh in Hrun by exact Hn.
  inversion Hrun; subst r. rewrite HP, Hmin, Hint. auto.
Qed.


End DegenerateMesh.

Section DegenerateWitnesses.
Import Py Mpf RollingT.

(** A run on [[1, 10]] with the margin [1 - 1/T], asked to meet 0.9. *)
Definition mesh_bounds : json :=
  JDict [("eps_eff_lo", JStr "1"); ("grid_error_hi", JStr "0");
         ("prime_tail", JDict [("C", JStr "1"); ("a", JStr "1")]);
         ("gamma_tail", JDict [("C", JStr "0"); ("a", JStr "1")])].

Definition mesh_args (mesh_initial mesh_max : Z) : args :=
  {| arg_T0 := "1"; arg_T1 := "10"; arg_delta_target := "0.9";
     arg_mesh_initial := mesh_initial; arg_mesh_max := mesh_max |}.

Lemma negative_mesh_passes_unexamined_witness :
  exists p, main no_real_pow (mesh_args (-1) 64) (Some mesh_bounds) = Ok p /\
            result_PASS p = true /\ mesh_intervals p = 0%Z /\
            result_delta_min p = Inf.
Proof.
  destruct (main no_real_pow (mesh_args (-1) 64) (Some mesh_bounds)) as [p|] eqn:E;
    [|vm_compute in E; discriminate E].
  exists p. split; [reflexivity|].
  apply (@negative_mesh_passes_unexamined no_real_pow (mesh_args (-1) 64)
           (Some mesh_bounds) p); [reflexivity | exact E].
Defined.


End DegenerateWitnesses.

Section DepthBound.
Import Py Mpf RollingT.

Variable real_pow : Q -> Q -> option Q.
Variables (T0 T1 eps_eff_lo grid_hi Cp ap Cg ag delta_target : Q).
Variables (mesh_initial mesh_max : Z).

Local Abbreviation loop :=
  (while_loop real_pow T0 eps_eff_lo grid_hi Cp ap Cg ag delta_target mesh_max).

(** A waiting sub-interval is never deeper than the number of
    sub-intervals processed so far. *)
Definition shallow (n : Z) (w : list interval) : Prop :=
  Forall (fun i : interval => (0 <= snd i <= n)%Z) w.

Lemma shallow_mono n m w : (n <= m)%Z -> shallow n w -> shallow m w.
Proof.
  intros Hnm. unfold shallow. apply Forall_impl. intros i Hi. lia.
Qed.

Lemma while_loop_depth fuel : forall st r,
  shallow (total st) (work st) ->
  (0 <= depth_max st <= total st)%Z ->
  loop fuel st = Some r ->
  (0 <= max_depth r <= intervals r)%Z.
Proof.
  assert (Hexit : forall st r, (0 <= depth_max st <= total st)%Z ->
            Some (after_loop T0 st) = Some r -> (0 <= max_depth r <= intervals r)%Z).
  { intros st r Hd H. inversion H. unfold after_loop.
    destruct (work st) as [|[[a b] d] rest]; simpl; exact Hd. }
  induction fuel as [|f IH]; intros st r Hw Hd Hr; simpl in Hr;
    [now apply (Hexit st)|].
  destruct (work st) as [|[[a b] d] rest] eqn:Ew; [now apply (Hexit st)|].
  destruct (total st <? mesh_max)%Z; [|now apply (Hexit st)].
  destruct (compute_delta_lo real_pow a eps_eff_lo grid_hi Cp ap Cg ag);
    [|discriminate].
  inversion Hw as [|i l Hi Hrest]; subst. simpl in Hi.
  cbv zeta in Hr. destruct (Qle_bool delta_target q).
  - apply IH in Hr; [exact Hr | simpl | simpl; lia].
    apply shallow_mono with (total st); [lia | exact Hrest].
  - destruct (mesh_max <=? total st + 1)%Z.
    + inversion Hr; simpl. lia.
    + apply IH in Hr; [exact Hr | simpl | simpl; lia].
      constructor; [simpl; lia|]. constructor; [simpl; lia|].
      apply shallow_mono with (total st); [lia | exact Hrest].
Qed.

(** X11.  The reported depth never exceeds the reported count:
    [0 <= max_depth <= intervals] for every result of [adaptive_cert]. *)
Theorem max_depth_at_most_intervals :
  forall r,
    adaptive_cert real_pow T0 T1 eps_eff_lo grid_hi Cp ap Cg ag delta_target
                  mesh_initial mesh_max = Some r ->
    (0 <= max_depth r <= intervals r)%Z.
Proof.
  intros r Hc. unfold adaptive_cert in Hc.
  destruct (mesh_initial =? 0)%Z; [discriminate|].
  apply while_loop_depth in Hc; [exact Hc | | simpl; lia].
  simpl. unfold shallow. apply Forall_rev. unfold seed. apply Forall_forall.
  intros i Hi. apply in_map_iff in Hi. destruct Hi as (k & <- & _). simpl. lia.
Qed.

End DepthBound.

Section DepthWitness.
Import Py Mpf RollingT.

Lemma max_depth_at_most_intervals_witness :
  (0 <= max_depth {| PASS := false; global_min := Fin 0%Q;
                     witness := Some (1%Q, (13 # 4)%Q);
                     intervals := 3; max_depth := 2; argmin_T := 1%Q |}
   <= intervals {| PASS := false; global_min := Fin 0%Q;
                   witness := Some (1%Q, (13 # 4)%Q);
                   intervals := 3; max_depth := 2; argmin_T := 1%Q |})%Z.
Proof.
  apply (@max_depth_at_most_intervals no_real_pow 1%Q (10 # 1)%Q 1%Q 0%Q 1%Q 1%Q
           0%Q 0%Q (1 # 2)%Q 1%Z 3%Z).
  vm_compute. reflexivity.
Defined.

End DepthWitness.

Section MainErrors.
Import Py Mpf RollingT.

Variable real_pow : Q -> Q -> option Q.

Lemma bind_exit {A B} (m : outcome A) (k : A -> outcome B) :
  nonzero_exit m -> nonzero_exit (bind m k).
Proof. intros (msg & ->). exists msg. reflexivity. Qed.

Ltac step_bind :=
  match goal with
  | |- nonzero_exit (Exit1 _) => eexists; reflexivity
  | |- nonzero_exit (bind ?m _) =>
      let E := fresh "E" in
      destruct m eqn:E; [cbn [bind] | eexists; reflexivity]
  | |- nonzero_exit (if ?c then _ else _) => destruct c
  end.

(** The four entries [main] reads from the bounds block. *)
Definition required_keys : list string :=
  ["eps_eff_lo"; "grid_error_hi"; "prime_tail"; "gamma_tail"].

(** X12.  [main] ends with a nonzero status, before any certificate is
    computed, when the endpoints are not in order [T0 < T1] (whatever
    the bounds file holds, present or not), when the bounds file is
    missing, and when the bounds block lacks one of [eps_eff_lo],
    [grid_error_hi], [prime_tail], [gamma_tail]. *)
Theorem main_rejects :
  forall a,
    (forall ab t0 t1,
       mpf_of (arg_T0 a) = Ok t0 -> mpf_of (arg_T1 a) = Ok t1 -> (t1 <= t0)%Q ->
       main real_pow a ab = Exit1 "ERROR: T0 must be < T1") /\
    (forall t0 t1 dt,
       mpf_of (arg_T0 a) = Ok t0 -> mpf_of (arg_T1 a) = Ok t1 -> (t0 < t1)%Q ->
       mpf_of (arg_delta_target a) = Ok dt ->
       main real_pow a None = Exit1 "ERROR: missing analytic_bounds.json") /\
    (forall ab b k,
       bounds_block ab = Ok b -> In k required_keys ->
       subscript b k = Exit1 "ERROR parsing analytic_bounds.json" ->
       nonzero_exit (main real_pow a (Some ab))).
Proof.
  intros a. split; [|split].
  - intros ab t0 t1 H0 H1 Hle. unfold main. rewrite H0, H1. cbn [bind].
    apply Qle_bool_iff in Hle. rewrite Hle. reflexivity.
  - intros t0 t1 dt H0 H1 Hlt Hd. unfold main. rewrite H0, H1, Hd. cbn [bind].
    destruct (Qle_bool t1 t0) eqn:E.
    + apply Qle_bool_iff in E. exfalso. apply (Qlt_not_le _ _ Hlt E).
    + reflexivity.
  - intros ab b k Hb Hk Hmiss. unfold main.
    do 2 step_bind. step_bind; [eexists; reflexivity|]. step_bind.
    cbn [of_option bind]. rewrite Hb. cbn [bind].
    simpl in Hk.
    destruct Hk as [<- | [<- | [<- | [<- | []]]]]; rewrite ?Hmiss; cbn [bind];
      repeat first [ rewrite Hmiss; cbn [bind]; eexists; reflexivity | step_bind ].
Qed.

End MainErrors.
Section MainErrorsWitness.
Import Py Mpf RollingT.

Lemma main_rejects_witness :
  main no_real_pow {| arg_T0 := "10"; arg_T1 := "1"; arg_delta_target := "0.9";
                      arg_mesh_initial := 4; arg_mesh_max := 64 |} None
    = Exit1 "ERROR: T0 must be < T1" /\
  main no_real_pow (mesh_args 4 64) None
    = Exit1 "ERROR: missing analytic_bounds.json" /\
  nonzero_exit (main no_real_pow (mesh_args 4 64)
                     (Some (JDict [("eps_eff_lo", JStr "1");
                                   ("grid_error_hi", JStr "0");
                                   ("gamma_tail", JDict [])]))).
Proof.
  destruct (main_rejects no_real_pow (mesh_args 4 64)) as (_ & Hfile & Hkey).
  split; [|split].
  - apply (proj1 (main_rejects no_real_pow
                    {| arg_T0 := "10"; arg_T1 := "1"; arg_delta_target := "0.9";
                       arg_mesh_initial := 4; arg_mesh_max := 64 |})
                 None (10 # 1)%Q 1%Q); try reflexivity. vm_compute. discriminate.
  - apply (Hfile 1%Q (10 # 1)%Q (9 # 10)%Q); reflexivity.
  - apply (Hkey _ (JDict [("eps_eff_lo", JStr "1"); ("grid_error_hi", JStr "0");
                          ("gamma_tail", JDict [])]) "prime_tail");
      [reflexivity | simpl; tauto | reflexivity].
Defined.

End MainErrorsWitness.

Section Layouts.
Import Py Mpf RollingT.

Variable real_pow : Q -> Q -> option Q.

(** X13.  The nested and the flat layout of [analytic_bounds.json] are
    read alike: a document whose ["bounds"] entry is the block [b] gives
    the same outcome as the flat document [b], when [b] has no
    ["bounds"] entry of its own. *)
Theorem nested_layout_reads_as_flat :
  forall a outer b,
    dict_get "bounds" outer = Some (JDict b) ->
    dict_get "bounds" b = None ->
    main real_pow a (Some (JDict outer)) = main real_pow a (Some (JDict b)).
Proof.
  intros a outer b Hn Hf. unfold main.
  destruct (mpf_of (arg_T0 a)); [cbn [bind] | reflexivity].
  destruct (mpf_of (arg_T1 a)); [cbn [bind] | reflexivity].
  destruct (negb (negb (Qle_bool a1 a0))); [reflexivity|].
  destruct (mpf_of (arg_delta_target a)); [cbn [bind of_option] | reflexivity].
  unfold bounds_block. rewrite Hn, Hf. reflexivity.
Qed.

End Layouts.

Section LayoutsWitness.
Import Py Mpf RollingT.

Lemma nested_layout_reads_as_flat_witness :
  main no_real_pow (mesh_args 4 64)
       (Some (JDict [("kind", JStr "analytic_bounds");
                     ("bounds", JDict [("eps_eff_lo", JStr "1")])]))
  = main no_real_pow (mesh_args 4 64) (Some (JDict [("eps_eff_lo", JStr "1")])).
Proof.
  apply (@nested_layout_reads_as_flat no_real_pow (mesh_args 4 64)
           [("kind", JStr "analytic_bounds");
            ("bounds", JDict [("eps_eff_lo", JStr "1")])]
           [("eps_eff_lo", JStr "1")]); reflexivity.
Defined.

End LayoutsWitness.

(** ** [write_json] of [rolling_T_uniform_cert_v3.py] *)

Section WriteJson.
Import Py.

Lemma dict_get_set_other k k' v d :
  k <> k' -> dict_get k (dict_set k' v d) = dict_get k d.
Proof.
  intros Hk. induction d as [|[k0 v0] d IH]; simpl.
  - destruct (String.eqb_spec k k'); [contradiction | reflexivity].
  - destruct (String.eqb_spec k' k0); simpl.
    + subst k0. destruct (String.eqb_spec k k'); [contradiction | reflexivity].
    + destruct (String.eqb_spec k k0); [reflexivity | exact IH].
Qed.

Lemma ensure_meta_fixed payload meta :
  dict_get "meta" payload = Some (JDict meta) -> ensure_meta payload = payload.
Proof. intros H. unfold ensure_meta. now rewrite H. Qed.

Lemma set_meta_has_meta k v payload meta :
  dict_get "meta" payload = Some (JDict meta) ->
  dict_get "meta" (set_meta k v payload) = Some (JDict (dict_set k v meta)).
Proof. intros H. unfold set_meta. rewrite H. apply dict_get_set. Qed.

Lemma write_json_stale payload meta v :
  dict_get "meta" payload = Some (JDict meta) ->
  RollingT.write_json (set_meta "sha256" v payload) = RollingT.write_json payload.
Proof.
  intros H. unfold RollingT.write_json.
  rewrite (ensure_meta_fixed _ (set_meta_has_meta "sha256" v _ H)).
  rewrite (ensure_meta_fixed _ H).
  rewrite (pop_set_meta _ _ H), (set_set_meta _ _ _ H). reflexivity.
Qed.

(** X14.  The digest does not depend on a digest already stored: for a
    payload whose [meta] is a dict, [write_json] gives the same
    certificate whatever [meta.sha256] held before, and writing a
    written certificate again changes nothing. *)
Theorem write_json_ignores_stored_digest :
  (forall payload meta v,
     dict_get "meta" payload = Some (JDict meta) ->
     RollingT.write_json (set_meta "sha256" v payload) = RollingT.write_json payload) /\
  (forall payload,
     RollingT.write_json (RollingT.write_json payload) = RollingT.write_json payload).
Proof.
  split; [exact write_json_stale|].
  intros payload. destruct (ensure_meta_dict payload) as (meta & Hm).
  assert (He : RollingT.write_json payload = RollingT.write_json (ensure_meta payload)).
  { unfold RollingT.write_json. now rewrite (ensure_meta_fixed _ Hm). }
  rewrite He. unfold RollingT.write_json at 2.
  rewrite (ensure_meta_fixed _ Hm). now apply write_json_stale with meta.
Qed.

Lemma write_json_ignores_stored_digest_witness :
  RollingT.write_json
    (set_meta "sha256" (JStr "stale")
              [("kind", JStr "rolling_T_uniform"); ("meta", JDict [("dps", JInt 220)])])
  = RollingT.write_json
      [("kind", JStr "rolling_T_uniform"); ("meta", JDict [("dps", JInt 220)])].
Proof.
  apply (proj1 write_json_ignores_stored_digest
               [("kind", JStr "rolling_T_uniform"); ("meta", JDict [("dps", JInt 220)])]
               [("dps", JInt 220)] (JStr "stale")).
  reflexivity.
Defined.

(** X15.  [write_json] touches [meta.sha256] only: every other
    top-level entry of the payload, and every other entry of a [meta]
    dict, is read back as it was. *)
Theorem write_json_keeps_other_fields :
  forall payload,
    (forall k, k <> "meta" ->
               dict_get k (RollingT.write_json payload) = dict_get k payload) /\
    (forall meta k,
       dict_get "meta" payload = Some (JDict meta) -> k <> "sha256" ->
       exists meta',
         dict_get "meta" (RollingT.write_json payload) = Some (JDict meta') /\
         dict_get k meta' = dict_get k meta).
Proof.
  intros payload. split.
  - intros k Hk. unfold RollingT.write_json.
    destruct (ensure_meta_dict payload) as (meta & Hm).
    unfold set_meta. rewrite Hm. rewrite dict_get_set_other by exact Hk.
    unfold ensure_meta. destruct (dict_get "meta" payload) as [[]|];
      try reflexivity; now apply dict_get_set_other.
  - intros meta k Hm Hk. unfold RollingT.write_json.
    rewrite (ensure_meta_fixed _ Hm).
    eexists. split; [apply (set_meta_has_meta _ _ _ Hm)|].
    now apply dict_get_set_other.
Qed.

Lemma write_json_keeps_other_fields_witness :
  dict_get "kind" (RollingT.write_json [("kind", JStr "rolling_T_uniform")])
  = dict_get "kind" [("kind", JStr "rolling_T_uniform")].
Proof.
  apply (proj1 (write_json_keeps_other_fields [("kind", JStr "rolling_T_uniform")])).
  discriminate.
Defined.

End WriteJson.
(** ** [uniform_rollup_cert.py] and [rollup_uniform.py]: readers *)

Section RollupReaders.
Import Py UniformRollupCert.

(** X16.  [dig] composes: following a path [p ++ q] is following [p]
    and then [q] from what was found, and fails when [p] fails. *)
Theorem dig_app :
  forall p q obj,
    dig obj (p ++ q)%list =
    match dig obj p with
    | Some o => dig o q
    | None => None
    end.
Proof.
  induction p as [|k p IH]; intros q obj; simpl; [reflexivity|].
  destruct obj; try reflexivity.
  destruct (dict_get k d); [apply IH | reflexivity].
Qed.

(** X17.  The first alias that resolves wins: when no path before [p]
    resolves and [p] leads to a value that is not [None], the empty
    string or ["null"], [coalesce] returns the text of that value,
    whatever the later paths hold and whatever the default is. *)
Theorem coalesce_first_resolving :
  forall obj before p after default v,
    (forall q, In q before -> resolves obj q = false) ->
    dig obj p = Some v -> is_blank v = false ->
    coalesce obj (before ++ p :: after)%list default = str v.
Proof.
  intros obj before p after default v Hb Hp Hv.
  induction before as [|q qs IH]; simpl.
  - rewrite Hp, Hv. reflexivity.
  - assert (Hq := Hb q (or_introl eq_refl)). unfold resolves in Hq.
    assert (IH' : coalesce obj (qs ++ p :: after)%list default = str v).
    { apply IH. intros r Hr. apply Hb. now right. }
    destruct (dig obj q) as [w|]; [|exact IH'].
    destruct (is_blank w); [exact IH' | discriminate].
Qed.

Lemma coalesce_first_resolving_witness :
  coalesce (JDict [("numbers", JDict [("band_margin_lo", JStr "null")]);
                   ("band_margin_lo", JStr "0.25")])
           ([ ["numbers"; "band_margin_lo"]; ["band_cert"; "band_margin"; "lo"] ]
              ++ ["band_margin_lo"] :: [ ["numbers"; "band_margin"] ])%list "0"
  = str (JStr "0.25").
Proof.
  apply (@coalesce_first_resolving
           (JDict [("numbers", JDict [("band_margin_lo", JStr "null")]);
                   ("band_margin_lo", JStr "0.25")])
           [ ["numbers"; "band_margin_lo"]; ["band_cert"; "band_margin"; "lo"] ]
           ["band_margin_lo"] [ ["numbers"; "band_margin"] ] "0" (JStr "0.25"));
    try reflexivity.
  intros q Hq. simpl in Hq.
  repeat (destruct Hq as [<- | Hq]; [reflexivity|]). contradiction.
Defined.

(** X18.  In [read_psd_pass] the first alias that holds a boolean, or a
    string that lower-cases to ["true"] or ["false"], decides alone: the
    aliases after it are not consulted. *)
Theorem psd_first_recognised_decides :
  forall w before p after,
    (forall q, In q before -> psd_recognised w q = false) ->
    psd_recognised w p = true ->
    psd_scan w (before ++ p :: after)%list = psd_scan w [p] /\
    (forall b, dig w p = Some (JBool b) -> psd_scan w [p] = b) /\
    (forall s, dig w p = Some (JStr s) ->
               psd_scan w [p] = String.eqb (lower s) "true").
Proof.
  intros w before p after Hb Hp. split; [|split].
  - induction before as [|q qs IH]; simpl.
    + unfold psd_recognised in Hp.
      destruct (dig w p) as [[| b | z | r | s | l | d]|]; try discriminate;
        [reflexivity|]. rewrite Hp. reflexivity.
    + assert (Hq := Hb q (or_introl eq_refl)). unfold psd_recognised in Hq.
      assert (IH' : psd_scan w (qs ++ p :: after)%list = psd_scan w [p]).
      { apply IH. intros r Hr. apply Hb. now right. }
      destruct (dig w q) as [[| b | z | r | s | l | d]|]; try exact IH';
        try discriminate. rewrite Hq. exact IH'.
  - intros b Hd. simpl. rewrite Hd. reflexivity.
  - intros s Hd. unfold psd_recognised in Hp. simpl. rewrite Hd in *.
    rewrite Hp. reflexivity.
Qed.

Lemma psd_first_recognised_decides_witness :
  psd_scan (JDict [("PSD_verified", JStr "FALSE");
                   ("weil_psd", JDict [("PSD_verified", JBool true)])])
           ([] ++ ["PSD_verified"] :: [ ["bochner_psd"; "PSD_verified"];
                                        ["weil_psd"; "PSD_verified"] ])%list
  = psd_scan (JDict [("PSD_verified", JStr "FALSE");
                     ("weil_psd", JDict [("PSD_verified", JBool true)])])
             [ ["PSD_verified"] ].
Proof.
  refine (proj1 (@psd_first_recognised_decides
           (JDict [("PSD_verified", JStr "FALSE");
                   ("weil_psd", JDict [("PSD_verified", JBool true)])])
           [] ["PSD_verified"]
           [ ["bochner_psd"; "PSD_verified"]; ["weil_psd"; "PSD_verified"] ] _ _)).
  - intros q [].
  - reflexivity.
Defined.




End RollupReaders.

Section AnalyticRollup.
Import Py RollupUniform.



End AnalyticRollup.
(** ** [subspace_psd_cholesky.py]: pivot choice and the first pass *)

Section PivotChoice.
Import Mpf PsdCholesky.
Local Open Scope nat_scope.

Lemma argmax_scan_spec diag lo : forall m start best,
  lo <= best -> best < start ->
  (forall i, lo <= i < start -> (vget diag i <= vget diag best)%Q) ->
  (forall i, lo <= i < best -> (vget diag i < vget diag best)%Q) ->
  let p := argmax_scan diag best (seq start m) in
  lo <= p < start + m /\
  (forall i, lo <= i < start + m -> (vget diag i <= vget diag p)%Q) /\
  (forall i, lo <= i < p -> (vget diag i < vget diag p)%Q).
Proof.
  induction m as [|m IH]; intros start best Hlo Hlt Hmax Hfirst; simpl.
  - rewrite Nat.add_0_r. repeat split; auto; lia.
  - destruct (Qlt_bool (vget diag best) (vget diag start)) eqn:E.
    + apply Qlt_bool_iff in E.
      destruct (IH (S start) start) as (Hp & Hall & Hf); try lia.
      * intros i Hi. destruct (Nat.eq_dec i start) as [->|Hne]; [apply Qle_refl|].
        apply Qle_trans with (vget diag best); [apply Hmax; lia | now apply Qlt_le_weak].
      * intros i Hi. apply Qle_lt_trans with (vget diag best); [apply Hmax; lia | exact E].
      * split; [lia|]. split; [|exact Hf]. intros i Hi. apply Hall. lia.
    + apply Qlt_bool_false_iff in E.
      destruct (IH (S start) best) as (Hp & Hall & Hf); try lia.
      * intros i Hi. destruct (Nat.eq_dec i start) as [->|Hne]; [exact E|].
        apply Hmax. lia.
      * exact Hfirst.
      * split; [lia|]. split; [|exact Hf]. intros i Hi. apply Hall. lia.
Qed.

Lemma argmax_in_range diag k n : k < n -> k <= argmax diag k n < n.
Proof.
  intros Hk. unfold argmax.
  destruct (@argmax_scan_spec diag k (n - S k) (S k) k) as (Hp & _); try lia.
  intros i Hi. replace i with k by lia. apply Qle_refl.
Qed.

(** X21.  The pivot of pass [k] is the first largest remaining
    diagonal: for [k < n], [argmax] returns an index [p] of [[k, n)]
    whose entry is at least every entry of [[k, n)] and strictly above
    every entry of [[k, p)]. *)
Theorem argmax_first_largest :
  forall diag k n,
    k < n ->
    let p := argmax diag k n in
    k <= p < n /\
    (forall i, k <= i < n -> (vget diag i <= vget diag p)%Q) /\
    (forall i, k <= i < p -> (vget diag i < vget diag p)%Q).
Proof.
  intros diag k n Hk. unfold argmax.
  destruct (@argmax_scan_spec diag k (n - S k) (S k) k) as (Hp & Hall & Hf); try lia.
  - intros i Hi. replace i with k by lia. apply Qle_refl.
  - replace (S k + (n - S k)) with n in * by lia. auto.
Qed.

Lemma argmax_first_largest_witness :
  0 <= argmax [1; 3; 3; 2]%Q 0 4 < 4 /\
  (forall i, 0 <= i < 4 ->
             (vget [1; 3; 3; 2] i <= vget [1; 3; 3; 2] (argmax [1; 3; 3; 2] 0 4))%Q) /\
  (forall i, 0 <= i < argmax [1; 3; 3; 2]%Q 0 4 ->
             (vget [1; 3; 3; 2] i < vget [1; 3; 3; 2] (argmax [1; 3; 3; 2] 0 4))%Q).
Proof.
  apply (@argmax_first_largest [1; 3; 3; 2]%Q 0 4). lia.
Defined.

End PivotChoice.

Section FirstPass.
Import Mpf PsdCholesky.

Lemma initial_diag M i :
  (i < List.length M)%nat -> vget (diag (initial M)) i = mget M i i.
Proof.
  intros Hi. unfold initial, vget. simpl.
  rewrite (nth_indep _ 0%Q (mget M 0 0)) by (rewrite length_map, length_seq; exact Hi).
  rewrite (map_nth (fun i => mget M i i) (seq 0 (List.length M)) O i).
  rewrite seq_nth by exact Hi. reflexivity.
Qed.

Lemma flat_diagonal_stops mp_sqrt M tol :
  (forall i, (i < List.length M)%nat -> (- tol <= mget M i i)%Q /\ (mget M i i <= tol)%Q) ->
  pivoted_cholesky_psd mp_sqrt M tol = (true, 0%Q, 0%Z).
Proof.
  intros Hd. destruct (Nat.eq_dec (List.length M) 0) as [Hn | Hn].
  - unfold pivoted_cholesky_psd. rewrite Hn. reflexivity.
  - assert (H0 : (0 < List.length M)%nat) by lia.
    apply (@run_stops_at mp_sqrt M tol O (initial M)); [exact H0 | reflexivity |].
    destruct (@argmax_in_range (diag (initial M)) O (List.length M) H0) as (_ & Hp).
    destruct (Hd _ Hp) as [Hlo Hhi]. rewrite <- (@initial_diag M _ Hp) in Hlo, Hhi.
    destruct (step_cases mp_sqrt M tol O (initial M))
      as [(E & _) | [(_ & _ & E) | (_ & E & _)]].
    + apply Qlt_bool_iff in E. unfold selected in E.
      exfalso. exact (Qlt_not_le _ _ E Hlo).
    + exact E.
    + apply Qle_bool_iff in Hhi. unfold selected in E. congruence.
Qed.

(** X22.  Only the diagonal is looked at in the first pass: a matrix
    all of whose diagonal entries lie in [[-tol, tol]] is reported
    [success = true] with rank 0 and minimum pivot 0 whatever its
    off-diagonal entries are, and the fallback of [main] then certifies
    it as PSD. *)
Theorem flat_diagonal_is_certified :
  forall mp_sqrt M,
    (forall tol,
       (forall i, (i < List.length M)%nat ->
                  (- tol <= mget M i i)%Q /\ (mget M i i <= tol)%Q) ->
       pivoted_cholesky_psd mp_sqrt M tol = (true, 0%Q, 0%Z)) /\
    (forall dps,
       (forall i, (i < List.length M)%nat ->
                  (- adaptive_tol_from_dps dps 6 <= mget M i i)%Q /\
                  (mget M i i <= adaptive_tol_from_dps dps 6)%Q) ->
       fallback mp_sqrt None M dps = (true, 0%Q, 0%Z, true)).
Proof.
  intros mp_sqrt M. split.
  - intros tol Hd. now apply flat_diagonal_stops.
  - intros dps Hd. unfold fallback.
    rewrite (@flat_diagonal_stops mp_sqrt M _ Hd). reflexivity.
Qed.

Lemma flat_diagonal_is_certified_witness :
  pivoted_cholesky_psd sqrt_on_squares [[0; 5]; [5; 0]]%Q (1 # 1000000)
  = (true, 0%Q, 0%Z) /\
  fallback sqrt_on_squares None [[0; 5]; [5; 0]]%Q 12 = (true, 0%Q, 0%Z, true).
Proof.
  destruct (@flat_diagonal_is_certified sqrt_on_squares [[0; 5]; [5; 0]]%Q) as [H1 H2].
  split.
  - apply H1. intros i Hi. simpl in Hi.
    destruct i as [|[|i]]; [split; vm_compute; discriminate .. | lia].
  - apply H2. intros i Hi. simpl in Hi.
    destruct i as [|[|i]]; [split; vm_compute; discriminate .. | lia].
Defined.

End FirstPass.
(** ** [subspace_psd_cholesky.py]: the quadrature of the Gram entries *)

Section Quadrature.
Import Py BochnerGram.
Local Open Scope R_scope.

(** The sum of [f] over the inner nodes [a + h * k]. *)
Definition inner_sum (f : R -> R) (a h : R) (ks : list nat) : R :=
  fold_right (fun k acc => f (a + h * INR k) + acc) 0 ks.

(** The trapezoid rule on [mgrid] equally spaced nodes of [[a, b]]. *)
Definition trapezoid (f : R -> R) (a b : R) (mgrid : Z) : R :=
  let h := (b - a) / IZR (mgrid - 1) in
  h * (inner_sum f a h (seq 1 (Z.to_nat (mgrid - 2))) + (f a + f b) / 2).

Lemma kahan_loop_exact fn f a h :
  (forall x, fn x = Ok (f x)) ->
  forall ks s, kahan_loop fn a h ks s 0 = Ok (s + inner_sum f a h ks, 0).
Proof.
  intros Hf. induction ks as [|k ks IH]; intros s; simpl.
  - rewrite Rplus_0_r. reflexivity.
  - rewrite Hf. cbn [bind].
    replace (s + (f (a + h * INR k) - 0) - s - (f (a + h * INR k) - 0)) with 0 by ring.
    rewrite IH. f_equal. f_equal. ring.
Qed.

Lemma kahan_stream_trap_total fn f a b mgrid :
  (forall x, fn x = Ok (f x)) -> (2 <= mgrid)%Z ->
  kahan_stream_trap fn a b mgrid = Ok (trapezoid f a b mgrid).
Proof.
  intros Hf Hm. unfold kahan_stream_trap, trapezoid.
  destruct (Z.ltb_spec mgrid 2); [lia|].
  rewrite !Hf. cbn [bind]. rewrite (@kahan_loop_exact fn f a _ Hf). cbn [bind fst].
  f_equal. unfold Rdiv. ring.
Qed.

Lemma kahan_loop_ext fn gn a h :
  (forall x, fn x = gn x) ->
  forall ks s c, kahan_loop fn a h ks s c = kahan_loop gn a h ks s c.
Proof.
  intros He. induction ks as [|k ks IH]; intros s c; simpl; [reflexivity|].
  rewrite He. destruct (gn (a + h * INR k)); simpl; [apply IH | reflexivity].
Qed.

Lemma kahan_stream_trap_ext fn gn a b mgrid :
  (forall x, fn x = gn x) ->
  kahan_stream_trap fn a b mgrid = kahan_stream_trap gn a b mgrid.
Proof.
  intros He. unfold kahan_stream_trap. destruct (mgrid <? 2)%Z; [reflexivity|].
  rewrite !He. destruct (gn a); simpl; [|reflexivity].
  rewrite (@kahan_loop_ext fn gn a _ He). reflexivity.
Qed.

(** X23.  In exact arithmetic the Kahan compensation is zero and
    [kahan_stream_trap] is the trapezoid rule: for [mgrid >= 2] and an
    integrand that returns everywhere, the result is
    [h * (sum of the inner nodes + (f(a) + f(b)) / 2)] with
    [h = (b - a) / (mgrid - 1)]; for [mgrid < 2] it raises before the
    integrand is called. *)
Theorem kahan_is_trapezoid :
  forall fn a b mgrid,
    ((mgrid < 2)%Z -> kahan_stream_trap fn a b mgrid = Exit1 "mgrid must be >= 2") /\
    (forall f, (forall x, fn x = Ok (f x)) -> (2 <= mgrid)%Z ->
               kahan_stream_trap fn a b mgrid = Ok (trapezoid f a b mgrid) /\
               forall ks s, kahan_loop fn a ((b - a) / IZR (mgrid - 1)) ks s 0
                            = Ok (s + inner_sum f a ((b - a) / IZR (mgrid - 1)) ks, 0)).
Proof.
  intros fn a b mgrid. split.
  - intros Hm. unfold kahan_stream_trap. destruct (Z.ltb_spec mgrid 2); [reflexivity | lia].
  - intros f Hf Hm. split; [now apply kahan_stream_trap_total|].
    now apply kahan_loop_exact.
Qed.

Lemma kahan_is_trapezoid_witness :
  kahan_stream_trap (fun x => Ok (x * x)) 0 1 1 = Exit1 "mgrid must be >= 2" /\
  kahan_stream_trap (fun x => Ok (x * x)) 0 1 3
  = Ok (trapezoid (fun x => x * x) 0 1 3).
Proof.
  split.
  - apply (proj1 (kahan_is_trapezoid (fun x => Ok (x * x)) 0 1 1)). lia.
  - apply (proj2 (kahan_is_trapezoid (fun x => Ok (x * x)) 0 1 3) (fun x => x * x));
      [reflexivity | lia].
Defined.

(** X24.  A Gram entry does not depend on the order of its two atoms,
    errors included: computing the upper triangle and mirroring it, as
    [main] does, gives the entries the lower triangle would get. *)
Theorem gram_entry_symmetric :
  forall atom_i atom_j A mgrid,
    bochner_gram_entry_real atom_i atom_j A mgrid
    = bochner_gram_entry_real atom_j atom_i A mgrid.
Proof.
  intros atom_i atom_j A mgrid. unfold bochner_gram_entry_real.
  apply kahan_stream_trap_ext. intros x.
  destruct (h_gauss_notch x (sigma atom_i) (k0 atom_i)) as [u|mu] eqn:Ei;
    destruct (h_gauss_notch x (sigma atom_j) (k0 atom_j)) as [v|mv] eqn:Ej;
    cbn [bind]; try reflexivity.
  - now rewrite Rmult_comm.
  - unfold h_gauss_notch in Ei, Ej.
    destruct (Req_dec_T (sigma atom_i ^ 2) 0); [|discriminate].
    destruct (Req_dec_T (sigma atom_j ^ 2) 0); [|discriminate].
    congruence.
Qed.

Lemma h_gauss_notch_range x s k :
  s <> 0 -> exists v, h_gauss_notch x s k = Ok v /\ 0 <= v < 1.
Proof.
  intros Hs. unfold h_gauss_notch.
  pose proof (pow_nonzero s 2 Hs) as Hs2.
  destruct (Req_dec_T (s ^ 2) 0) as [E | _]; [contradiction|].
  eexists. split; [reflexivity|].
  set (u := - x ^ 2 / s ^ 2). set (w := - (x - k) ^ 2).
  assert (Hu : u <= 0).
  { unfold u. pose proof (pow2_ge_0 s). pose proof (pow2_ge_0 x).
    assert (Hp : 0 < s ^ 2) by Lra.lra.
    apply Rinv_0_lt_compat in Hp. unfold Rdiv. Lra.nra. }
  assert (Hw : w <= 0) by (unfold w; pose proof (pow2_ge_0 (x - k)); Lra.lra).
  assert (Hmono : forall p, p <= 0 -> 0 < exp p <= 1).
  { intros p Hp. split; [apply exp_pos|]. rewrite <- exp_0.
    destruct Hp as [Hp | ->]; [left; now apply exp_increasing | right; reflexivity]. }
  destruct (Hmono u Hu), (Hmono w Hw). split; Lra.nra.
Qed.

Lemma inner_sum_nonneg f a h ks :
  (forall x, 0 <= f x) -> 0 <= inner_sum f a h ks.
Proof.
  intros Hf. induction ks as [|k ks IH]; simpl; [Lra.lra|].
  pose proof (Hf (a + h * INR k)). Lra.lra.
Qed.

(** X25.  The diagonal of the Gram matrix is non-negative: for an atom
    with [sigma <> 0], a half-width [A >= 0] and [mgrid >= 2] the entry
    of the atom with itself is computed and is at least zero. *)
Theorem gram_diagonal_nonneg :
  forall atom A mgrid,
    sigma atom <> 0 -> 0 <= A -> (2 <= mgrid)%Z ->
    exists v, bochner_gram_entry_real atom atom A mgrid = Ok v /\ 0 <= v.
Proof.
  intros atom A mgrid Hs HA Hm.
  set (f := fun x => match h_gauss_notch x (sigma atom) (k0 atom) with
                     | Ok u => u * u
                     | Exit1 _ => 0
                     end).
  assert (Hf : forall x,
             bind (h_gauss_notch x (sigma atom) (k0 atom)) (fun u =>
             bind (h_gauss_notch x (sigma atom) (k0 atom)) (fun v => Ok (u * v)))
             = Ok (f x)).
  { intros x. unfold f.
    destruct (@h_gauss_notch_range x (sigma atom) (k0 atom) Hs) as (v & -> & _). reflexivity. }
  assert (Hpos : forall x, 0 <= f x).
  { intros x. unfold f. destruct (h_gauss_notch x (sigma atom) (k0 atom)); Lra.nra. }
  unfold bochner_gram_entry_real.
  rewrite (@kahan_stream_trap_total _ f (- A) A mgrid Hf Hm).
  eexists. split; [reflexivity|]. unfold trapezoid.
  assert (Hh : 0 <= (A - - A) / IZR (mgrid - 1)).
  { assert (0 < IZR (mgrid - 1)) by (apply IZR_lt; lia).
    unfold Rdiv. assert (0 < / IZR (mgrid - 1)) by now apply Rinv_0_lt_compat.
    Lra.nra. }
  pose proof (@inner_sum_nonneg f (- A) ((A - - A) / IZR (mgrid - 1))
                (seq 1 (Z.to_nat (mgrid - 2))) Hpos).
  pose proof (Hpos (- A)). pose proof (Hpos A).
  apply Rmult_le_pos; [exact Hh | Lra.lra].
Qed.

Lemma gram_diagonal_nonneg_witness :
  exists v, bochner_gram_entry_real {| sigma := 1; k0 := 1 |} {| sigma := 1; k0 := 1 |} 2 5
            = Ok v /\ 0 <= v.
Proof.
  apply (@gram_diagonal_nonneg {| sigma := 1; k0 := 1 |} 2 5%Z); simpl;
    first [Lra.lra | lia].
Defined.

End Quadrature.
(** ** [subspace_psd_cholesky.py]: the atoms *)

Section Atoms.
Import Py BochnerGram.

(** All atoms of the parameter grid, in the order of the two loops. *)
Definition all_atoms (sigmas k0s : list R) : list Atom :=
  flat_map (fun s => map (MkAtom s) k0s) sigmas.

Lemma inner_loop_spec n s : forall k0s atoms,
  match inner_loop n s k0s atoms with
  | inl result =>
      result = firstn (Z.to_nat n) (atoms ++ map (MkAtom s) k0s) /\
      Z.of_nat (List.length result) = n
  | inr atoms' =>
      atoms' = (atoms ++ map (MkAtom s) k0s)%list /\
      (Z.of_nat (List.length atoms) < n -> Z.of_nat (List.length atoms') < n)%Z
  end.
Proof.
  induction k0s as [|k rest IH]; intros atoms; simpl.
  - rewrite app_nil_r. auto.
  - destruct (Z.eqb_spec (Z.of_nat (List.length (atoms ++ [MkAtom s k]))) n) as [E | E].
    + split; [|exact E].
      replace (atoms ++ MkAtom s k :: map (MkAtom s) rest)%list
        with ((atoms ++ [MkAtom s k]) ++ map (MkAtom s) rest)%list
        by (rewrite <- app_assoc; reflexivity).
      rewrite firstn_app.
      replace (Z.to_nat n) with (List.length (atoms ++ [MkAtom s k])) by lia.
      rewrite firstn_all, Nat.sub_diag. simpl. now rewrite app_nil_r.
    + specialize (IH (atoms ++ [MkAtom s k])%list).
      replace (atoms ++ MkAtom s k :: map (MkAtom s) rest)%list
        with ((atoms ++ [MkAtom s k]) ++ map (MkAtom s) rest)%list
        by (rewrite <- app_assoc; reflexivity).
      destruct (inner_loop n s rest (atoms ++ [MkAtom s k])) as [result | atoms'].
      * exact IH.
      * destruct IH as [IH1 IH2]. split; [exact IH1|].
        intros Hlt. apply IH2. rewrite length_app in *. simpl in *. lia.
Qed.

Lemma outer_loop_spec n k0s : forall sigmas atoms,
  (0 <= n)%Z ->
  (Z.of_nat (List.length atoms) < n \/ atoms = [] /\ n = 0)%Z ->
  outer_loop n sigmas k0s atoms
  = firstn (Z.to_nat n) (atoms ++ all_atoms sigmas k0s).
Proof.
  induction sigmas as [|s rest IH]; intros atoms Hn Hlen; simpl.
  - now rewrite app_nil_r.
  - pose proof (inner_loop_spec n s k0s atoms) as Hin.
    rewrite app_assoc.
    destruct (inner_loop n s k0s atoms) as [result | atoms'].
    + destruct Hin as [-> Hl].
      rewrite (firstn_app (Z.to_nat n) (atoms ++ map (MkAtom s) k0s) (all_atoms rest k0s)).
      assert (Hle : (Z.to_nat n <= List.length (atoms ++ map (MkAtom s) k0s))%nat).
      { rewrite length_firstn in Hl. lia. }
      replace (Z.to_nat n - List.length (atoms ++ map (MkAtom s) k0s))%nat
        with O by lia.
      simpl. now rewrite app_nil_r.
    + destruct Hin as [-> Hl].
      destruct Hlen as [Hlt | [-> ->]].
      * apply IH; [exact Hn | left; now apply Hl].
      * simpl. clear.
        generalize (map (MkAtom s) k0s). intros l.
        revert l. induction rest as [|s' rest IH]; intros l; simpl; [reflexivity|].
        pose proof (inner_loop_spec 0 s' k0s l) as Hin.
        destruct (inner_loop 0 s' k0s l) as [result | atoms'].
        -- destruct Hin as [-> _]. reflexivity.
        -- destruct Hin as [-> _]. apply IH.
Qed.

Lemma grid_length m lo hi : List.length (grid m lo hi) = Z.to_nat m.
Proof. unfold grid. now rewrite length_map, length_seq. Qed.

Lemma all_atoms_length sigmas k0s :
  List.length (all_atoms sigmas k0s) = (List.length sigmas * List.length k0s)%nat.
Proof.
  unfold all_atoms. induction sigmas as [|s rest IH]; simpl; [reflexivity|].
  rewrite length_app, length_map, IH. reflexivity.
Qed.

Lemma grid_range m lo hi x :
  (lo <= hi)%R -> In x (grid m lo hi) -> (lo <= x <= hi)%R.
Proof.
  intros Hle Hx. unfold grid in Hx. apply in_map_iff in Hx.
  destruct Hx as (i & <- & Hi). apply in_seq in Hi.
  assert (Hd : (0 < IZR (Z.max (m - 1) 1))%R) by (apply IZR_lt; lia).
  assert (Hi0 : (0 <= IZR (Z.of_nat i))%R) by (apply IZR_le; lia).
  assert (Hid : (IZR (Z.of_nat i) <= IZR (Z.max (m - 1) 1))%R) by (apply IZR_le; lia).
  assert (Hq : (0 <= IZR (Z.of_nat i) / IZR (Z.max (m - 1) 1) <= 1)%R).
  { split.
    - apply Rmult_le_pos; [exact Hi0 | left; now apply Rinv_0_lt_compat].
    - apply Rmult_le_reg_r with (IZR (Z.max (m - 1) 1)); [exact Hd|].
      unfold Rdiv. rewrite Rmult_assoc, Rinv_l by Lra.lra. Lra.lra. }
  unfold Rdiv in *. rewrite Rmult_assoc.
  split; Lra.nra.
Qed.

(** X26.  [make_atoms_gaussian] returns exactly [n_atoms] atoms for
    every [n_atoms >= 0]: the first [n_atoms] of the square parameter
    grid in loop order, each with [sigma] in [[sigma_min, sigma_max]]
    and [k0] in [[k0_min, k0_max]] when the bounds are in order. *)
Theorem make_atoms_gaussian_count :
  forall n_atoms sigma_min sigma_max k0_min k0_max,
    (0 <= n_atoms)%Z ->
    exists m atoms,
      make_atoms_gaussian n_atoms sigma_min sigma_max k0_min k0_max = Ok atoms /\
      (n_atoms <= m * m)%Z /\
      atoms = firstn (Z.to_nat n_atoms)
                     (all_atoms (grid m sigma_min sigma_max) (grid m k0_min k0_max)) /\
      Z.of_nat (List.length atoms) = n_atoms /\
      ((sigma_min <= sigma_max)%R -> (k0_min <= k0_max)%R ->
       forall a, In a atoms ->
                 (sigma_min <= sigma a <= sigma_max)%R /\ (k0_min <= k0 a <= k0_max)%R).
Proof.
  intros n smin smax kmin kmax Hn. unfold make_atoms_gaussian.
  destruct (Z.ltb_spec n 0); [lia|].
  set (m := if (Z.sqrt n * Z.sqrt n <? n)%Z then (Z.sqrt n + 1)%Z else Z.sqrt n).
  assert (Hm : (n <= m * m)%Z /\ (0 <= m)%Z).
  { unfold m. pose proof (Z.sqrt_spec n Hn) as [H1 H2]. pose proof (Z.sqrt_nonneg n).
    destruct (Z.ltb_spec (Z.sqrt n * Z.sqrt n) n); split; unfold Z.succ in *; lia. }
  destruct Hm as [Hm Hm0].
  exists m. eexists. split; [reflexivity|]. split; [exact Hm|].
  assert (Hout : outer_loop n (grid m smin smax) (grid m kmin kmax) []
                 = firstn (Z.to_nat n)
                          (all_atoms (grid m smin smax) (grid m kmin kmax))).
  { rewrite outer_loop_spec; [reflexivity | exact Hn |].
    destruct (Z.eq_dec n 0) as [-> | Hne]; [right; auto | left; simpl; lia]. }
  rewrite Hout. split; [reflexivity|]. split.
  - rewrite length_firstn, all_atoms_length, !grid_length.
    assert (Z.to_nat n <= Z.to_nat m * Z.to_nat m)%nat by nia. lia.
  - intros Hs Hk a Ha.
    assert (Ha' : In a (all_atoms (grid m smin smax) (grid m kmin kmax))).
    { rewrite <- (firstn_skipn (Z.to_nat n)). apply in_or_app. now left. }
    clear Ha. rename Ha' into Ha. unfold all_atoms in Ha.
    apply in_flat_map in Ha. destruct Ha as (s & Hsin & Ha).
    apply in_map_iff in Ha. destruct Ha as (k & <- & Hkin). simpl.
    split; [now apply (grid_range m) | now apply (grid_range m)].
Qed.

Lemma make_atoms_gaussian_count_witness :
  exists m atoms,
    make_atoms_gaussian 5 1 2 0 3 = Ok atoms /\
    (5 <= m * m)%Z /\
    atoms = firstn (Z.to_nat 5) (all_atoms (grid m 1 2) (grid m 0 3)) /\
    Z.of_nat (List.length atoms) = 5%Z /\
    ((1 <= 2)%R -> (0 <= 3)%R ->
     forall a, In a atoms -> (1 <= sigma a <= 2)%R /\ (0 <= k0 a <= 3)%R).
Proof.
  apply (@make_atoms_gaussian_count 5 1 2 0 3). lia.
Defined.

End Atoms.
(** ** [band_cert.py]: inputs and verdict of [main] *)

Section BandInputs.
Import Py Mpf BandCert.

(** A band with its ends in order. *)
Definition ordered (b : band) : Prop := (fst (fst b) < snd (fst b))%Q.

Lemma read_band_ordered spec label_of b :
  read_band spec label_of = Ok b -> ordered b.
Proof.
  unfold read_band. destruct spec; try discriminate.
  destruct (dict_get "left" d); [|discriminate].
  destruct (dict_get "right" d); [|discriminate].
  destruct (to_mpf j); [|discriminate]. destruct (to_mpf j0); [|discriminate].
  cbn [bind]. destruct (Qlt_bool a a0) eqn:E; [|discriminate].
  intros H. inversion H; subst b. unfold ordered. simpl. now apply Qlt_bool_iff.
Qed.

Lemma coerce_list_spec obj : forall i bands,
  coerce_list i obj = Ok bands ->
  Forall ordered bands /\ List.length bands = List.length obj.
Proof.
  induction obj as [|b rest IH]; intros i bands H; simpl in H.
  - inversion H. split; [constructor | reflexivity].
  - destruct (read_band b _) as [x|] eqn:Ex; [|discriminate]. cbn [bind] in H.
    destruct (coerce_list (S i) rest) as [xs|] eqn:Exs; [|discriminate].
    cbn [bind] in H. inversion H; subst bands.
    destruct (IH _ _ Exs) as [Ho Hl]. split.
    + constructor; [now apply read_band_ordered in Ex | exact Ho].
    + simpl. now rewrite Hl.
Qed.

Lemma named_bands_spec items : forall bands,
  named_bands items = Ok bands ->
  Forall ordered bands /\ map snd bands = map fst items.
Proof.
  induction items as [|[name spec] rest IH]; intros bands H; simpl in H.
  - inversion H. split; [constructor | reflexivity].
  - destruct (read_band spec _) as [x|] eqn:Ex; [|discriminate]. cbn [bind] in H.
    destruct (named_bands rest) as [xs|] eqn:Exs; [|discriminate].
    cbn [bind] in H. inversion H; subst bands.
    destruct (IH xs eq_refl) as [Ho Hl]. split.
    + constructor; [now apply read_band_ordered in Ex | exact Ho].
    + simpl. rewrite Hl. f_equal.
      unfold read_band in Ex. destruct spec; try discriminate.
      destruct (dict_get "left" d); [|discriminate].
      destruct (dict_get "right" d); [|discriminate].
      destruct (to_mpf j); [|discriminate]. destruct (to_mpf j0); [|discriminate].
      cbn [bind] in Ex. destruct (Qlt_bool a a0); [|discriminate].
      inversion Ex. reflexivity.
Qed.

Lemma parse_bands_ordered bands_js bands :
  parse_bands_generic bands_js = Ok bands -> Forall ordered bands.
Proof.
  assert (Hc : forall l, coerce_list 0 l = Ok bands -> Forall ordered bands).
  { intros l H. now apply coerce_list_spec in H. }
  assert (Hn : forall items, named_bands items = Ok bands -> Forall ordered bands).
  { intros items H. now apply named_bands_spec in H. }
  unfold parse_bands_generic. destruct bands_js; try discriminate; [apply Hc|].
  destruct (dict_get "bands" d) as [[| | | | | l | [|item items]]|];
    try apply Hc; try apply Hn;
    destruct (dict_get "named_grids" d) as [[| | | | | | [|item' items']]|];
    try discriminate; apply Hn.
Qed.



Lemma make_window_positive window_js sigma k0 :
  make_window window_js = Ok (sigma, k0) -> (0 < sigma)%Q /\ (0 < k0)%Q.
Proof.
  unfold make_window. destruct window_js; try discriminate.
  set (src := match dict_get "window" d with Some (JDict w) => w | _ => d end).
  destruct (negb _); [discriminate|].
  destruct (dict_get "sigma" src); [|discriminate].
  destruct (dict_get "k0" src); [|discriminate].
  destruct (to_mpf j); [|discriminate]. destruct (to_mpf j0); [|discriminate].
  destruct (Qle_bool a 0) eqn:Ea; [discriminate|].
  destruct (Qle_bool a0 0) eqn:Ek; [discriminate|].
  intros H. inversion H; subst. split; now apply Qle_bool_false.
Qed.



End BandInputs.

Section BandVerdict.
Import Py Mpf BandCert.
Local Open Scope R_scope.

(** X29.  PASS of [band_cert.py] is sound when [max_parts >= 1]: a
    certificate with [PASS = true] comes from a window with
    [sigma, k0 > 0] and bands on each of which [|W|] is positive at
    every point, and a finite [band_margin_lo] is a lower bound of
    [|W|] on every band. *)
Theorem band_cert_PASS_sound :
  forall float window_js bands_js arg_tol max_parts c,
    (1 <= max_parts)%Z ->
    main float window_js bands_js arg_tol max_parts = Ok c ->
    PASS c = true ->
    exists sigma k0 bands,
      make_window window_js = Ok (sigma, k0) /\
      parse_bands_generic bands_js = Ok bands /\
      bands_count c = List.length bands /\
      forall b x, In b bands ->
                  Q2R (fst (fst b)) <= x <= Q2R (snd (fst b)) ->
                  0 < Rabs (window (Q2R sigma) (Q2R k0) x) /\
                  forall m, band_margin_lo c = RFin m ->
                            m <= Rabs (window (Q2R sigma) (Q2R k0) x).
Proof.
  intros float window_js bands_js arg_tol max_parts c Hm Hmain HP.
  unfold main in Hmain.
  destruct (make_window window_js) as [[sigma k0]|] eqn:Ew; [|discriminate].
  destruct (parse_bands_generic bands_js) as [bands|] eqn:Eb; [|discriminate].
  cbn [bind] in Hmain.
  destruct (to_mpf (JStr arg_tol)) as [tol|]; [|discriminate].
  cbn [bind fst snd] in Hmain. inversion Hmain; subst c; clear Hmain.
  cbn [PASS band_margin_lo bands_count] in *.
  exists sigma, k0, bands. repeat (split; [reflexivity|]).
  destruct (make_window_positive _ Ew) as [Hs Hk].
  apply Qlt_Rlt in Hs, Hk. rewrite RMicromega.Q2R_0 in Hs, Hk.
  pose proof (parse_bands_ordered _ Eb) as Hord. rewrite Forall_forall in Hord.
  set (ends := map (fun b : band => (Q2R (fst (fst b)), Q2R (snd (fst b)))) bands) in *.
  intros b x Hin [Hx1 Hx2].
  assert (Hle : Q2R (fst (fst b)) <= Q2R (snd (fst b))).
  { left. apply Qlt_Rlt. now apply Hord. }
  assert (Hend : In (Q2R (fst (fst b)), Q2R (snd (fst b))) ends).
  { unfold ends. apply in_map_iff. exists b. split; [reflexivity | exact Hin]. }
  pose proof (@window_lo_unsplit (Q2R sigma) (Q2R k0) float (Q2R tol) max_parts
                _ _ Hs Hk Hle Hm) as Hlo.
  destruct (@window_enclosed (Q2R sigma) (Q2R k0) _ _ x Hs Hk Hx1 Hx2) as (_ & Hbelow & _).
  split.
  - apply PASS_bool_positive in HP. rewrite Forall_forall in HP.
    specialize (HP _ Hend). cbn [fst snd] in HP. rewrite Hlo in HP.
    unfold positive in HP. Lra.lra.
  - intros m Hmar.
    pose proof (@band_margin_lower _ float (Q2R tol) max_parts ends m _ _
                  Hmar Hend Hlo) as Hmv.
    Lra.lra.
Qed.

(** On the positive axis the lower enclosure has a closed form, and it
    is positive. *)
Lemma positive_band_lo sigma k0 a b :
  0 < sigma -> 0 < k0 -> 0 < a -> a <= b ->
  fst (W_abs_iv_on sigma k0 a b)
  = exp (- (b / sigma * (b / sigma))) * (1 - exp (- (a / k0 * (a / k0)))) /\
  0 < fst (W_abs_iv_on sigma k0 a b).
Proof.
  intros Hs Hk Ha Hab.
  assert (H0 : 0 <= a) by Lra.lra.
  pose proof (@W_abs_iv_on_lo_nonneg sigma k0 a b Hs Hk H0 Hab) as E.
  split; [exact E|]. rewrite E.
  assert (Hq : 0 < a / k0).
  { unfold Rdiv. apply Rmult_lt_0_compat; [exact Ha | now apply Rinv_0_lt_compat]. }
  assert (He : exp (- (a / k0 * (a / k0))) < 1).
  { rewrite <- exp_0. apply exp_increasing. Lra.nra. }
  pose proof (exp_pos (- (b / sigma * (b / sigma)))). Lra.nra.
Qed.



(** A window [sigma = k0 = 1] and the single band [[1, 2]]. *)
Definition unit_window : json := JDict [("sigma", JStr "1"); ("k0", JStr "1")].
Definition one_band : json := JList [JDict [("left", JInt 1); ("right", JInt 2)]].

Lemma unit_window_read : make_window unit_window = Ok (1%Q, 1%Q).
Proof. vm_compute. reflexivity. Qed.

Lemma one_band_read : parse_bands_generic one_band = Ok [(1%Q, 2%Q, "band_0")].
Proof. vm_compute. reflexivity. Qed.

Lemma tenth_read : to_mpf (JStr "0.1") = Ok (1 # 10)%Q.
Proof. vm_compute. reflexivity. Qed.

Lemma Q2R_small : Q2R 1 = 1 /\ Q2R 2 = 2.
Proof.
  split; unfold Q2R; cbn [Qnum Qden]; Lra.lra.
Qed.

Lemma one_band_run :
  exists c, main (fun x => x) unit_window one_band "0.1" 8 = Ok c /\ PASS c = true.
Proof.
  destruct Q2R_small as [E1 E2].
  unfold main. rewrite unit_window_read, one_band_read. cbn [bind].
  rewrite tenth_read. cbn [bind].
  eexists. split; [reflexivity|]. cbn [PASS map fst snd].
  apply PASS_bool_positive. apply Forall_cons; [|apply Forall_nil].
  cbn [fst snd]. rewrite E1, E2.
  rewrite (@window_lo_unsplit 1 1 (fun x => x) (Q2R (1 # 10)) 8 1 2);
    try Lra.lra; try lia.
  unfold positive.
  apply (@positive_band_lo 1 1 1 2); Lra.lra.
Qed.

Lemma band_cert_PASS_sound_witness :
  0 < Rabs (window (Q2R 1) (Q2R 1) (3 / 2)).
Proof.
  destruct one_band_run as (c & Hrun & HP).
  destruct Q2R_small as [E1 E2].
  destruct (@band_cert_PASS_sound (fun x => x) unit_window one_band "0.1" 8%Z c
              ltac:(lia) Hrun HP) as (s & k & bs & Hw & Hb & _ & Hall).
  rewrite unit_window_read in Hw. rewrite one_band_read in Hb.
  inversion Hw; subst s k. inversion Hb; subst bs.
  assert (Hin : In (1%Q, 2%Q, "band_0") [(1%Q, 2%Q, "band_0")]) by now left.
  assert (Hx : Q2R 1 <= 3 / 2 <= Q2R 2) by (rewrite E1, E2; Lra.lra).
  exact (proj1 (Hall (1%Q, 2%Q, "band_0") (3 / 2) Hin Hx)).
Defined.

End BandVerdict.
